(** * pFedGP: label-skewed client partitioning

    A shallow embedding of [experiments/heterogeneous_class_dist/dataset.py]
    and the properties of its class-partition generator and index splitter.

    Conventions of the embedding.
    - A Python exception is a value [Raise e] of the [result] monad; code that
      runs to completion yields [Ok v].
    - The process-wide random number generators are explicit oracles: the
      draws of [np.random.uniform], the outcome of every [np.random.choice]
      and the rearrangement done by every [random.shuffle] are arguments, so a
      statement quantified over the oracles speaks about every possible run.
    - Real-number arithmetic is an interface ([Arith]); it is instantiated by
      IEEE-754 binary64 ([float_arith], [doubles]) and by exact rationals
      ([exact_arith]).  Everything that does not depend on rounding is proved
      for every instance; what depends on rounding is proved for binary64,
      for every order in which [probs.sum()] may add the draws.
    - [num_users] and [classes_per_user] are natural numbers; class ids and
      sample indices are natural numbers as well.
    - What the external frameworks do (downloading and decoding images,
      wrapping index subsets in loaders) is left out: a dataset is the list
      of its labels, a loader is the index subset it iterates over.  These
      calls can fail on their own (a missing file, a loader over no sample);
      [Ok] of [get_datasets] and of [gen_random_loaders] therefore says that
      the code of this file has raised nothing, and the statements about the
      two are about runs that return, or about failures of this code.
    - Reading a pickle and turning two arrays into a tensor dataset are
      parameters of [get_dataset_split]; what is kept of them is whether
      they fail, and the names of the files opened, in order. *)

From Stdlib Require Import ZArith QArith Qpower Lqa Floats String Ascii.
From stdpp Require Import base tactics option numbers list.
Close Scope Q_scope.
Close Scope float_scope.
Close Scope string_scope.
Open Scope nat_scope.

(** ** Exceptions and the error monad *)

Inductive exn : Set :=
  | AssertionError
  | ZeroDivisionError
  | ValueError
  | IndexError
  | KeyError
  | OverflowError.

Inductive result (A : Type) : Type :=
  | Ok (a : A)
  | Raise (e : exn).
Arguments Ok {A} a.
Arguments Raise {A} e.

#[global] Instance result_ret : MRet result := λ A a, Ok a.
#[global] Instance result_bind : MBind result := λ A B f m,
  match m with
  | Ok a => f a
  | Raise e => Raise e
  end.
#[global] Instance result_fmap : FMap result := λ A B f m,
  match m with
  | Ok a => Ok (f a)
  | Raise e => Raise e
  end.

(** The computation ends in an exception. *)
Definition raises {A} (m : result A) : Prop := ∃ e, m = Raise e.

(** [for x in l: s = f(s, x)], stopping at the first exception. *)
Fixpoint foldM {A S : Type} (f : S → A → result S) (s : S) (l : list A) : result S :=
  match l with
  | [] => Ok s
  | x :: l' => s' ← f s x; foldM f s' l'
  end.

(** [l[i]] for a non-negative [i]; [e] is the exception the container raises
    when [i] is out of range. *)
Definition getitem {A} (l : list A) (i : nat) (e : exn) : result A :=
  match l !! i with
  | Some x => Ok x
  | None => Raise e
  end.

(** The stop position Python computes for [l[:e]] and the start position for
    [l[e:]]: a negative [e] counts from the end and is clamped at 0. *)
Definition slice_pos (len : nat) (e : Z) : nat :=
  if (e <? 0)%Z then Z.to_nat (Z.max 0 (Z.of_nat len + e)) else Z.to_nat e.

(** [l[:e]] *)
Definition slice_to {A} (l : list A) (e : Z) : list A :=
  take (slice_pos (length l) e) l.

(** [l[e:]] *)
Definition slice_from {A} (l : list A) (e : Z) : list A :=
  drop (slice_pos (length l) e) l.

(** [max(l)] on a list of integers; [ValueError] on the empty list. *)
Definition py_max (l : list Z) : result Z :=
  match l with
  | [] => Raise ValueError
  | x :: l' => Ok (foldr Z.max x l')
  end.

(** [np.random.choice(l)]: [r] is the generator's raw outcome; the call
    raises [ValueError] on an empty list. *)
Definition choice (r : nat) (l : list nat) : result nat :=
  getitem l (r mod length l) ValueError.

(** ** The arithmetic of proportions *)

Class Arith (R : Type) : Type := {
  r_of_count : nat → R;        (* an int64 count promoted to the float type *)
  r_mul : R → R → R;
  r_div : R → R → R;
  r_sum : list R → R;          (* [probs.sum()] *)
  r_int : R → result Z         (* [int(x)]: truncation towards zero *)
}.

(** *** Exact rationals *)

(** The sum of a list of rationals. *)
Definition Qsum (l : list Q) : Q := foldr Qplus 0%Q l.

#[global] Instance exact_arith : Arith Q := {|
  r_of_count n := inject_Z (Z.of_nat n);
  r_mul := Qmult;
  r_div := Qdiv;
  r_sum := Qsum;
  r_int x := Ok (Z.quot (Qnum x) (Z.pos (Qden x)))
|}.

(** *** IEEE-754 binary64 *)

(** [int(x)] on a double: [nan] raises [ValueError], an infinity
    [OverflowError]. *)
Definition float_int (x : float) : result Z :=
  match Prim2SF x with
  | S754_zero _ => Ok 0%Z
  | S754_infinity _ => Raise OverflowError
  | S754_nan => Raise ValueError
  | S754_finite s m e =>
      let a := match e with
               | Z0 => Z.pos m
               | Z.pos k => Z.shiftl (Z.pos m) (Z.pos k)
               | Z.neg k => Z.shiftr (Z.pos m) (Z.pos k)
               end in
      Ok (if s then (- a)%Z else a)
  end.

(** The value of a finite double as a rational number. *)
Definition float_Q (x : float) : option Q :=
  match Prim2SF x with
  | S754_zero _ => Some 0%Q
  | S754_finite s m e =>
      let a := match e with
               | Z0 => inject_Z (Z.pos m)
               | Z.pos k => inject_Z (Z.shiftl (Z.pos m) (Z.pos k))
               | Z.neg k => Qmake (Z.pos m) (Pos.shiftl 1 (Npos k))
               end in
      Some (if s then Qopp a else a)
  | _ => None
  end.

(** [probs.sum()] on an array of doubles, as numpy's pairwise summation does
    it.  Fewer than eight doubles are accumulated from left to right,
    starting from zero. *)
Definition add_rest (res : float) (a : list float) : float :=
  foldl PrimFloat.add res a.

(** Eight accumulators [r[0] .. r[7]]: [r[j] += a[i + j]] for [blocks] blocks
    of eight elements of [a]; the accumulators and the rest of [a]. *)
Fixpoint add_blocks (blocks : nat) (r a : list float) : list float * list float :=
  match blocks with
  | 0 => (r, a)
  | S b => add_blocks b (zip_with PrimFloat.add r (take 8 a)) (drop 8 a)
  end.

(** From 8 to 128 doubles: the accumulators start as the first eight, take
    the further whole blocks of eight, are added as a tree, and the doubles
    after the last whole block are added one by one. *)
Definition block_sum (a : list float) : float :=
  let '(r, rest) := add_blocks (length a / 8 - 1) (take 8 a) (drop 8 a) in
  match r with
  | [r0; r1; r2; r3; r4; r5; r6; r7] =>
      add_rest (((r0 + r1) + (r2 + r3)) + ((r4 + r5) + (r6 + r7)))%float rest
  | _ => PrimFloat.zero
  end.

(** More than 128 doubles: the array is cut at half its length, rounded
    down to a multiple of eight, and the sums of the two parts are added.
    The lengths decrease, so [length a] levels of recursion are enough. *)
Fixpoint pairwise_sum (fuel : nat) (a : list float) : float :=
  if length a <? 8 then add_rest PrimFloat.zero a
  else if length a <=? 128 then block_sum a
  else match fuel with
       | 0 => PrimFloat.zero
       | S fuel =>
           let n2 := length a / 2 - (length a / 2) mod 8 in
           (pairwise_sum fuel (take n2 a) + pairwise_sum fuel (drop n2 a))%float
       end.

Definition np_sum (a : list float) : float := pairwise_sum (length a) a.

(** Counts stay below 2^63. *)
#[global] Instance float_arith : Arith float := {|
  r_of_count n := PrimFloat.of_uint63 (Uint63.of_Z (Z.of_nat n));
  r_mul := PrimFloat.mul;
  r_div := PrimFloat.div;
  r_sum := np_sum;
  r_int := float_int
|}.

(** [s] is a sum of the doubles [l]: the doubles added with [+] in some order
    and bracketing, possibly together with zeros.  The order in which
    [probs.sum()] adds depends on the length of the array and on the build of
    numpy; every order yields such a sum. *)
Inductive float_sum : list float → float → Prop :=
  | float_sum_nil z sz : Prim2SF z = S754_zero sz → float_sum [] z
  | float_sum_one x : float_sum [x] x
  | float_sum_add l1 l2 a b :
      float_sum l1 a → float_sum l2 b → float_sum (l1 ++ l2) (a + b)%float
  | float_sum_perm l l' a : l ≡ₚ l' → float_sum l a → float_sum l' a.

(** The arithmetic of doubles with [probs.sum()] computed by [sum];
    [float_arith] is [doubles np_sum]. *)
Definition doubles (sum : list float → float) : Arith float := {|
  r_of_count n := PrimFloat.of_uint63 (Uint63.of_Z (Z.of_nat n));
  r_mul := PrimFloat.mul;
  r_div := PrimFloat.div;
  r_sum := sum;
  r_int := float_int
|}.

(** ** Datasets and [get_num_classes_samples] *)

(** Only the labels of a dataset matter here.  The three shapes are the three
    branches of the label extraction. *)
Inductive dataset : Type :=
  | Targets (targets : list nat)                          (* has [.targets] *)
  | Subset (targets : list nat) (indices : list nat)      (* [.dataset.targets[.indices]] *)
  | Tensors (labels : list nat).                          (* [.tensors[1]] *)

(** [a[idx]] with an index array: out of range raises [IndexError]. *)
Fixpoint take_indices (a : list nat) (idx : list nat) : result (list nat) :=
  match idx with
  | [] => Ok []
  | i :: idx' => x ← getitem a i IndexError; r ← take_indices a idx'; Ok (x :: r)
  end.

(** [data_labels_list] *)
Definition data_labels (d : dataset) : result (list nat) :=
  match d with
  | Targets t => Ok t
  | Subset t idx => take_indices t idx
  | Tensors y => Ok y
  end.

(** [np.unique(l)]: the distinct values in ascending order. *)
Definition np_unique (l : list nat) : list nat :=
  filter (λ c, c ∈ l) (seq 0 (S (max_list l))).

(** the number of occurrences of [c] in [l] *)
Definition occurrences (c : nat) (l : list nat) : nat :=
  length (filter (λ x, x = c) l).

Definition get_num_classes_samples (d : dataset) : result (nat * list nat * list nat) :=
  data_labels_list ← data_labels d;
  let classes := np_unique data_labels_list in
  let num_samples := (λ c, occurrences c data_labels_list) <$> classes in
  let num_classes := length classes in
  Ok (num_classes, num_samples, data_labels_list).

(** ** [gen_classes_per_node] *)

(** An entry [{'count': _, 'prob': _}] of [class_dict].  The dictionary has
    the keys [0 .. num_classes - 1] and is kept as the list of its entries. *)
Record class_entry (R : Type) : Type := {
  count : Z;
  prob : list R
}.
Arguments count {R} _.
Arguments prob {R} _.

(** The returned [class_partitions]: the lists under ['class'] and ['prob']
    (the field [probs], as [prob] names the key of [class_dict] entries). *)
Record class_partitions (R : Type) : Type := {
  class : list (list nat);
  probs : list (list R)
}.
Arguments class {R} _.
Arguments probs {R} _.

Section Generator.
Context {R : Type} `{Arith R}.

(** [(probs / probs.sum()).tolist()] *)
Definition probs_norm (draws : list R) : list R :=
  (λ x, r_div x (r_sum draws)) <$> draws.

(** [class_dict] after the first loop; [uniform i j] is the [j]-th draw of
    the call of [np.random.uniform] made for class [i]. *)
Definition init_class_dict (num_classes count_per_class : nat)
    (uniform : nat → nat → R) : list (class_entry R) :=
  (λ i, {| count := Z.of_nat count_per_class;
           prob := probs_norm (uniform i <$> seq 0 count_per_class) |})
    <$> seq 0 num_classes.

(** [[class_dict[i]['count'] for i in range(num_classes)]] *)
Definition class_counts (class_dict : list (class_entry R)) : list Z :=
  count <$> class_dict.

(** The candidates: the classes whose count is [mx], without those in [c]. *)
Definition max_class_counts (class_dict : list (class_entry R)) (mx : Z)
    (c : list nat) : list nat :=
  filter (λ i, i ∉ c)
    (filter (λ i, class_counts class_dict !! i = Some mx)
            (seq 0 (length class_dict))).

(** [entry['count'] -= 1] *)
Definition decr (e : class_entry R) : class_entry R :=
  {| count := count e - 1; prob := prob e |}.

(** One iteration of the inner loop; [r] drives [np.random.choice]. *)
Definition select (st : list (class_entry R) * list nat) (r : nat)
    : result (list (class_entry R) * list nat) :=
  let '(class_dict, c) := st in
  mx ← py_max (class_counts class_dict);
  x ← choice r (max_class_counts class_dict mx c);
  Ok (alter decr x class_dict, c ++ [x]).

(** [class_dict[i]['prob'].pop()] *)
Definition pop_prob (class_dict : list (class_entry R)) (i : nat)
    : result (list (class_entry R) * R) :=
  e ← getitem class_dict i KeyError;
  match reverse (prob e) with
  | [] => Raise IndexError
  | p :: rest =>
      Ok (<[i := {| count := count e; prob := reverse rest |}]> class_dict, p)
  end.

(** [[class_dict[i]['prob'].pop() for i in c]] *)
Fixpoint pop_probs (class_dict : list (class_entry R)) (c : list nat)
    : result (list (class_entry R) * list R) :=
  match c with
  | [] => Ok (class_dict, [])
  | i :: c' =>
      '(class_dict1, p) ← pop_prob class_dict i;
      '(class_dict2, ps) ← pop_probs class_dict1 c';
      Ok (class_dict2, p :: ps)
  end.

(** One iteration of the loop over the clients. *)
Definition client (classes_per_user : nat) (pick : nat → nat → nat)
    (st : list (class_entry R) * class_partitions R) (i : nat)
    : result (list (class_entry R) * class_partitions R) :=
  let '(class_dict, parts) := st in
  '(class_dict1, c) ←
    foldM select (class_dict, []) (pick i <$> seq 0 classes_per_user);
  '(class_dict2, ps) ← pop_probs class_dict1 c;
  Ok (class_dict2, {| class := class parts ++ [c]; probs := probs parts ++ [ps] |}).

(** The loop over the clients [users], from an empty plan. *)
Definition clients (classes_per_user : nat) (pick : nat → nat → nat)
    (class_dict : list (class_entry R)) (users : list nat)
    : result (list (class_entry R) * class_partitions R) :=
  foldM (client classes_per_user pick)
        (class_dict, {| class := []; probs := [] |}) users.

(** The whole function, returning the final [class_dict] next to the plan.
    [pick i j] drives the [np.random.choice] of client [i] at slot [j].  The
    parameters [low_prob] and [high_prob] do nothing but bound the draws
    [uniform]; statements that need the bounds assume them of [uniform]. *)
Definition gen_classes_per_node_run (d : dataset) (num_users classes_per_user : nat)
    (uniform : nat → nat → R) (pick : nat → nat → nat)
    : result (list (class_entry R) * class_partitions R) :=
  '(num_classes, num_samples, _) ← get_num_classes_samples d;
  if decide (num_classes = 0) then Raise ZeroDivisionError
  else if decide ((classes_per_user * num_users) mod num_classes = 0) then
    let count_per_class := (classes_per_user * num_users) / num_classes in
    clients classes_per_user pick
      (init_class_dict num_classes count_per_class uniform) (seq 0 num_users)
  else Raise AssertionError.

Definition gen_classes_per_node (d : dataset) (num_users classes_per_user : nat)
    (uniform : nat → nat → R) (pick : nat → nat → nat)
    : result (class_partitions R) :=
  snd <$> gen_classes_per_node_run d num_users classes_per_user uniform pick.

(** The state in which client [i] makes its [j]-th selection: the clients
    before [i] are done and client [i] has chosen [j] classes. *)
Definition selection_state (d : dataset) (num_users classes_per_user : nat)
    (uniform : nat → nat → R) (pick : nat → nat → nat) (i j : nat)
    : result (list (class_entry R) * class_partitions R * list nat) :=
  '(num_classes, num_samples, _) ← get_num_classes_samples d;
  let count_per_class := (classes_per_user * num_users) / num_classes in
  '(class_dict, class_partitions) ←
    clients classes_per_user pick
      (init_class_dict num_classes count_per_class uniform) (seq 0 i);
  '(class_dict1, c) ← foldM select (class_dict, []) (pick i <$> seq 0 j);
  Ok (class_dict1, class_partitions, c).

(** The rest of the run from such a state: the remaining selections of
    client [i], its proportions, and the clients after [i]. *)
Definition resume (num_users classes_per_user : nat) (pick : nat → nat → nat) (i j : nat)
    (st : list (class_entry R) * class_partitions R * list nat)
    : result (list (class_entry R) * class_partitions R) :=
  let '(class_dict, parts, c) := st in
  '(class_dict1, c1) ←
    foldM select (class_dict, c) (pick i <$> seq j (classes_per_user - j));
  '(class_dict2, ps) ← pop_probs class_dict1 c1;
  foldM (client classes_per_user pick)
        (class_dict2, {| class := class parts ++ [c1]; probs := probs parts ++ [ps] |})
        (seq (S i) (num_users - S i)).
End Generator.

(** ** [gen_data_split] *)

(** What [random.shuffle] may do to the pool of each class: rearrange it. *)
Record shuffler : Type := {
  shuffle :> nat → list nat → list nat;
  shuffle_perm : ∀ c l, shuffle c l ≡ₚ l
}.

(** [np.where(labels == i)[0]] *)
Definition where_eq (labels : list nat) (i : nat) : list nat :=
  filter (λ k, labels !! k = Some i) (seq 0 (length labels)).

Section Splitter.
Context {R : Type} `{Arith R}.

(** The body of the inner loop, for the pair [(c, p)] of client [usr_i]. *)
Definition assign (num_samples : list nat) (usr_i : nat)
    (st : list (list nat) * list (list nat)) (cp : nat * R)
    : result (list (list nat) * list (list nat)) :=
  let '(data_class_idx, user_data_idx) := st in
  let '(c, p) := cp in
  n ← getitem num_samples c IndexError;
  end_idx ← r_int (r_mul (r_of_count n) p);
  pool ← getitem data_class_idx c KeyError;
  Ok (<[c := slice_from pool end_idx]> data_class_idx,
      alter (λ l, l ++ slice_to pool end_idx) usr_i user_data_idx).

(** The body of the outer loop. *)
Definition assign_user (num_samples : list nat) (class_partitions : class_partitions R)
    (st : list (list nat) * list (list nat)) (usr_i : nat)
    : result (list (list nat) * list (list nat)) :=
  cs ← getitem (class class_partitions) usr_i IndexError;
  ps ← getitem (probs class_partitions) usr_i IndexError;
  foldM (assign num_samples usr_i) st (zip cs ps).

(** The shuffled pools [data_class_idx]. *)
Definition init_pools (sh : shuffler) (num_classes : nat) (labels : list nat)
    : list (list nat) :=
  (λ i, sh i (where_eq labels i)) <$> seq 0 num_classes.

(** The whole function, returning the residual pools next to
    [user_data_idx]. *)
Definition gen_data_split_run (d : dataset) (num_users : nat)
    (class_partitions : class_partitions R) (sh : shuffler)
    : result (list (list nat) * list (list nat)) :=
  '(num_classes, num_samples, data_labels_list) ← get_num_classes_samples d;
  foldM (assign_user num_samples class_partitions)
        (init_pools sh num_classes data_labels_list, replicate num_users [])
        (seq 0 num_users).

(** [gen_data_split] proper: only [user_data_idx] is returned. *)
Definition gen_data_split (d : dataset) (num_users : nat)
    (class_partitions : class_partitions R) (sh : shuffler)
    : result (list (list nat)) :=
  snd <$> gen_data_split_run d num_users class_partitions sh.

End Splitter.

(** ** [gen_random_loaders] *)

(** The three collections are those [get_datasets] returned; what is kept of
    the loaders is the index subset each one iterates over.  The loop over the
    three splits is unrolled; [sh0], [sh1], [sh2] are the shuffles of the
    three calls of [gen_data_split]. *)
Definition gen_random_loaders {R : Type} `{Arith R} (datasets : dataset * dataset * dataset)
    (num_users classes_per_user : nat) (uniform : nat → nat → R)
    (pick : nat → nat → nat) (sh0 sh1 sh2 : shuffler)
    : result (list (list (list nat))) :=
  let '(train_set, val_set, test_set) := datasets in
  cls_partitions ← gen_classes_per_node train_set num_users classes_per_user uniform pick;
  train_idx ← gen_data_split train_set num_users cls_partitions sh0;
  val_idx ← gen_data_split val_set num_users cls_partitions sh1;
  test_idx ← gen_data_split test_set num_users cls_partitions sh2;
  Ok [train_idx; val_idx; test_idx].

(** ** [get_datasets] *)

Inductive data_obj : Set := CIFAR10 | CIFAR100.

(** What was loaded: the two CIFAR collections or the CINIC image folders. *)
Inductive loaded : Set :=
  | CifarSplits (o : data_obj)
  | CinicFolders.

(** [norm_map[data_name]]: a dictionary with two keys. *)
Definition norm_map (data_name : string) : result data_obj :=
  if String.eqb data_name "cifar10" then Ok CIFAR10
  else if String.eqb data_name "cifar100" then Ok CIFAR100
  else Raise KeyError.

(** [sub in s] on strings *)
Definition contains (sub s : string) : bool :=
  match String.index 0 sub s with
  | Some _ => true
  | None => false
  end.

(** [cinic_train_exists] is [os.path.exists("../cinic/train")]. *)
Definition get_datasets (data_name : string) (cinic_train_exists : bool) : result loaded :=
  if contains "cifar" data_name then
    data_obj ← norm_map data_name;
    Ok (CifarSplits data_obj)
  else if String.eqb data_name "cinic10" then
    if negb cinic_train_exists then Raise ValueError
    else Ok CinicFolders
  else Raise ValueError.

(** ** Oracles and inputs used in the examples *)

Definition id_shuffler : shuffler :=
  {| shuffle := λ _ l, l; shuffle_perm := λ _ l, reflexivity l |}.

Definition rev_shuffler : shuffler :=
  {| shuffle := λ _ l, reverse l; shuffle_perm := λ _ l, reverse_Permutation l |}.

(** Two clients that share class 0 and are promised one half of it each. *)
Definition halves : class_partitions float :=
  {| class := [[0]; [0]]; probs := [[0.5%float]; [0.5%float]] |}.

(** Draws and choices used in the examples: all draws are [1/2], and client
    [i] takes the candidate at position [i + j] (modulo their number) at its
    [j]-th selection. *)
Definition half_draws : nat → nat → Q := λ _ _, (1 # 2)%Q.
Definition diagonal_pick : nat → nat → nat := λ i j, i + j.

(** The doubles that Python reads [0.4] and [0.6] as, and two draws of
    [np.random.uniform(0.4, 0.6)]. *)
Definition low_prob_default : float := 0x1.999999999999ap-2%float.
Definition high_prob_default : float := 0x1.3333333333333p-1%float.
Definition two_draws : nat → nat → float :=
  λ _ j, match j with
         | 0 => 0x1.071623a1456cbp-1%float
         | _ => 0x1.1ef3b2b637bc6p-1%float
         end.

(** A collection of nine samples and the index subsets of its training and
    validation part, as [random_split] makes them. *)
Definition nine_targets : list nat := [0; 1; 2; 1; 0; 2; 1; 0; 2].
Definition train_part : dataset := Subset nine_targets [6; 0; 3; 5; 2; 7].
Definition val_part : dataset := Subset nine_targets [4; 1; 8].
Definition test_part : dataset := Targets [1; 1; 0; 2; 2; 0].

(** Fourteen samples, seven of each of two classes. *)
Definition fourteen : dataset := Targets [0; 1; 0; 1; 0; 1; 0; 1; 0; 1; 0; 1; 0; 1].

(** * Measures and invariants *)

(** ** Quantities the statements speak about *)

(** The sum of a list of integers. *)
Definition sumZ (l : list Z) : Z := foldr Z.add 0%Z l.

(** The counts differ by at most one. *)
Definition spread (cc : list Z) : Prop :=
  ∀ a b, a ∈ cc → b ∈ cc → (a ≤ b + 1)%Z.

(** No class chosen by the current client has a larger count than a class it
    has not chosen. *)
Definition behind (cc : list Z) (c : list nat) : Prop :=
  ∀ i j a b, i ∈ c → j ∉ c → cc !! i = Some a → cc !! j = Some b → (a ≤ b)%Z.

(** The proportions that the pairs [(class, proportion)] give to class [x],
    in order. *)
Definition assigned {R} (x : nat) (pairs : list (nat * R)) : list R :=
  (filter (λ cp, cp.1 = x) pairs).*2.

(** All the pairs of a plan, client after client. *)
Definition schedule {R} (parts : class_partitions R) : list (nat * R) :=
  concat (zip_with zip (class parts) (probs parts)).

(** The plan from client [a] on. *)
Definition suffix {R} (plan : class_partitions R) (a : nat) : class_partitions R :=
  {| class := drop a (class plan); probs := drop a (probs plan) |}.

(** [int(num_samples[c] * p)] of [gen_data_split], computed in the
    arithmetic of the run. *)
Definition int_share {R} `{Arith R} (n : nat) (p : R) : result Z :=
  r_int (r_mul (r_of_count n) p).

(** [end_idx] as a number of indices; 0 where [int] raises. *)
Definition end_idx {R} `{Arith R} (n : nat) (p : R) : nat :=
  match int_share n p with
  | Ok e => Z.to_nat e
  | Raise _ => 0
  end.

(** The number of indices that [pairs] request from class [x], a class of
    [n] samples. *)
Definition requested {R} `{Arith R} (n x : nat) (pairs : list (nat * R)) : nat :=
  sum_list_with (end_idx n) (assigned x pairs).

(** The number of indices that [pairs] request in total. *)
Definition client_total {R} `{Arith R} (num_samples : list nat)
    (pairs : list (nat * R)) : nat :=
  sum_list_with (λ cp, end_idx (num_samples !!! cp.1) cp.2) pairs.

(** ** Doubles and their values *)

Definition pow2 (z : Z) : Q := Qpower 2 z.

(** Half the distance between 1 and the next double. *)
Definition u53 : Q := pow2 (-53).

(** The count [n] as a rational number. *)
Definition Qn (n : nat) : Q := inject_Z (Z.of_nat n).

(** The value of a finite double, mantissa times a power of two. *)
Definition double_val (x : float) : Q :=
  match Prim2SF x with
  | S754_finite s m e =>
      if s then (- (inject_Z (Z.pos m) * pow2 e))%Q else (inject_Z (Z.pos m) * pow2 e)%Q
  | _ => 0%Q
  end.

Definition vals (l : list float) : list Q := double_val <$> l.

(** [x] is a positive normal double of value [a]. *)
Definition normal_pos (x : float) (a : Q) : Prop :=
  ∃ m e, Prim2SF x = S754_finite false m e ∧ (2 ^ 52 ≤ Z.pos m < 2 ^ 53)%Z ∧
         (a == inject_Z (Z.pos m) * pow2 e)%Q.

(** A draw: a finite double between [2^-64] and [2^64]. *)
Definition in_range (x : float) : Prop :=
  ∃ v, float_Q x = Some v ∧ (pow2 (-64) <= v)%Q ∧ (v <= pow2 64)%Q.

(** The same with the double taken apart. *)
Definition draw_ok (x : float) : Prop :=
  normal_pos x (double_val x) ∧
  (pow2 (-64) <= double_val x)%Q ∧ (double_val x <= pow2 64)%Q.

(** A normalised draw. *)
Definition share_ok (p : float) : Prop :=
  normal_pos p (double_val p) ∧
  (pow2 (-150) <= double_val p)%Q ∧ (double_val p <= pow2 131)%Q.

(** What rounding leaves of a sum of positive doubles, whatever the order
    of the additions. *)
Definition sum_spec (l : list float) (s : float) : Prop :=
  match l with
  | [] => ∃ sz, Prim2SF s = S754_zero sz
  | _ =>
      normal_pos s (double_val s) ∧
      ((1 - Qn (length l - 1) * u53) * Qsum (vals l) <= double_val s)%Q ∧
      (double_val s <= (1 + 2 * Qn (length l - 1) * u53) * Qsum (vals l))%Q
  end.

(** The digits that a right shift has dropped from [t]: [m] is the integer
    part of [t], and [l] tells where [t] lies between [m] and [m + 1]. *)
Definition loc_sem (t : Q) (m : Z) (l : location) : Prop :=
  match l with
  | loc_Exact => (t == inject_Z m)%Q
  | loc_Inexact Lt => (inject_Z m < t)%Q ∧ (t < inject_Z m + (1#2))%Q
  | loc_Inexact Eq => (t == inject_Z m + (1#2))%Q
  | loc_Inexact Gt => (inject_Z m + (1#2) < t)%Q ∧ (t < inject_Z m + 1)%Q
  end.

Definition rec_sem (t : Q) (mrs : shr_record) : Prop :=
  loc_sem t (shr_m mrs) (loc_of_shr_record mrs).

(** ** Invariants of the loops *)

(** No index is held twice, by the pools and the clients together. *)
Definition split_inv (N : nat) (st : list (list nat) * list (list nat)) : Prop :=
  length st.2 = N ∧ NoDup (concat st.2 ++ concat st.1).

Section Invariants.
Context {R : Type}.

(** Every index a pool holds carries the label of the pool, and every index
    a client holds carries one of the labels planned for the client. *)
Definition label_inv (labels : list nat) (plan : class_partitions R)
    (st : list (list nat) * list (list nat)) : Prop :=
  (∀ c pool idx, st.1 !! c = Some pool → idx ∈ pool → labels !! idx = Some c) ∧
  (∀ u l idx, st.2 !! u = Some l → idx ∈ l →
     ∃ cs c, class plan !! u = Some cs ∧ c ∈ cs ∧ labels !! idx = Some c).

(** The state of the selection loop of a client that started from
    [class_dict0] and has chosen [j] classes. *)
Definition sel_inv (class_dict0 : list (class_entry R)) (j : nat)
    (st : list (class_entry R) * list nat) : Prop :=
  length st.2 = j ∧ NoDup st.2 ∧ (∀ x, x ∈ st.2 → x < length class_dict0) ∧
  spread (class_counts st.1) ∧ behind (class_counts st.1) st.2 ∧
  sumZ (class_counts st.1) = (sumZ (class_counts class_dict0) - Z.of_nat j)%Z ∧
  length st.1 = length class_dict0 ∧
  ∀ x e0, class_dict0 !! x = Some e0 →
    st.1 !! x = Some {| count := count e0 - (if decide (x ∈ st.2) then 1 else 0);
                        prob := prob e0 |}.

(** The state before client [i] is served: [K] classes with budget [q] each
    at the start, [m] classes per client. *)
Definition client_inv (K q m : nat) (i : nat)
    (st : list (class_entry R) * class_partitions R) : Prop :=
  length st.1 = K ∧ spread (class_counts st.1) ∧
  sumZ (class_counts st.1) = (Z.of_nat K * Z.of_nat q - Z.of_nat i * Z.of_nat m)%Z ∧
  length (class st.2) = i ∧ length (probs st.2) = i ∧
  Forall (λ cs, length cs = m ∧ NoDup cs ∧ ∀ x, x ∈ cs → x < K) (class st.2) ∧
  Forall2 (λ cs ps, length cs = length ps) (class st.2) (probs st.2) ∧
  ∀ x e, st.1 !! x = Some e →
    Z.of_nat (length (prob e)) = count e ∧
    (count e + Z.of_nat (occurrences x (concat (class st.2))) = Z.of_nat q)%Z.

(** Every proportion generated for a class is either still in [class_dict]
    or in the plan; they are handed out from the end of the list. *)
Definition prob_inv (class_dict0 : list (class_entry R))
    (st : list (class_entry R) * class_partitions R) : Prop :=
  ∀ x e, st.1 !! x = Some e →
    ∃ e0, class_dict0 !! x = Some e0 ∧
          prob e0 = prob e ++ reverse (assigned x (schedule st.2)).

End Invariants.

(** ** [get_dataset_split] and [get_cinic_dataset] *)

(** [sep.join(parts)] *)
Fixpoint join (sep : string) (parts : list string) : string :=
  match parts with
  | [] => EmptyString
  | s :: rest =>
      match rest with
      | [] => s
      | _ => String.append s (String.append sep (join sep rest))
      end
  end.

(** The name of the file opened under [pkl_path] for [i] and [split]. *)
Definition pkl_name (i split : string) : string :=
  join "_" [i; split; "dataset.pkl"%string].

(** A computation that opens files: the names it opened, in order, and its
    value when no step raised. *)
Definition traced (X : Type) : Type := list string * option X.

Definition traced_ret {X} (x : X) : traced X := ([], Some x).

Definition traced_bind {X Y} (m : traced X) (f : X → traced Y) : traced Y :=
  match m with
  | (log, Some x) => (log ++ (f x).1, (f x).2)
  | (log, None) => (log, None)
  end.

(** [for x in l: out.append(f(x))] *)
Fixpoint traced_for {X Y} (f : X → traced Y) (l : list X) : traced (list Y) :=
  match l with
  | [] => traced_ret []
  | x :: l' =>
      traced_bind (f x) (λ y,
      traced_bind (traced_for f l') (λ ys, traced_ret (y :: ys)))
  end.

Section Pickles.
Context {A D : Type}.

(** [load name] is [open(pkl_path / name, "rb")] followed by [pickle.load],
    [None] when either raises; [tensor_dataset x y] is what the lines from
    [x = x / 255.0] to [TensorDataset(x, y)] make of the two objects, [None]
    when one of them raises. *)
Variable load : string → option A.
Variable tensor_dataset : A → A → option D.

Definition get_dataset_split (split : string) : traced D :=
  traced_bind
    (traced_for (λ i, ([pkl_name i split], load (pkl_name i split)))
                ["x"%string; "y"%string])
    (λ data, match data with
             | [x; y] => ([], tensor_dataset x y)
             | _ => ([], None)
             end).

Definition get_cinic_dataset : traced (list D) :=
  traced_for get_dataset_split ["train"%string; "valid"%string; "test"%string].
End Pickles.

(** The six files of the CINIC pickles, in the order they are opened. *)
Definition cinic_files : list string :=
  ["x_train_dataset.pkl"; "y_train_dataset.pkl";
   "x_valid_dataset.pkl"; "y_valid_dataset.pkl";
   "x_test_dataset.pkl"; "y_test_dataset.pkl"]%string.

(** ** What the selection of classes looks at *)

(** Of [class_dict], the selection reads the counts, and [pop] needs the
    lengths of the lists of proportions, not their values. *)
Definition skeleton {R} (class_dict : list (class_entry R)) : list (Z * nat) :=
  (λ e, (count e, length (prob e))) <$> class_dict.

(** ** What a split can serve *)

(** The pair [(c, p)] can be served from a split with the counts
    [num_samples]: [num_samples[c]] exists and [int] accepts the product. *)
Definition servable {R} `{Arith R} (num_samples : list nat) (cp : nat * R) : Prop :=
  ∃ n e, num_samples !! cp.1 = Some n ∧ r_int (r_mul (r_of_count n) cp.2) = Ok e.

(** Client [usr_i] has its two entries in the plan, and every pair of it can
    be served. *)
Definition servable_user {R} `{Arith R} (num_samples : list nat)
    (plan : class_partitions R) (usr_i : nat) : Prop :=
  ∃ cs ps, class plan !! usr_i = Some cs ∧ probs plan !! usr_i = Some ps ∧
           Forall (servable num_samples) (zip cs ps).

(** The sizes of the pools and of the lists of the clients. *)
Definition sizes (st : list (list nat) * list (list nat)) : list nat * list nat :=
  (length <$> st.1, length <$> st.2).

(** The state while client [usr_i] is served: the clients after it hold
    nothing yet, and for every class the indices handed out so far, read in
    the order of the clients, followed by the pool, are the shuffled class. *)
Definition order_inv (sh : shuffler) (labels : list nat) (usr_i : nat)
    (st : list (list nat) * list (list nat)) : Prop :=
  (∀ v l, usr_i < v → st.2 !! v = Some l → l = []) ∧
  ∀ c pool, st.1 !! c = Some pool →
    filter (λ i, labels !! i = Some c) (concat st.2) ++ pool = sh c (where_eq labels c).

(** A plan written by hand for two clients: three classes, halves. *)
Definition plan_by_hand : class_partitions Q :=
  {| class := [[0; 1]; [1; 2]];
     probs := [[(1 # 2)%Q; (1 # 2)%Q]; [(1 # 2)%Q; (1 # 2)%Q]] |}.

(** * Properties *)

(** ** The embedding on small inputs *)

Example slices_of_a_negative_stop :
  slice_to [1; 2; 3; 4] (-1) = [1; 2; 3] ∧ slice_from [1; 2; 3; 4] (-1) = [4] ∧
  slice_to [1; 2; 3; 4] (-9) = [] ∧ slice_from [1; 2; 3; 4] (-9) = [1; 2; 3; 4] ∧
  slice_to [1; 2; 3; 4] 9 = [1; 2; 3; 4] ∧ slice_from [1; 2; 3; 4] 9 = [].
Proof. repeat split; reflexivity. Qed.

Example int_of_doubles :
  float_int 2.5%float = Ok 2%Z ∧ float_int (-2.5)%float = Ok (-2)%Z ∧
  r_int (r_mul (r_of_count 7) 0x1.0b1b85f6e4795p-1%float) = Ok 3%Z ∧
  float_int (0 / 0)%float = Raise ValueError ∧
  float_int (1 / 0)%float = Raise OverflowError.
Proof. vm_compute. repeat split; reflexivity. Qed.

Example labels_of_a_subset :
  get_num_classes_samples (Subset [0; 2; 2; 5] [3; 1; 1]) = Ok (2, [2; 1], [5; 2; 2]) ∧
  get_num_classes_samples (Subset [0; 2; 2; 5] [4]) = Raise IndexError ∧
  get_num_classes_samples (Targets []) = Ok (0, [], []).
Proof. vm_compute. repeat split; reflexivity. Qed.

Example names_of_datasets :
  get_datasets "cifar10" false = Ok (CifarSplits CIFAR10) ∧
  get_datasets "cifar100" false = Ok (CifarSplits CIFAR100) ∧
  get_datasets "cinic10" true = Ok CinicFolders ∧
  get_datasets "cinic10" false = Raise ValueError ∧
  get_datasets "xcifar10" true = Raise KeyError ∧
  get_datasets "mnist" true = Raise ValueError.
Proof. vm_compute. repeat split; reflexivity. Qed.

(** Three clients, three classes, two classes per client: the run of the
    generator on the draws [half_draws] and the choices [diagonal_pick]. *)
Example plan_of_three_clients :
  class <$> gen_classes_per_node (Targets [0; 1; 2; 1]) 3 2 half_draws diagonal_pick
  = Ok [[0; 2]; [1; 0]; [1; 2]].
Proof. vm_compute. reflexivity. Qed.

(** No class, a failed divisibility test, more classes per client than
    there are. *)
Example failures_of_the_generator :
  gen_classes_per_node (Targets []) 3 2 half_draws diagonal_pick = Raise ZeroDivisionError ∧
  gen_classes_per_node (Targets [0; 1; 2]) 2 2 half_draws diagonal_pick
    = Raise AssertionError ∧
  gen_classes_per_node (Targets [0; 1]) 1 4 half_draws diagonal_pick = Raise ValueError.
Proof. vm_compute. repeat split; reflexivity. Qed.

(** A validation split without class 1, under a plan made for three classes:
    [num_samples] has two entries and [num_samples[2]] is out of range. *)
Example split_without_a_class :
  (plan ← gen_classes_per_node train_part 3 2 half_draws diagonal_pick;
   gen_data_split (Subset nine_targets [4; 2; 7]) 3 plan id_shuffler)
  = Raise IndexError.
Proof. vm_compute. reflexivity. Qed.

(** ** The error monad *)

Lemma bind_Ok {A B} (m : result A) (f : A → result B) (b : B) :
  m ≫= f = Ok b ↔ ∃ a, m = Ok a ∧ f a = Ok b.
Proof.
  destruct m as [a|e]; simpl.
  - split; [eauto | by intros (? & [= ->] & ?)].
  - split; [done | by intros (? & ? & ?)].
Qed.

Lemma fmap_Ok {A B} (m : result A) (f : A → B) (b : B) :
  f <$> m = Ok b ↔ ∃ a, m = Ok a ∧ b = f a.
Proof.
  destruct m as [a|e]; simpl.
  - split; [intros [= <-]; eauto | by intros (? & [= ->] & ->)].
  - split; [done | by intros (? & ? & ?)].
Qed.

Lemma getitem_Ok {A} (l : list A) i e x : getitem l i e = Ok x ↔ l !! i = Some x.
Proof. unfold getitem. destruct (l !! i); split; congruence. Qed.

Lemma getitem_lt {A} (l : list A) i e : i < length l → ∃ x, getitem l i e = Ok x.
Proof.
  intros Hi. destruct (lookup_lt_is_Some_2 l i Hi) as [x Hx].
  exists x. by apply getitem_Ok.
Qed.

Lemma foldM_cons {A S} (f : S → A → result S) s x l :
  foldM f s (x :: l) = (f s x ≫= λ s', foldM f s' l).
Proof. reflexivity. Qed.

Lemma bind_Ok_l {A B} (a : A) (f : A → result B) : Ok a ≫= f = f a.
Proof. reflexivity. Qed.

Lemma foldM_app {A S} (f : S → A → result S) s l1 l2 :
  foldM f s (l1 ++ l2) = (foldM f s l1 ≫= λ s', foldM f s' l2).
Proof.
  revert s. induction l1 as [|x l1 IH]; intros s; simpl; [done|].
  destruct (f s x) as [s'|e]; simpl; [apply IH | done].
Qed.

(** An invariant of the loop body is an invariant of the loop. *)
Lemma foldM_invariant {A S} (P : S → Prop) (f : S → A → result S) l s s' :
  (∀ s x s', x ∈ l → P s → f s x = Ok s' → P s') →
  P s → foldM f s l = Ok s' → P s'.
Proof.
  revert s. induction l as [|x l IH]; intros s Hstep Hs Hrun; simpl in Hrun.
  - by injection Hrun as <-.
  - apply bind_Ok in Hrun as (s1 & Hx & Hrun).
    eapply (IH s1); [| |done].
    + intros ???? ; apply Hstep. by right.
    + eapply Hstep; [left | done..].
Qed.

Ltac inv_bind H :=
  repeat match type of H with
         | _ ≫= _ = Ok _ =>
             let x := fresh "x" in
             let Hx := fresh "Hx" in
             apply bind_Ok in H as (x & Hx & H)
         end.

(** ** Slices *)

Lemma slice_to_from {A} (l : list A) e : slice_to l e ++ slice_from l e = l.
Proof. apply take_drop. Qed.

Lemma slice_pos_nonneg len e : (0 ≤ e)%Z → slice_pos len e = Z.to_nat e.
Proof. unfold slice_pos. intros He. destruct (Z.ltb_spec e 0); [lia | done]. Qed.


(** ** Labels *)

Lemma filter_ext_in {A} (P1 P2 : A → Prop)
    `{!∀ x, Decision (P1 x), !∀ x, Decision (P2 x)} (l : list A) :
  (∀ x, x ∈ l → P1 x ↔ P2 x) → filter P1 l = filter P2 l.
Proof.
  induction l as [|a l IH]; intros Hl; [done|].
  rewrite !filter_cons, IH by (intros; apply Hl; by right).
  destruct (Hl a) as [H1 H2]; [left|].
  repeat case_decide; tauto.
Qed.

Lemma where_eq_spec labels i k : k ∈ where_eq labels i ↔ labels !! k = Some i.
Proof.
  unfold where_eq. rewrite list_elem_of_filter, elem_of_seq. split; [tauto|].
  intros Hk. split; [done|]. apply lookup_lt_Some in Hk. lia.
Qed.

Lemma where_eq_NoDup labels i : NoDup (where_eq labels i).
Proof. apply NoDup_filter, NoDup_seq. Qed.

Lemma where_eq_length labels i : length (where_eq labels i) = occurrences i labels.
Proof.
  unfold where_eq, occurrences.
  induction labels as [|x labels IH] using rev_ind; [done|].
  rewrite length_app, seq_app, !filter_app, !length_app. simpl.
  rewrite <- IH. f_equal.
  - f_equal. apply filter_ext_in. intros k Hk%elem_of_seq.
    by rewrite lookup_app_l by lia.
  - rewrite !filter_cons, !filter_nil.
    rewrite lookup_app_r, Nat.sub_diag by lia. simpl.
    repeat case_decide; simplify_eq; done.
Qed.

Lemma init_pools_lookup (sh : shuffler) K labels c pool :
  init_pools sh K labels !! c = Some pool → c < K ∧ pool ≡ₚ where_eq labels c.
Proof.
  unfold init_pools. rewrite list_lookup_fmap.
  destruct (seq 0 K !! c) as [i|] eqn:Hi; [|done].
  apply lookup_seq in Hi as [-> ?]. simpl. intros [= <-].
  split; [done | apply shuffle_perm].
Qed.

Lemma init_pools_length (sh : shuffler) K labels : length (init_pools sh K labels) = K.
Proof. unfold init_pools. by rewrite length_fmap, length_seq. Qed.

(** ** Well-formed collections: the labels are [0 .. num_classes - 1] *)

Lemma filter_all {A} (P : A → Prop) `{!∀ x, Decision (P x)} (l : list A) :
  (∀ x, x ∈ l → P x) → filter P l = l.
Proof.
  induction l as [|a l IH]; intros Hl; [done|].
  rewrite filter_cons, decide_True by (apply Hl; left).
  f_equal. apply IH. intros; apply Hl; by right.
Qed.

Lemma filter_none {A} (P : A → Prop) `{!∀ x, Decision (P x)} (l : list A) :
  (∀ x, x ∈ l → ¬ P x) → filter P l = [].
Proof.
  induction l as [|a l IH]; intros Hl; [done|].
  rewrite filter_cons, decide_False by (apply Hl; left).
  apply IH. intros; apply Hl; by right.
Qed.

Lemma np_unique_spec labels c : c ∈ np_unique labels ↔ c ∈ labels.
Proof.
  unfold np_unique. rewrite list_elem_of_filter, elem_of_seq. split; [tauto|].
  intros Hc. split; [done|]. pose proof (max_list_elem_of_le c labels Hc). lia.
Qed.

Lemma np_unique_wf labels :
  (∀ l, l ∈ labels → l < length (np_unique labels)) →
  np_unique labels = seq 0 (length (np_unique labels)).
Proof.
  intros Hwf. set (K := length (np_unique labels)) in *.
  assert (NoDup (np_unique labels)) as Hnd by apply NoDup_filter, NoDup_seq.
  assert (np_unique labels ≡ₚ seq 0 K) as Hperm.
  { apply submseteq_length_Permutation; [|by rewrite length_seq].
    apply NoDup_submseteq; [done|]. intros x Hx.
    apply (proj1 (np_unique_spec labels x)) in Hx.
    apply elem_of_seq. specialize (Hwf x Hx). lia. }
  assert (∀ x, x < K → x ∈ labels) as Hall.
  { intros x Hx. apply np_unique_spec. rewrite Hperm. apply elem_of_seq. lia. }
  assert (K ≤ S (max_list labels)) as HK.
  { destruct K as [|k]; [lia|].
    pose proof (max_list_elem_of_le k labels (Hall k (Nat.lt_succ_diag_r k))). lia. }
  unfold np_unique.
  replace (S (max_list labels)) with (K + (S (max_list labels) - K)) by lia.
  rewrite seq_app, filter_app, filter_all, filter_none.
  - by rewrite app_nil_r.
  - intros x Hx%elem_of_seq Hin. specialize (Hwf x Hin). lia.
  - intros x Hx%elem_of_seq. apply Hall. lia.
Qed.

Lemma get_num_classes_samples_wf d K ns labels :
  get_num_classes_samples d = Ok (K, ns, labels) →
  (∀ l, l ∈ labels → l < K) →
  length ns = K ∧ ∀ c, c < K → ns !! c = Some (occurrences c labels).
Proof.
  unfold get_num_classes_samples. intros Hd Hwf. inv_bind Hd.
  injection Hd as <- <- <-. rewrite length_fmap. split; [done|].
  intros c Hc. rewrite list_lookup_fmap, np_unique_wf by done.
  by rewrite lookup_seq_lt.
Qed.

(** ** Moving a prefix of a pool to a client *)

Lemma elem_of_concat {A} (ls : list (list A)) x :
  x ∈ concat ls ↔ ∃ l, x ∈ l ∧ l ∈ ls.
Proof.
  induction ls as [|a ls IH]; simpl.
  - split; [by intros ?%elem_of_nil | by intros (? & ? & ?%elem_of_nil)].
  - rewrite elem_of_app, IH. split.
    + intros [?|(l & ? & ?)]; [exists a | exists l]; split; try done; by constructor.
    + intros (l & ? & [->|?]%elem_of_cons); eauto.
Qed.

Lemma elem_of_take_in {A} (l : list A) k x : x ∈ take k l → x ∈ l.
Proof. intros Hx. rewrite <- (take_drop k l). apply elem_of_app. by left. Qed.

Lemma elem_of_drop_in {A} (l : list A) k x : x ∈ drop k l → x ∈ l.
Proof. intros Hx. rewrite <- (take_drop k l). apply elem_of_app. by right. Qed.

Lemma concat_replicate_nil {A} n : concat (replicate n ([] : list A)) = [].
Proof. induction n; [done | by simpl]. Qed.

Lemma concat_insert_drop {A} (pools : list (list A)) c pool k :
  pools !! c = Some pool →
  take k pool ++ concat (<[c := drop k pool]> pools) ≡ₚ concat pools.
Proof.
  revert c. induction pools as [|a pools IH]; intros [|c] Hc; simplify_eq/=.
  - by rewrite app_assoc, take_drop.
  - rewrite app_assoc, (Permutation_app_comm (take k pool) a), <- app_assoc.
    f_equiv. by apply IH.
Qed.

Lemma concat_alter_app {A} (users : list (list A)) u x :
  u < length users → concat (alter (λ l, l ++ x) u users) ≡ₚ concat users ++ x.
Proof.
  revert u. induction users as [|a users IH]; intros [|u] Hu; simpl in *; try lia.
  - by rewrite <- !app_assoc, (Permutation_app_comm x).
  - rewrite <- app_assoc. f_equiv. apply IH. lia.
Qed.

Lemma NoDup_concat_lookup {A} (ls : list (list A)) i j a b x :
  NoDup (concat ls) → i ≠ j → ls !! i = Some a → ls !! j = Some b →
  x ∈ a → x ∉ b.
Proof.
  revert i j. induction ls as [|l ls IH]; intros i j Hnd Hij Hi Hj Ha Hb; [done|].
  simpl in Hnd. apply NoDup_app in Hnd as (_ & Hdisj & Hnd).
  destruct i as [|i], j as [|j]; simplify_eq/=.
  - apply (Hdisj x Ha). apply elem_of_concat. exists b.
    split; [done | by eapply list_elem_of_lookup_2].
  - apply (Hdisj x Hb). apply elem_of_concat. exists a.
    split; [done | by eapply list_elem_of_lookup_2].
  - eapply (IH i j); eauto.
Qed.

Lemma NoDup_concat_fmap {A} (f : nat → list A) (l : list nat) :
  NoDup l → (∀ i, NoDup (f i)) → (∀ i j x, x ∈ f i → x ∈ f j → i = j) →
  NoDup (concat (f <$> l)).
Proof.
  intros Hl Hf Hkey. induction Hl as [|i l Hi Hl IH]; simpl; [constructor|].
  apply NoDup_app. split_and!; [done | | done].
  intros x Hx (k & Hk & (j & -> & Hj)%list_elem_of_fmap)%elem_of_concat.
  by rewrite (Hkey i j x Hx Hk) in Hi.
Qed.

Lemma init_pools_NoDup (sh : shuffler) K labels : NoDup (concat (init_pools sh K labels)).
Proof.
  unfold init_pools.
  apply NoDup_concat_fmap; [apply NoDup_seq | |].
  - intros i. rewrite shuffle_perm. apply where_eq_NoDup.
  - intros i j x Hx Hj.
    rewrite shuffle_perm in Hx, Hj. apply where_eq_spec in Hx, Hj. congruence.
Qed.

Section SplitterFacts.
Context {R : Type} `{Arith R}.

Lemma assign_Ok ns u pools users c (p : R) pools' users' :
  assign ns u (pools, users) (c, p) = Ok (pools', users') ↔
  ∃ n e pool,
    ns !! c = Some n ∧ r_int (r_mul (r_of_count n) p) = Ok e ∧
    pools !! c = Some pool ∧
    pools' = <[c := slice_from pool e]> pools ∧
    users' = alter (λ l, l ++ slice_to pool e) u users.
Proof.
  unfold assign. split.
  - intros Hrun. inv_bind Hrun. injection Hrun as <- <-.
    apply getitem_Ok in Hx, Hx1. eauto 10.
  - intros (n & e & pool & Hn & He & Hpool & -> & ->).
    apply (getitem_Ok _ _ IndexError) in Hn. apply (getitem_Ok _ _ KeyError) in Hpool.
    rewrite Hn. simpl. rewrite He. simpl. by rewrite Hpool.
Qed.

Lemma assign_split_inv N ns u st (cp : nat * R) st' :
  u < N → split_inv N st → assign ns u st cp = Ok st' → split_inv N st'.
Proof.
  destruct st as [pools users], st' as [pools' users'], cp as [c p].
  intros Hu [Hlen Hnd] (n & e & pool & Hn & He & Hpool & -> & ->)%assign_Ok.
  unfold split_inv. cbn [fst snd] in *. split; [by rewrite length_alter|].
  eapply NoDup_Permutation_proper; [|exact Hnd].
  rewrite concat_alter_app by lia.
  rewrite <- (concat_insert_drop pools c pool (slice_pos (length pool) e) Hpool).
  unfold slice_to, slice_from. by rewrite <- app_assoc.
Qed.

Lemma assign_user_split_inv N ns (plan : class_partitions R) st u st' :
  u < N → split_inv N st → assign_user ns plan st u = Ok st' → split_inv N st'.
Proof.
  unfold assign_user. intros Hu Hinv Hrun. inv_bind Hrun.
  eapply (foldM_invariant (split_inv N)); [|exact Hinv|exact Hrun].
  intros; by eapply (assign_split_inv N).
Qed.

Lemma gen_data_split_run_split_inv d N (plan : class_partitions R) sh st :
  gen_data_split_run d N plan sh = Ok st → split_inv N st.
Proof.
  unfold gen_data_split_run. intros Hrun. inv_bind Hrun.
  destruct x as [[K ns] labels].
  eapply (foldM_invariant (split_inv N)); [| |exact Hrun].
  - intros s u s' Hu%elem_of_seq ??. eapply (assign_user_split_inv N); [|done..]. lia.
  - split; simpl; [by rewrite length_replicate|].
    rewrite concat_replicate_nil. apply init_pools_NoDup.
Qed.

Lemma assign_label_inv labels (plan : class_partitions R) ns u cs st (cp : nat * R) st' :
  class plan !! u = Some cs → cp.1 ∈ cs →
  label_inv labels plan st → assign ns u st cp = Ok st' → label_inv labels plan st'.
Proof.
  destruct st as [pools users], st' as [pools' users'], cp as [c p].
  intros Hcs Hc [Hpools Husers] (n & e & pool & Hn & He & Hpool & -> & ->)%assign_Ok.
  cbn [fst snd] in *. split; cbn [fst snd].
  - intros c' pool' idx Hlk Hidx.
    destruct (decide (c = c')) as [<-|Hne].
    + rewrite list_lookup_insert_eq in Hlk by by eapply lookup_lt_Some.
      injection Hlk as <-. apply (Hpools c pool idx Hpool).
      unfold slice_from in Hidx. by eapply elem_of_drop_in.
    + rewrite list_lookup_insert_ne in Hlk by done. eauto.
  - intros v l idx Hlk Hidx.
    destruct (decide (u = v)) as [<-|Hne].
    + rewrite list_lookup_alter_eq in Hlk.
      destruct (users !! u) as [l0|] eqn:Hl0; simplify_eq/=.
      apply elem_of_app in Hidx as [Hidx|Hidx]; [by eapply Husers|].
      exists cs, c. split_and!; [done..|].
      apply (Hpools c pool idx Hpool). unfold slice_to in Hidx.
      by eapply elem_of_take_in.
    + rewrite list_lookup_alter_ne in Hlk by done. eauto.
Qed.

Lemma assign_user_label_inv labels (plan : class_partitions R) ns st u st' :
  label_inv labels plan st → assign_user ns plan st u = Ok st' → label_inv labels plan st'.
Proof.
  unfold assign_user. intros Hinv Hrun. inv_bind Hrun.
  apply getitem_Ok in Hx, Hx0.
  eapply (foldM_invariant (label_inv labels plan)); [|exact Hinv|exact Hrun].
  intros s [c p] s' Hcp ??. eapply assign_label_inv; [done| |done..].
  simpl. by eapply elem_of_zip_l.
Qed.

Lemma gen_data_split_run_label_inv d N (plan : class_partitions R) sh K ns labels st :
  get_num_classes_samples d = Ok (K, ns, labels) →
  gen_data_split_run d N plan sh = Ok st → label_inv labels plan st.
Proof.
  unfold gen_data_split_run. intros -> Hrun. simpl in Hrun.
  eapply (foldM_invariant (label_inv labels plan)); [| |exact Hrun].
  - intros; by eapply assign_user_label_inv.
  - split; simpl.
    + intros c pool idx [_ Hperm]%init_pools_lookup Hidx.
      rewrite Hperm in Hidx. by apply where_eq_spec.
    + intros u l idx [-> _]%lookup_replicate. by intros ?%elem_of_nil.
Qed.
End SplitterFacts.

(** ** The index splitter: what the claims say *)





(** C3: the index lists of two different clients of one split share no
    index (and there is one list per client). *)
Theorem gen_data_split_disjoint {R} `{Arith R} (d : dataset) (num_users : nat)
    (class_partitions : class_partitions R) (sh : shuffler) (user_data_idx : list (list nat)) :
  gen_data_split d num_users class_partitions sh = Ok user_data_idx →
  length user_data_idx = num_users ∧
  ∀ i j a b x, i ≠ j →
    user_data_idx !! i = Some a → user_data_idx !! j = Some b → x ∈ a → x ∉ b.
Proof.
  unfold gen_data_split. intros ([pools users] & Hrun & ->)%fmap_Ok.
  apply gen_data_split_run_split_inv in Hrun as [Hlen Hnd]. simpl in *.
  split; [done|]. intros i j a b x. apply NoDup_concat_lookup.
  by apply NoDup_app in Hnd as (? & _ & _).
Qed.

Lemma gen_data_split_disjoint_witness :
  length [[0; 1]; [2; 3]] = 2 ∧
  ∀ i j a b x, i ≠ j →
    [[0; 1]; [2; 3]] !! i = Some a → [[0; 1]; [2; 3]] !! j = Some b → x ∈ a → x ∉ b.
Proof.
  apply (gen_data_split_disjoint (Targets [0; 0; 0; 0]) 2 halves id_shuffler).
  vm_compute. reflexivity.
Defined.

(** C5: with the plan computed on the training split and reused for the
    validation and the test split, every index a client holds in any of the
    three splits carries a label of the client's planned class list. *)
Theorem gen_random_loaders_same_classes {R} `{Arith R}
    (train_set val_set test_set : dataset) (num_users classes_per_user : nat)
    (uniform : nat → nat → R) (pick : nat → nat → nat) (sh0 sh1 sh2 : shuffler)
    (subsets : list (list (list nat))) :
  gen_random_loaders (train_set, val_set, test_set) num_users classes_per_user
    uniform pick sh0 sh1 sh2 = Ok subsets →
  ∃ cls_partitions,
    gen_classes_per_node train_set num_users classes_per_user uniform pick
      = Ok cls_partitions ∧
    length subsets = 3 ∧
    ∀ s d usr_subset_idx num_classes num_samples labels,
      [train_set; val_set; test_set] !! s = Some d →
      subsets !! s = Some usr_subset_idx →
      get_num_classes_samples d = Ok (num_classes, num_samples, labels) →
      ∀ usr_i idxs idx, usr_subset_idx !! usr_i = Some idxs → idx ∈ idxs →
        ∃ cs c, class cls_partitions !! usr_i = Some cs ∧ c ∈ cs ∧
                labels !! idx = Some c.
Proof.
  unfold gen_random_loaders. intros Hrun. inv_bind Hrun. injection Hrun as <-.
  exists x. split_and!; [done..|].
  assert (∀ d sh out K ns labels,
    gen_data_split d num_users x sh = Ok out →
    get_num_classes_samples d = Ok (K, ns, labels) →
    ∀ u l idx, out !! u = Some l → idx ∈ l →
        ∃ cs c, class x !! u = Some cs ∧ c ∈ cs ∧ labels !! idx = Some c) as Hsplit.
  { intros d sh out K ns labels ([pools users] & Hsp & ->)%fmap_Ok Hd.
    by destruct (gen_data_split_run_label_inv _ _ _ _ _ _ _ _ Hd Hsp) as [_ Husers]. }
  intros [|[|[|s]]] d out K ns labels Hd Hout Hlab; simplify_eq/=; eauto.
Qed.

Lemma gen_random_loaders_same_classes_witness :
  ∃ subsets,
    gen_random_loaders (train_part, val_part, test_part) 3 2
      half_draws diagonal_pick id_shuffler rev_shuffler id_shuffler = Ok subsets ∧
  ∃ cls_partitions,
    gen_classes_per_node train_part 3 2 half_draws diagonal_pick = Ok cls_partitions ∧
    length subsets = 3 ∧
    ∀ s d usr_subset_idx num_classes num_samples labels,
      [train_part; val_part; test_part] !! s = Some d →
      subsets !! s = Some usr_subset_idx →
      get_num_classes_samples d = Ok (num_classes, num_samples, labels) →
      ∀ usr_i idxs idx, usr_subset_idx !! usr_i = Some idxs → idx ∈ idxs →
        ∃ cs c, class cls_partitions !! usr_i = Some cs ∧ c ∈ cs ∧
                labels !! idx = Some c.
Proof.
  eexists. split; [vm_compute; reflexivity|].
  apply (gen_random_loaders_same_classes (R:=Q) train_part val_part test_part 3 2
           half_draws diagonal_pick id_shuffler rev_shuffler id_shuffler).
  vm_compute. reflexivity.
Defined.

(** ** Loops with a position *)

Lemma foldM_invariant_at {A St} (P : nat → St → Prop) (f : St → A → result St) l s s' :
  (∀ k x s s', l !! k = Some x → P k s → f s x = Ok s' → P (S k) s') →
  P 0 s → foldM f s l = Ok s' → P (length l) s'.
Proof.
  revert P s. induction l as [|x l IH]; intros P s Hstep Hs Hrun; simpl in Hrun.
  - by injection Hrun as <-.
  - apply bind_Ok in Hrun as (s1 & Hx & Hrun).
    apply (IH (λ k, P (S k)) s1); [| |done].
    + intros k y t t' Hk. by apply (Hstep (S k)).
    + by apply (Hstep 0 x s).
Qed.

Lemma foldM_progress_at {A St} (P : nat → St → Prop) (f : St → A → result St) l s :
  (∀ k x s, l !! k = Some x → P k s → ∃ s', f s x = Ok s' ∧ P (S k) s') →
  P 0 s → ∃ s', foldM f s l = Ok s' ∧ P (length l) s'.
Proof.
  revert P s. induction l as [|x l IH]; intros P s Hstep Hs; simpl.
  - eauto.
  - destruct (Hstep 0 x s) as (s1 & -> & Hs1); [done..|]. simpl.
    apply (IH (λ k, P (S k)) s1); [|done].
    intros k y t Hk. by apply (Hstep (S k)).
Qed.

Lemma foldM_raise_first {A St} (f : St → A → result St) s x l e :
  f s x = Raise e → foldM f s (x :: l) = Raise e.
Proof. simpl. by intros ->. Qed.

(** ** Maximum, choice and counting *)

Lemma foldr_max_ge x l : (x ≤ foldr Z.max x l)%Z ∧ ∀ y, y ∈ l → (y ≤ foldr Z.max x l)%Z.
Proof.
  induction l as [|a l [IH1 IH2]]; simpl.
  - split; [lia | by intros ? ?%elem_of_nil].
  - split; [lia|]. intros y [->|Hy]%elem_of_cons; [lia|]. specialize (IH2 y Hy). lia.
Qed.

Lemma foldr_max_elem x l : foldr Z.max x l = x ∨ foldr Z.max x l ∈ l.
Proof.
  induction l as [|a l IH]; simpl; [by left|].
  destruct (Z.max_spec a (foldr Z.max x l)) as [[_ ->]|[_ ->]].
  - destruct IH as [->|?]; [by left | right; by right].
  - right; by left.
Qed.

Lemma py_max_Ok l mx :
  py_max l = Ok mx → mx ∈ l ∧ ∀ y, y ∈ l → (y ≤ mx)%Z.
Proof.
  destruct l as [|x l]; simpl; [done|]. intros [= <-].
  destruct (foldr_max_ge x l) as [H1 H2]. split.
  - destruct (foldr_max_elem x l) as [->|?]; [by left | by right].
  - intros y [->|Hy]%elem_of_cons; auto.
Qed.

Lemma py_max_nonempty l : l ≠ [] → ∃ mx, py_max l = Ok mx.
Proof. destruct l; [done | eauto]. Qed.

Lemma py_max_raise l e : py_max l = Raise e → e = ValueError.
Proof. destruct l; simpl; congruence. Qed.

Lemma choice_Ok r l x : choice r l = Ok x → x ∈ l.
Proof. unfold choice. intros Hx%getitem_Ok. by eapply list_elem_of_lookup_2. Qed.

Lemma choice_nonempty r l : l ≠ [] → ∃ x, choice r l = Ok x.
Proof.
  intros Hl. unfold choice. apply getitem_lt.
  apply Nat.mod_upper_bound. by destruct l.
Qed.

(** Every candidate is the outcome of some draw, so a statement about all
    [r] covers every outcome of [np.random.choice]. *)
Lemma choice_complete l x : x ∈ l → ∃ r, choice r l = Ok x.
Proof.
  intros (i & Hi)%list_elem_of_lookup. exists i. unfold choice.
  rewrite Nat.mod_small by by eapply lookup_lt_Some. by apply getitem_Ok.
Qed.

Lemma choice_raise r l e : choice r l = Raise e → e = ValueError ∧ l = [].
Proof.
  unfold choice, getitem. intros Hr. destruct l as [|a l]; [simpl in Hr; by simplify_eq|].
  destruct (choice_nonempty r (a :: l)) as [x Hx]; [done|].
  unfold choice, getitem in Hx. destruct ((a :: l) !! _); simplify_eq.
Qed.

(** A duplicate-free list of numbers below [K] leaves one out, unless it has
    [K] elements. *)
Lemma bounded_NoDup_length (c : list nat) K :
  NoDup c → (∀ x, x ∈ c → x < K) → length c ≤ K.
Proof.
  intros Hnd Hlt. assert (length c ≤ length (seq 0 K)) as Hle.
  { apply submseteq_length, NoDup_submseteq; [done|].
    intros x Hx. apply elem_of_seq. specialize (Hlt x Hx). lia. }
  by rewrite length_seq in Hle.
Qed.

Lemma fresh_below (c : list nat) K :
  length c < K → ∃ j, j < K ∧ j ∉ c.
Proof.
  intros Hlen.
  destruct (filter (λ j, j ∉ c) (seq 0 K)) as [|j rest] eqn:Hf.
  - exfalso. assert (length (seq 0 K) ≤ length c) as Hle.
    { apply submseteq_length, NoDup_submseteq; [apply NoDup_seq|].
      intros x Hx. destruct (decide (x ∈ c)) as [|Hnc]; [done|].
      assert (x ∈ filter (λ j, j ∉ c) (seq 0 K)) as Hin by by apply list_elem_of_filter.
      rewrite Hf in Hin. by apply elem_of_nil in Hin. }
    rewrite length_seq in Hle. lia.
  - assert (j ∈ filter (λ j, j ∉ c) (seq 0 K)) as Hin by (rewrite Hf; left).
    apply list_elem_of_filter in Hin as [Hnc Hseq%elem_of_seq].
    exists j. split; [lia | done].
Qed.

Lemma occurrences_app c l1 l2 : occurrences c (l1 ++ l2) = occurrences c l1 + occurrences c l2.
Proof. unfold occurrences. by rewrite filter_app, length_app. Qed.

Lemma occurrences_not_elem c l : c ∉ l → occurrences c l = 0.
Proof.
  unfold occurrences. induction l as [|x l IH]; [done|].
  intros [Hne Hl]%not_elem_of_cons. rewrite filter_cons.
  case_decide; [congruence | by apply IH].
Qed.

Lemma occurrences_NoDup c l : NoDup l → c ∈ l → occurrences c l = 1.
Proof.
  unfold occurrences. induction 1 as [|x l Hx Hnd IH]; [by intros ?%elem_of_nil|].
  rewrite filter_cons. intros [->|Hc]%elem_of_cons.
  - rewrite decide_True by done. simpl. f_equal. by apply (occurrences_not_elem x l).
  - rewrite decide_False by (intros ->; done). by apply IH.
Qed.

Lemma sumZ_alter (f : Z → Z) l i v :
  l !! i = Some v → sumZ (alter f i l) = (sumZ l - v + f v)%Z.
Proof.
  revert i. induction l as [|a l IH]; intros [|i] Hi; simplify_eq/=; [lia|].
  rewrite (IH i Hi). lia.
Qed.

Lemma sumZ_nonpos l : (∀ y, y ∈ l → (y ≤ 0)%Z) → (sumZ l ≤ 0)%Z.
Proof.
  induction l as [|a l IH]; intros Hl; simpl; [lia|].
  assert (a ≤ 0)%Z by (apply Hl; left).
  assert (sumZ l ≤ 0)%Z by (apply IH; intros; apply Hl; by right). lia.
Qed.

Lemma sumZ_negative l x :
  (∀ y, y ∈ l → (y ≤ 0)%Z) → x ∈ l → (x < 0)%Z → (sumZ l < 0)%Z.
Proof.
  induction l as [|a l IH]; intros Hl Hx Hneg; [by apply elem_of_nil in Hx|]. simpl.
  assert (a ≤ 0)%Z by (apply Hl; left).
  assert (sumZ l ≤ 0)%Z by (apply sumZ_nonpos; intros; apply Hl; by right).
  apply elem_of_cons in Hx as [->|Hx]; [lia|].
  assert (sumZ l < 0)%Z; [|lia]. apply IH; [|done..]. intros; apply Hl; by right.
Qed.

Lemma sumZ_nonneg l : (∀ y, y ∈ l → (0 ≤ y)%Z) → (0 ≤ sumZ l)%Z.
Proof.
  induction l as [|a l IH]; intros Hl; simpl; [lia|].
  assert (0 ≤ a)%Z by (apply Hl; left).
  assert (0 ≤ sumZ l)%Z by (apply IH; intros; apply Hl; by right). lia.
Qed.

Lemma sumZ_positive l x :
  (∀ y, y ∈ l → (0 ≤ y)%Z) → x ∈ l → (0 < x)%Z → (0 < sumZ l)%Z.
Proof.
  induction l as [|a l IH]; intros Hl Hx Hpos; [by apply elem_of_nil in Hx|]. simpl.
  assert (0 ≤ a)%Z by (apply Hl; left).
  assert (0 ≤ sumZ l)%Z by (apply sumZ_nonneg; intros; apply Hl; by right).
  apply elem_of_cons in Hx as [->|Hx]; [lia|].
  assert (0 < sumZ l)%Z; [|lia]. apply IH; [|done..]. intros; apply Hl; by right.
Qed.

Lemma sumZ_replicate n v : sumZ (replicate n v) = (Z.of_nat n * v)%Z.
Proof. induction n as [|n IH]; [done|]. simpl replicate. simpl sumZ. rewrite IH. lia. Qed.

Lemma spread_nonneg cc : spread cc → (0 ≤ sumZ cc)%Z → ∀ x, x ∈ cc → (0 ≤ x)%Z.
Proof.
  intros Hsp Hsum x Hx. destruct (Z.le_gt_cases 0 x) as [|Hneg]; [done|].
  assert (sumZ cc < 0)%Z; [|lia]. apply (sumZ_negative cc x); [|done..].
  intros y Hy. specialize (Hsp y x Hy Hx). lia.
Qed.

Lemma spread_zero cc : spread cc → sumZ cc = 0%Z → ∀ x, x ∈ cc → x = 0%Z.
Proof.
  intros Hsp Hsum x Hx.
  assert (0 ≤ x)%Z by (apply (spread_nonneg cc); [done | lia | done]).
  destruct (Z.eq_dec x 0%Z) as [|Hne]; [done|].
  assert (0 < sumZ cc)%Z; [|lia]. apply (sumZ_positive cc x); [|done|lia].
  intros y Hy. specialize (Hsp x y Hx Hy). lia.
Qed.

Lemma elem_of_alter_inv {A} (f : A → A) (l : list A) i a :
  a ∈ alter f i l → a ∈ l ∨ ∃ v, l !! i = Some v ∧ a = f v.
Proof.
  intros (k & Hk)%list_elem_of_lookup. destruct (decide (i = k)) as [<-|Hne].
  - rewrite list_lookup_alter_eq in Hk. destruct (l !! i) as [v|]; simplify_eq/=. eauto.
  - rewrite list_lookup_alter_ne in Hk by done. left. by eapply list_elem_of_lookup_2.
Qed.

Lemma spread_decr_max cc x mx :
  spread cc → cc !! x = Some mx → (∀ y, y ∈ cc → (y ≤ mx)%Z) →
  spread (alter (λ v, v - 1)%Z x cc).
Proof.
  intros Hsp Hx Hmax a b Ha Hb.
  assert (mx ∈ cc) as Hmx by by eapply list_elem_of_lookup_2.
  apply elem_of_alter_inv in Ha as [Ha|(v & Hv & ->)];
    apply elem_of_alter_inv in Hb as [Hb|(w & Hw & ->)]; simplify_eq.
  - by apply Hsp.
  - specialize (Hmax a Ha). lia.
  - specialize (Hsp mx b Hmx Hb). lia.
  - lia.
Qed.

(** ** The selection loop of one client *)

Section GeneratorFacts.
Context {R : Type} `{Arith R}.

Lemma class_counts_decr (cd : list (class_entry R)) x :
  class_counts (alter decr x cd) = alter (λ v, v - 1)%Z x (class_counts cd).
Proof. unfold class_counts. apply list_fmap_alter. by apply Forall_forall. Qed.

Lemma class_counts_lookup (cd : list (class_entry R)) x v :
  class_counts cd !! x = Some v ↔ ∃ e, cd !! x = Some e ∧ count e = v.
Proof.
  unfold class_counts. rewrite list_lookup_fmap.
  destruct (cd !! x) as [e|]; simpl; split.
  - intros [= <-]. eauto.
  - by intros (? & [= <-] & <-).
  - done.
  - by intros (? & ? & _).
Qed.

Lemma class_counts_length (cd : list (class_entry R)) : length (class_counts cd) = length cd.
Proof. apply length_fmap. Qed.

Lemma max_class_counts_spec (cd : list (class_entry R)) mx c x :
  x ∈ max_class_counts cd mx c ↔ (x ∉ c) ∧ class_counts cd !! x = Some mx.
Proof.
  unfold max_class_counts. rewrite !list_elem_of_filter, elem_of_seq.
  split; [tauto|]. intros [Hc Hx]. split_and!; [done..|lia|].
  apply lookup_lt_Some in Hx. rewrite class_counts_length in Hx. lia.
Qed.

Lemma select_Ok (cd : list (class_entry R)) c r cd' c' :
  select (cd, c) r = Ok (cd', c') ↔
  ∃ mx x, py_max (class_counts cd) = Ok mx ∧
          choice r (max_class_counts cd mx c) = Ok x ∧
          cd' = alter decr x cd ∧ c' = c ++ [x].
Proof.
  unfold select. split.
  - intros Hrun. inv_bind Hrun. injection Hrun as <- <-. eauto 10.
  - intros (mx & x & -> & Hx & -> & ->). simpl. by rewrite Hx.
Qed.

Lemma select_raise (st : list (class_entry R) * list nat) r e :
  select st r = Raise e → e = ValueError.
Proof.
  destruct st as [cd c]. unfold select.
  destruct (py_max (class_counts cd)) as [mx|e1] eqn:Hmx; simpl.
  - destruct (choice r (max_class_counts cd mx c)) as [x|e2] eqn:Hx; simpl; [done|].
    intros [= <-]. by apply choice_raise in Hx as [-> _].
  - intros [= <-]. by apply py_max_raise in Hmx.
Qed.

Lemma select_loop_raise (st : list (class_entry R) * list nat) rs e :
  foldM select st rs = Raise e → e = ValueError.
Proof.
  revert st. induction rs as [|r rs IH]; intros st; simpl; [done|].
  destruct (select st r) as [st'|e'] eqn:Hsel; simpl; [apply IH|].
  intros [= <-]. by eapply select_raise.
Qed.

(** Some class outside [c] has the maximal count. *)
Lemma candidates_nonempty (cd : list (class_entry R)) c mx :
  behind (class_counts cd) c → length c < length cd →
  py_max (class_counts cd) = Ok mx → max_class_counts cd mx c ≠ [].
Proof.
  intros Hbehind Hlen [Hmx Hmax]%py_max_Ok Hnil.
  apply list_elem_of_lookup in Hmx as [i Hi].
  assert (∀ x, x ∉ max_class_counts cd mx c) as Hnone.
  { intros x. rewrite Hnil. apply not_elem_of_nil. }
  destruct (decide (i ∈ c)) as [Hic|Hic].
  - destruct (fresh_below c (length cd) Hlen) as (j & Hj & Hjc).
    rewrite <- class_counts_length in Hj.
    destruct (lookup_lt_is_Some_2 _ _ Hj) as [b Hb].
    assert (b ≤ mx)%Z by (apply Hmax; by eapply list_elem_of_lookup_2).
    assert (mx ≤ b)%Z by by eapply (Hbehind i j).
    apply (Hnone j). apply max_class_counts_spec. split; [done|].
    rewrite Hb. f_equal. lia.
  - apply (Hnone i). by apply max_class_counts_spec.
Qed.

Lemma sel_inv_init (cd0 : list (class_entry R)) :
  spread (class_counts cd0) → sel_inv cd0 0 (cd0, []).
Proof.
  intros Hsp. unfold sel_inv. cbn [fst snd]. split_and!; try done.
  - constructor.
  - by intros x ?%elem_of_nil.
  - by intros i j a b ?%elem_of_nil.
  - lia.
  - intros x [n ps] ->. rewrite decide_False by apply not_elem_of_nil.
    simpl. by rewrite Z.sub_0_r.
Qed.

Lemma select_preserves (cd0 : list (class_entry R)) j st r st' :
  sel_inv cd0 j st → select st r = Ok st' → sel_inv cd0 (S j) st'.
Proof.
  destruct st as [cd c], st' as [cd' c'].
  intros (Hlen & Hnd & Hlt & Hsp & Hbehind & Hsum & Hcd & Hent)
    (mx & x & [Hmx Hmax]%py_max_Ok & Hx%choice_Ok & -> & ->)%select_Ok.
  cbn [fst snd] in *. apply max_class_counts_spec in Hx as [Hxc Hxmx].
  assert (x < length cd0) as Hxlt.
  { apply lookup_lt_Some in Hxmx. rewrite class_counts_length in Hxmx. lia. }
  unfold sel_inv. cbn [fst snd]. rewrite class_counts_decr. split_and!.
  - rewrite length_app. simpl. lia.
  - apply NoDup_app. split_and!; [done| |apply NoDup_singleton].
    intros y Hy ->%list_elem_of_singleton. done.
  - intros y [Hy| ->%list_elem_of_singleton]%elem_of_app; auto.
  - by eapply spread_decr_max.
  - intros i k a b Hi [Hkc Hkx%not_elem_of_cons]%not_elem_of_app Ha Hb.
    destruct Hkx as [Hkx _].
    rewrite list_lookup_alter_ne in Hb by done.
    assert (b ∈ class_counts cd) as Hbin by by eapply list_elem_of_lookup_2.
    apply elem_of_app in Hi as [Hi| ->%list_elem_of_singleton].
    + rewrite list_lookup_alter_ne in Ha by (intros ->; done).
      by eapply (Hbehind i k).
    + rewrite list_lookup_alter_eq, Hxmx in Ha. simplify_eq/=.
      specialize (Hsp mx b Hmx Hbin). lia.
  - rewrite (sumZ_alter _ _ _ mx Hxmx), Hsum. lia.
  - by rewrite length_alter.
  - intros y e0 Hy. specialize (Hent y e0 Hy).
    destruct (decide (x = y)) as [<-|Hne].
    + rewrite list_lookup_alter_eq, Hent. simpl. unfold decr. simpl.
      rewrite decide_False by done.
      rewrite decide_True by (apply elem_of_app; right; by left).
      do 2 f_equal. lia.
    + rewrite list_lookup_alter_ne, Hent by done. do 2 f_equal.
      destruct (decide (y ∈ c)) as [Hyc|Hyc].
      * rewrite decide_True; [done | apply elem_of_app; by left].
      * rewrite decide_False; [done|].
        intros [?| ->%list_elem_of_singleton]%elem_of_app; done.
Qed.

Lemma select_progress (cd0 : list (class_entry R)) j st r :
  sel_inv cd0 j st → j < length cd0 → ∃ st', select st r = Ok st'.
Proof.
  destruct st as [cd c].
  intros (Hlen & Hnd & Hlt & Hsp & Hbehind & Hsum & Hcd & Hent) Hj.
  cbn [fst snd] in *.
  destruct (py_max_nonempty (class_counts cd)) as [mx Hmx].
  { intros Hnil. apply (f_equal length) in Hnil.
    rewrite class_counts_length in Hnil. simpl in Hnil. lia. }
  destruct (choice_nonempty r (max_class_counts cd mx c)) as [x Hx].
  { apply candidates_nonempty; [done | lia | done]. }
  exists (alter decr x cd, c ++ [x]). apply select_Ok. eauto 10.
Qed.

Lemma select_loop_inv (cd0 : list (class_entry R)) rs st :
  spread (class_counts cd0) →
  foldM select (cd0, []) rs = Ok st → sel_inv cd0 (length rs) st.
Proof.
  intros Hsp Hrun.
  eapply (foldM_invariant_at (sel_inv cd0)); [|by apply sel_inv_init|exact Hrun].
  intros k r s s' _. apply select_preserves.
Qed.

Lemma select_loop_progress (cd0 : list (class_entry R)) rs :
  spread (class_counts cd0) → length rs ≤ length cd0 →
  ∃ st, foldM select (cd0, []) rs = Ok st ∧ sel_inv cd0 (length rs) st.
Proof.
  intros Hsp Hlen.
  apply (foldM_progress_at (sel_inv cd0)); [|by apply sel_inv_init].
  intros k r s Hk%lookup_lt_Some Hs.
  destruct (select_progress cd0 k s r Hs) as [s' Hs']; [lia|].
  exists s'. split; [done | by eapply select_preserves].
Qed.
End GeneratorFacts.

(** ** Handing out the proportions *)

Lemma assigned_app {R} x (l1 l2 : list (nat * R)) :
  assigned x (l1 ++ l2) = assigned x l1 ++ assigned x l2.
Proof. unfold assigned. by rewrite filter_app, fmap_app. Qed.

Lemma assigned_cons {R} x c (p : R) l :
  assigned x ((c, p) :: l) = if decide (c = x) then p :: assigned x l else assigned x l.
Proof. unfold assigned. rewrite filter_cons. simpl. by case_decide. Qed.

Lemma assigned_length {R} x c (ps : list R) :
  length ps = length c → length (assigned x (zip c ps)) = occurrences x c.
Proof.
  revert ps. induction c as [|i c IH]; intros [|p ps] Hlen; simplify_eq/=; [done|].
  rewrite assigned_cons. unfold occurrences. rewrite filter_cons.
  specialize (IH ps Hlen). unfold occurrences in IH.
  repeat case_decide; simplify_eq/=; by rewrite IH.
Qed.

Lemma occurrences_indicator x (c : list nat) :
  NoDup c → occurrences x c = if decide (x ∈ c) then 1 else 0.
Proof.
  intros Hnd. case_decide; [by apply occurrences_NoDup | by apply occurrences_not_elem].
Qed.

Lemma schedule_snoc {R} (parts : class_partitions R) c ps :
  length (class parts) = length (probs parts) →
  schedule {| class := class parts ++ [c]; probs := probs parts ++ [ps] |}
  = schedule parts ++ zip c ps.
Proof.
  intros Hlen. unfold schedule. simpl.
  rewrite zip_with_app by done. rewrite concat_app. simpl. by rewrite app_nil_r.
Qed.

Section PopFacts.
Context {R : Type} `{Arith R}.

Lemma pop_prob_Ok (cd : list (class_entry R)) i cd' p :
  pop_prob cd i = Ok (cd', p) ↔
  ∃ e rest, cd !! i = Some e ∧ prob e = rest ++ [p] ∧
            cd' = <[i := {| count := count e; prob := rest |}]> cd.
Proof.
  unfold pop_prob. split.
  - intros Hrun. inv_bind Hrun. apply getitem_Ok in Hx.
    destruct (reverse (prob x)) as [|p' rest] eqn:Hrev; [done|].
    injection Hrun as <- <-. exists x, (reverse rest). split_and!; [done| |done].
    rewrite <- (reverse_involutive (prob x)), Hrev. by rewrite reverse_cons.
  - intros (e & rest & He & Hp & ->).
    apply (getitem_Ok _ _ KeyError) in He. rewrite He. simpl.
    by rewrite Hp, reverse_snoc, reverse_involutive.
Qed.

Lemma pop_probs_Ok (cd : list (class_entry R)) c cd' ps :
  pop_probs cd c = Ok (cd', ps) →
  length ps = length c ∧ length cd' = length cd ∧
  class_counts cd' = class_counts cd ∧
  ∀ x e, cd !! x = Some e →
    ∃ e', cd' !! x = Some e' ∧ count e' = count e ∧
          prob e = prob e' ++ reverse (assigned x (zip c ps)).
Proof.
  revert cd cd' ps. induction c as [|i c IH]; intros cd cd' ps Hrun; simpl in Hrun.
  - injection Hrun as <- <-. split_and!; try done.
    intros x e He. exists e. split_and!; try done. by rewrite app_nil_r.
  - apply bind_Ok in Hrun as ([cd1 p] & Hx & Hrun).
    apply bind_Ok in Hrun as ([cd2 ps'] & Hx0 & Hrun). injection Hrun as <- <-.
    apply pop_prob_Ok in Hx as (e & rest & He & Hp & ->).
    apply IH in Hx0 as (Hlen & Hcd & Hcc & Hent).
    rewrite length_insert in Hcd. split_and!; simpl; [by f_equal | done | |].
    + rewrite Hcc. unfold class_counts. rewrite list_fmap_insert. simpl.
      apply list_insert_id. by rewrite list_lookup_fmap, He.
    + intros x e0 He0. destruct (decide (i = x)) as [<-|Hne].
      * simplify_eq. destruct (Hent i {| count := count e; prob := rest |}) as (e' & He' & Hcnt & Hpr).
        { apply list_lookup_insert_eq. by eapply lookup_lt_Some. }
        exists e'. split_and!; [done..|].
        simpl in Hpr. rewrite assigned_cons, decide_True by done.
        rewrite Hp, Hpr, reverse_cons. by rewrite app_assoc.
      * destruct (Hent x e0) as (e' & He' & Hcnt & Hpr).
        { by rewrite list_lookup_insert_ne. }
        exists e'. split_and!; [done..|].
        by rewrite assigned_cons, decide_False.
Qed.

Lemma pop_probs_progress (cd : list (class_entry R)) c :
  NoDup c → (∀ x, x ∈ c → ∃ e, cd !! x = Some e ∧ prob e ≠ []) →
  ∃ st, pop_probs cd c = Ok st.
Proof.
  intros Hnd. revert cd. induction Hnd as [|i c Hi Hnd IH]; intros cd Hc; simpl; [eauto|].
  destruct (Hc i) as (e & He & Hp); [left|].
  destruct (prob e) as [|a l _] eqn:Hpe using rev_ind; [done|].
  assert (pop_prob cd i = Ok (<[i := {| count := count e; prob := l |}]> cd, a)) as ->.
  { apply pop_prob_Ok. eauto. }
  simpl. destruct (IH (<[i := {| count := count e; prob := l |}]> cd)) as [[cd2 ps] ->].
  - intros x Hx. rewrite list_lookup_insert_ne by (intros ->; done).
    apply Hc. by right.
  - simpl. eauto.
Qed.
End PopFacts.

(** ** The loop over the clients *)

Section ClientFacts.
Context {R : Type} `{Arith R}.

Lemma client_Ok m pick (cd : list (class_entry R)) parts i cd2 parts' :
  client m pick (cd, parts) i = Ok (cd2, parts') ↔
  ∃ cd1 c ps,
    foldM select (cd, []) (pick i <$> seq 0 m) = Ok (cd1, c) ∧
    pop_probs cd1 c = Ok (cd2, ps) ∧
    parts' = {| class := class parts ++ [c]; probs := probs parts ++ [ps] |}.
Proof.
  unfold client. split.
  - intros Hrun. apply bind_Ok in Hrun as ([cd1 c] & Hsel & Hrun).
    apply bind_Ok in Hrun as ([cd2' ps] & Hpop & Hrun). injection Hrun as <- <-.
    eauto 10.
  - intros (cd1 & c & ps & -> & Hpop & ->). simpl. by rewrite Hpop.
Qed.

Lemma client_preserves K q m pick i k
    (st st' : list (class_entry R) * class_partitions R) :
  client_inv K q m i st → client m pick st k = Ok st' → client_inv K q m (S i) st'.
Proof.
  destruct st as [cd parts], st' as [cd2 parts'].
  intros (Hlen & Hsp & Hsum & Hcl & Hpr & Hall & Hall2 & Hent)
    (cd1 & c & ps & Hsel & Hpop & ->)%client_Ok.
  cbn [fst snd] in *.
  apply select_loop_inv in Hsel
    as (Hclen & Hnd & Hlt & Hsp1 & _ & Hsum1 & Hlen1 & Hent1); [|done].
  apply pop_probs_Ok in Hpop as (Hpslen & Hlen2 & Hcc & Hent2).
  cbn [fst snd] in *. rewrite length_fmap, length_seq in Hclen, Hsum1.
  unfold client_inv. cbn [fst snd class probs]. rewrite Hcc. split_and!.
  - lia.
  - done.
  - rewrite Hsum1, Hsum. lia.
  - rewrite length_app. simpl. lia.
  - rewrite length_app. simpl. lia.
  - apply Forall_app. split; [done|]. apply Forall_singleton.
    split_and!; [done..|]. intros x Hx. rewrite <- Hlen. by apply Hlt.
  - apply Forall2_app; [done|]. by apply Forall2_cons.
  - intros x e2 He2.
    assert (x < length cd) as Hx.
    { apply lookup_lt_Some in He2. lia. }
    destruct (lookup_lt_is_Some_2 cd x Hx) as [e He].
    destruct (Hent x e He) as [Hpl Hocc].
    specialize (Hent1 x e He).
    destruct (Hent2 x _ Hent1) as (e2' & He2' & Hcnt & Hprob). simplify_eq.
    simpl in Hcnt, Hprob.
    apply (f_equal length) in Hprob.
    rewrite length_app, length_reverse, assigned_length in Hprob by done.
    rewrite concat_app, occurrences_app. simpl. rewrite app_nil_r.
    rewrite (occurrences_indicator x c) in Hprob |- * by done.
    rewrite Hcnt. destruct (decide (x ∈ c)); lia.
Qed.

Lemma client_progress K q m pick i k (st : list (class_entry R) * class_partitions R) :
  client_inv K q m i st → m ≤ K → S i * m ≤ K * q →
  ∃ st', client m pick st k = Ok st'.
Proof.
  destruct st as [cd parts].
  intros (Hlen & Hsp & Hsum & Hcl & Hpr & Hall & Hall2 & Hent) Hm Hbudget.
  cbn [fst snd] in *.
  destruct (select_loop_progress cd (pick k <$> seq 0 m)) as ([cd1 c] & Hsel & Hinv);
    [done | rewrite length_fmap, length_seq; lia |].
  destruct Hinv as (Hclen & Hnd & Hlt & Hsp1 & _ & Hsum1 & Hlen1 & Hent1).
  cbn [fst snd] in *. rewrite length_fmap, length_seq in Hclen, Hsum1.
  destruct (pop_probs_progress cd1 c Hnd) as [[cd2 ps] Hpop].
  - intros x Hx. destruct (lookup_lt_is_Some_2 cd x (Hlt x Hx)) as [e He].
    destruct (Hent x e He) as [Hpl _]. specialize (Hent1 x e He).
    rewrite decide_True in Hent1 by done.
    eexists. split; [exact Hent1|]. simpl.
    assert (0 ≤ count e - 1)%Z as Hnn.
    { apply (spread_nonneg (class_counts cd1)); [done| |].
      - rewrite Hsum1, Hsum. nia.
      - apply list_elem_of_lookup. exists x. apply class_counts_lookup. eauto. }
    intros Hnil. rewrite Hnil in Hpl. simpl in Hpl. lia.
  - eexists. apply client_Ok. eauto 10.
Qed.

Lemma class_counts_init K q (uniform : nat → nat → R) :
  class_counts (init_class_dict K q uniform) = replicate K (Z.of_nat q).
Proof.
  unfold class_counts, init_class_dict. rewrite <- list_fmap_compose.
  apply list_eq. intros i. rewrite list_lookup_fmap.
  destruct (decide (i < K)) as [Hi|Hi].
  - by rewrite lookup_seq_lt, lookup_replicate_2 by done.
  - by rewrite lookup_seq_ge, (proj1 (lookup_replicate_None _ _ _)) by lia.
Qed.

Lemma init_class_dict_lookup K q (uniform : nat → nat → R) x e :
  init_class_dict K q uniform !! x = Some e ↔
  x < K ∧ e = {| count := Z.of_nat q; prob := probs_norm (uniform x <$> seq 0 q) |}.
Proof.
  unfold init_class_dict. rewrite list_lookup_fmap.
  destruct (decide (x < K)) as [Hx|Hx].
  - rewrite lookup_seq_lt by done. simpl. split; [by intros [= <-] | by intros [_ ->]].
  - rewrite lookup_seq_ge by lia. simpl. split; [done | by intros [? _]].
Qed.

Lemma probs_norm_length (draws : list R) : length (probs_norm draws) = length draws.
Proof. unfold probs_norm. by rewrite length_fmap. Qed.

Lemma client_inv_init K q m (uniform : nat → nat → R) :
  client_inv K q m 0 (init_class_dict K q uniform, {| class := []; probs := [] |}).
Proof.
  unfold client_inv. cbn [fst snd class probs]. rewrite class_counts_init. split_and!.
  - unfold init_class_dict. by rewrite length_fmap, length_seq.
  - intros a b [-> _]%elem_of_replicate [-> _]%elem_of_replicate. lia.
  - rewrite sumZ_replicate. lia.
  - done.
  - done.
  - constructor.
  - constructor.
  - intros x e [_ ->]%init_class_dict_lookup. simpl.
    rewrite probs_norm_length, length_fmap, length_seq. split; [done|].
    change (occurrences x []) with 0. lia.
Qed.

Lemma clients_inv K q m pick (uniform : nat → nat → R) n st :
  clients m pick (init_class_dict K q uniform) (seq 0 n) = Ok st → client_inv K q m n st.
Proof.
  unfold clients. intros Hrun.
  apply (foldM_invariant_at (client_inv K q m)) in Hrun;
    [by rewrite length_seq in Hrun | | apply client_inv_init].
  intros k x s s' _. apply client_preserves.
Qed.

Lemma clients_progress K q m pick (uniform : nat → nat → R) n :
  m ≤ K → n * m ≤ K * q →
  ∃ st, clients m pick (init_class_dict K q uniform) (seq 0 n) = Ok st ∧
        client_inv K q m n st.
Proof.
  intros Hm Hn. unfold clients.
  destruct (foldM_progress_at (client_inv K q m) (client m pick) (seq 0 n)
              (init_class_dict K q uniform, {| class := []; probs := [] |}))
    as (st & Hrun & Hinv); [|apply client_inv_init|].
  - intros k x s Hk%lookup_lt_Some Hs. rewrite length_seq in Hk.
    destruct (client_progress K q m pick k x s Hs) as [s' Hs']; [done | nia |].
    exists s'. split; [done | by eapply client_preserves].
  - rewrite length_seq in Hinv. eauto.
Qed.

(** The first client cannot be served when it must choose more classes than
    there are. *)
Lemma client_too_many_classes K q m pick (uniform : nat → nat → R) parts k :
  K < m → client m pick (init_class_dict K q uniform, parts) k = Raise ValueError.
Proof.
  intros Hm. unfold client.
  destruct (foldM select (init_class_dict K q uniform, []) (pick k <$> seq 0 m))
    as [[cd1 c]|e] eqn:Hsel; simpl.
  - exfalso. apply select_loop_inv in Hsel as (Hclen & Hnd & Hlt & _).
    + cbn [fst snd] in *. rewrite length_fmap, length_seq in Hclen.
      pose proof (bounded_NoDup_length c _ Hnd Hlt) as Hle.
      unfold init_class_dict in Hle. rewrite length_fmap, length_seq in Hle. lia.
    + rewrite class_counts_init.
      intros a b [-> _]%elem_of_replicate [-> _]%elem_of_replicate. lia.
  - by apply select_loop_raise in Hsel as ->.
Qed.

(** What the function does once the labels are known. *)
Lemma gen_classes_per_node_run_unfold d N m (uniform : nat → nat → R) pick K ns labels :
  get_num_classes_samples d = Ok (K, ns, labels) →
  gen_classes_per_node_run d N m uniform pick =
    if decide (K = 0) then Raise ZeroDivisionError
    else if decide ((m * N) mod K = 0) then
      clients m pick (init_class_dict K ((m * N) / K) uniform) (seq 0 N)
    else Raise AssertionError.
Proof. unfold gen_classes_per_node_run. by intros ->. Qed.

Lemma exact_budget K N m : K ≠ 0 → (m * N) mod K = 0 → N * m = K * ((m * N) / K).
Proof.
  intros HK Hmod. rewrite (Nat.mul_comm N m). by apply Nat.Div0.div_exact.
Qed.
End ClientFacts.

(** ** The class-partition generator: what the claims say *)

(** C2: under the divisibility precondition, whenever the generator returns,
    every class occurs in exactly [count_per_class] (client, slot) pairs of
    the plan and its remaining budget is 0; and the generator does return
    when there is a class and no client is to receive more classes than
    there are. *)
Theorem gen_classes_per_node_budget_exhausted {R} `{Arith R}
    (d : dataset) (num_users classes_per_user : nat)
    (uniform : nat → nat → R) (pick : nat → nat → nat)
    (num_classes : nat) (num_samples labels : list nat) :
  get_num_classes_samples d = Ok (num_classes, num_samples, labels) →
  (classes_per_user * num_users) mod num_classes = 0 →
  (0 < num_classes → classes_per_user ≤ num_classes →
     ∃ class_dict plan,
       gen_classes_per_node_run d num_users classes_per_user uniform pick
         = Ok (class_dict, plan)) ∧
  ∀ class_dict plan,
    gen_classes_per_node_run d num_users classes_per_user uniform pick
      = Ok (class_dict, plan) →
    gen_classes_per_node d num_users classes_per_user uniform pick = Ok plan ∧
    length class_dict = num_classes ∧
    ∀ c, c < num_classes →
      occurrences c (concat (class plan)) = (classes_per_user * num_users) / num_classes ∧
      count <$> class_dict !! c = Some 0%Z.
Proof.
  intros Hd Hmod. split.
  { intros HK Hle. rewrite (gen_classes_per_node_run_unfold _ _ _ _ _ _ _ _ Hd).
    rewrite decide_False, decide_True by (done || lia).
    destruct (clients_progress num_classes ((classes_per_user * num_users) / num_classes)
                classes_per_user pick uniform num_users) as ([cd plan] & Hst & _);
      [done| |eauto].
    assert (num_classes ≠ 0) as HK' by lia.
    pose proof (exact_budget _ _ _ HK' Hmod). lia. }
  intros class_dict plan Hrun. split.
  { unfold gen_classes_per_node. by rewrite Hrun. }
  rewrite (gen_classes_per_node_run_unfold _ _ _ _ _ _ _ _ Hd) in Hrun.
  destruct (decide (num_classes = 0)) as [|HK]; [done|].
  rewrite decide_True in Hrun by done.
  apply clients_inv in Hrun as (Hlen & Hsp & Hsum & _ & _ & _ & _ & Hent).
  cbn [fst snd] in *. split; [done|]. intros c Hc.
  destruct (lookup_lt_is_Some_2 class_dict c) as [e He]; [lia|].
  destruct (Hent c e He) as [_ Hocc].
  assert (count e = 0%Z) as Hzero.
  { apply (spread_zero (class_counts class_dict)); [done| |].
    - rewrite Hsum. pose proof (exact_budget _ _ _ HK Hmod). nia.
    - apply list_elem_of_lookup. exists c. apply class_counts_lookup. eauto. }
  rewrite He. simpl. split; [lia | by rewrite Hzero].
Qed.

Lemma gen_classes_per_node_budget_exhausted_witness :
  (0 < 3 → 2 ≤ 3 →
     ∃ class_dict plan,
       gen_classes_per_node_run (Targets [0; 1; 2; 1]) 3 2 half_draws diagonal_pick
         = Ok (class_dict, plan)) ∧
  ∀ class_dict plan,
    gen_classes_per_node_run (Targets [0; 1; 2; 1]) 3 2 half_draws diagonal_pick
      = Ok (class_dict, plan) →
    gen_classes_per_node (Targets [0; 1; 2; 1]) 3 2 half_draws diagonal_pick = Ok plan ∧
    length class_dict = 3 ∧
    ∀ c, c < 3 →
      occurrences c (concat (class plan)) = (2 * 3) / 3 ∧
      count <$> class_dict !! c = Some 0%Z.
Proof.
  apply (gen_classes_per_node_budget_exhausted (R:=Q) (Targets [0; 1; 2; 1]) 3 2
           half_draws diagonal_pick 3 [1; 2; 1] [0; 1; 2; 1]);
    vm_compute; reflexivity.
Defined.

(** C4: when the generator returns, the plan has one entry per client; the
    class list of every client holds [classes_per_user] pairwise distinct
    class ids, and the proportion list has the same length. *)
Theorem gen_classes_per_node_plan_shape {R} `{Arith R}
    (d : dataset) (num_users classes_per_user : nat)
    (uniform : nat → nat → R) (pick : nat → nat → nat) (plan : class_partitions R) :
  gen_classes_per_node d num_users classes_per_user uniform pick = Ok plan →
  length (class plan) = num_users ∧ length (probs plan) = num_users ∧
  ∀ i cs, class plan !! i = Some cs →
    length cs = classes_per_user ∧ NoDup cs ∧
    ∃ ps, probs plan !! i = Some ps ∧ length ps = classes_per_user.
Proof.
  unfold gen_classes_per_node. intros ([cd plan'] & Hrun & ->)%fmap_Ok.
  unfold gen_classes_per_node_run in Hrun.
  apply bind_Ok in Hrun as ([[K ns] labels] & _ & Hrun).
  destruct (decide (K = 0)); [done|]. case_decide; [|done].
  apply clients_inv in Hrun as (_ & _ & _ & Hcl & Hpr & Hall & Hall2 & _).
  cbn [fst snd] in *. split_and!; [done..|]. intros i cs Hcs.
  destruct (Forall2_lookup_l _ _ _ _ _ Hall2 Hcs) as (ps & Hps & Hlen).
  rewrite Forall_forall in Hall.
  destruct (Hall cs) as (Hm & Hnd & _); [by eapply list_elem_of_lookup_2|].
  split_and!; [done..|]. exists ps. split; [done | lia].
Qed.

Lemma gen_classes_per_node_plan_shape_witness :
  ∃ plan,
    gen_classes_per_node (Targets [0; 1; 2; 1]) 3 2 half_draws diagonal_pick = Ok plan ∧
    length (class plan) = 3 ∧ length (probs plan) = 3 ∧
    ∀ i cs, class plan !! i = Some cs →
      length cs = 2 ∧ NoDup cs ∧ ∃ ps, probs plan !! i = Some ps ∧ length ps = 2.
Proof.
  eexists. split; [vm_compute; reflexivity|].
  apply (gen_classes_per_node_plan_shape (R:=Q) (Targets [0; 1; 2; 1]) 3 2
           half_draws diagonal_pick).
  vm_compute. reflexivity.
Defined.

(** C6, as the code has it: the generator raises exactly when there is no
    class, or the divisibility test fails, or a client has to choose more
    classes than there are.  A failed divisibility test is an
    [AssertionError]; with at least one class, the test passed and
    [classes_per_user <= num_classes], the generator returns a plan. *)
Theorem gen_classes_per_node_raises_iff {R} `{Arith R}
    (d : dataset) (num_users classes_per_user : nat)
    (uniform : nat → nat → R) (pick : nat → nat → nat)
    (num_classes : nat) (num_samples labels : list nat) :
  get_num_classes_samples d = Ok (num_classes, num_samples, labels) →
  (raises (gen_classes_per_node d num_users classes_per_user uniform pick) ↔
     num_classes = 0 ∨ (classes_per_user * num_users) mod num_classes ≠ 0 ∨
     (0 < num_users ∧ num_classes < classes_per_user)) ∧
  (num_classes ≠ 0 → (classes_per_user * num_users) mod num_classes ≠ 0 →
     gen_classes_per_node d num_users classes_per_user uniform pick
       = Raise AssertionError) ∧
  (num_classes ≠ 0 → (classes_per_user * num_users) mod num_classes = 0 →
     classes_per_user ≤ num_classes →
     ∃ plan, gen_classes_per_node d num_users classes_per_user uniform pick = Ok plan).
Proof.
  intros Hd. unfold gen_classes_per_node.
  rewrite (gen_classes_per_node_run_unfold _ _ _ _ _ _ _ _ Hd).
  set (q := (classes_per_user * num_users) / num_classes).
  assert (num_classes ≠ 0 → (classes_per_user * num_users) mod num_classes = 0 →
          (num_users = 0 ∨ classes_per_user ≤ num_classes) →
          ∃ st, clients classes_per_user pick (init_class_dict num_classes q uniform)
                  (seq 0 num_users) = Ok st) as Hgood.
  { intros HK Hmod [->|Hle]; [simpl; eauto|].
    destruct (clients_progress num_classes q classes_per_user pick uniform num_users)
      as (st & Hst & _); [done| |eauto].
    pose proof (exact_budget _ _ _ HK Hmod). subst q. lia. }
  split_and!.
  - split.
    + intros [e He].
      destruct (decide (num_classes = 0)) as [|HK]; [by left|].
      destruct (decide ((classes_per_user * num_users) mod num_classes = 0))
        as [Hmod|]; [|by auto].
      right; right.
      destruct (decide (num_users = 0 ∨ classes_per_user ≤ num_classes)) as [Hok|Hbad];
        [|lia].
      destruct (Hgood HK Hmod Hok) as [st Hst]. by rewrite Hst in He.
    + intros [->|[Hmod|[HN Hm]]].
      * by exists ZeroDivisionError.
      * destruct (decide (num_classes = 0)); [by exists ZeroDivisionError|].
        rewrite decide_False by done. by exists AssertionError.
      * destruct (decide (num_classes = 0)); [by exists ZeroDivisionError|].
        case_decide; [|by exists AssertionError].
        exists ValueError. destruct num_users as [|N']; [lia|].
        unfold clients. rewrite <- cons_seq.
        erewrite foldM_raise_first; [done|]. by apply client_too_many_classes.
  - intros HK Hmod. by rewrite decide_False, decide_False.
  - intros HK Hmod Hle. rewrite decide_False, decide_True by done.
    destruct (Hgood HK Hmod) as [[cd plan] ->]; [by right|]. by exists plan.
Qed.

Lemma gen_classes_per_node_raises_iff_witness :
  (raises (gen_classes_per_node (Targets [0; 1; 2; 1]) 3 2 half_draws diagonal_pick) ↔
     3 = 0 ∨ (2 * 3) mod 3 ≠ 0 ∨ (0 < 3 ∧ 3 < 2)) ∧
  (3 ≠ 0 → (2 * 3) mod 3 ≠ 0 →
     gen_classes_per_node (Targets [0; 1; 2; 1]) 3 2 half_draws diagonal_pick
       = Raise AssertionError) ∧
  (3 ≠ 0 → (2 * 3) mod 3 = 0 → 2 ≤ 3 →
     ∃ plan, gen_classes_per_node (Targets [0; 1; 2; 1]) 3 2 half_draws diagonal_pick
               = Ok plan).
Proof.
  apply (gen_classes_per_node_raises_iff (R:=Q) (Targets [0; 1; 2; 1]) 3 2
           half_draws diagonal_pick 3 [1; 2; 1] [0; 1; 2; 1]).
  vm_compute. reflexivity.
Defined.

(** C6 as claimed fails: two classes, one client that is to receive four
    classes.  The divisibility test passes ([4 * 1] is a multiple of 2) and
    the third selection finds no candidate. *)
Lemma gen_classes_per_node_divisible_but_raises :
  get_num_classes_samples (Targets [0; 1]) = Ok (2, [1; 1], [0; 1]) ∧
  (4 * 1) mod 2 = 0 ∧
  gen_classes_per_node (Targets [0; 1]) 1 4 half_draws diagonal_pick = Raise ValueError.
Proof. vm_compute. repeat split; reflexivity. Qed.

Lemma client_split {R} `{Arith R} m pick (cd : list (class_entry R)) parts i j :
  j ≤ m →
  client m pick (cd, parts) i =
    ('(cd1, c) ← foldM select (cd, []) (pick i <$> seq 0 j);
     '(cd2, c1) ← foldM select (cd1, c) (pick i <$> seq j (m - j));
     '(cd3, ps) ← pop_probs cd2 c1;
     Ok (cd3, {| class := class parts ++ [c1]; probs := probs parts ++ [ps] |})).
Proof.
  intros Hj. unfold client.
  replace (seq 0 m) with (seq 0 j ++ seq j (m - j)).
  2:{ rewrite <- seq_app. f_equal. lia. }
  rewrite fmap_app, foldM_app.
  by destruct (foldM select _ (pick i <$> seq 0 j)) as [[cd1 c]|e].
Qed.

(** The run passes through every selection state. *)
Lemma gen_classes_per_node_run_resumes {R} `{Arith R} d N m (uniform : nat → nat → R)
    pick K ns labels i j :
  get_num_classes_samples d = Ok (K, ns, labels) →
  K ≠ 0 → (m * N) mod K = 0 → i < N → j ≤ m →
  gen_classes_per_node_run d N m uniform pick
  = (selection_state d N m uniform pick i j ≫= resume N m pick i j).
Proof.
  intros Hd HK Hmod Hi Hj.
  rewrite (gen_classes_per_node_run_unfold _ _ _ _ _ _ _ _ Hd).
  rewrite decide_False, decide_True by done.
  unfold selection_state, clients. rewrite Hd, bind_Ok_l.
  replace (seq 0 N) with (seq 0 i ++ i :: seq (S i) (N - S i)).
  2:{ rewrite cons_seq, <- seq_app. f_equal. lia. }
  rewrite foldM_app.
  destruct (foldM _ _ (seq 0 i)) as [[cd parts]|e]; [|done].
  rewrite !bind_Ok_l, foldM_cons, (client_split _ _ _ _ _ j) by done.
  destruct (foldM select _ (pick i <$> seq 0 j)) as [[cd1 c]|e]; [|done].
  rewrite !bind_Ok_l. unfold resume.
  destruct (foldM select _ _) as [[cd2 c1]|e]; [|done].
  rewrite !bind_Ok_l. by destruct (pop_probs cd2 c1) as [[cd3 ps]|e].
Qed.

(** C9: under the divisibility precondition and with
    [classes_per_user <= num_classes], every selection of every client is
    reached by the run, and the candidate list it draws from is not empty. *)
Theorem selection_candidates_nonempty {R} `{Arith R}
    (d : dataset) (num_users classes_per_user : nat)
    (uniform : nat → nat → R) (pick : nat → nat → nat)
    (num_classes : nat) (num_samples labels : list nat) (i j : nat) :
  get_num_classes_samples d = Ok (num_classes, num_samples, labels) →
  (classes_per_user * num_users) mod num_classes = 0 →
  classes_per_user ≤ num_classes →
  i < num_users → j < classes_per_user →
  ∃ class_dict parts c mx,
    selection_state d num_users classes_per_user uniform pick i j
      = Ok (class_dict, parts, c) ∧
    gen_classes_per_node_run d num_users classes_per_user uniform pick
      = resume num_users classes_per_user pick i j (class_dict, parts, c) ∧
    py_max (class_counts class_dict) = Ok mx ∧
    max_class_counts class_dict mx c ≠ [].
Proof.
  intros Hd Hmod Hle Hi Hj.
  assert (num_classes ≠ 0) as HK by lia.
  rewrite (gen_classes_per_node_run_resumes _ _ _ _ _ _ _ _ i j Hd HK Hmod Hi)
    by lia.
  unfold selection_state. rewrite Hd, bind_Ok_l.
  set (q := (classes_per_user * num_users) / num_classes).
  destruct (clients_progress num_classes q classes_per_user pick uniform i)
    as ([cd parts] & -> & Hinv); [done| |].
  { pose proof (exact_budget _ _ _ HK Hmod). subst q. nia. }
  destruct Hinv as (Hlen & Hsp & _). cbn [fst snd] in *. rewrite bind_Ok_l.
  destruct (select_loop_progress cd (pick i <$> seq 0 j))
    as ([cd1 c] & -> & Hsel); [done | rewrite length_fmap, length_seq; lia |].
  destruct Hsel as (Hclen & _ & _ & _ & Hbehind & _ & Hlen1 & _).
  cbn [fst snd] in *. rewrite length_fmap, length_seq in Hclen.
  destruct (py_max_nonempty (class_counts cd1)) as [mx Hmx].
  { intros Hnil. apply (f_equal length) in Hnil.
    rewrite class_counts_length in Hnil. simpl in Hnil. lia. }
  exists cd1, parts, c, mx. rewrite !bind_Ok_l. split_and!; [done..|].
  apply candidates_nonempty; [done | lia | done].
Qed.

Lemma selection_candidates_nonempty_witness :
  ∃ class_dict parts c mx,
    selection_state (Targets [0; 1; 2; 1]) 3 2 half_draws diagonal_pick 2 1
      = Ok (class_dict, parts, c) ∧
    gen_classes_per_node_run (Targets [0; 1; 2; 1]) 3 2 half_draws diagonal_pick
      = resume 3 2 diagonal_pick 2 1 (class_dict, parts, c) ∧
    py_max (class_counts class_dict) = Ok mx ∧
    max_class_counts class_dict mx c ≠ [].
Proof.
  apply (selection_candidates_nonempty (R:=Q) (Targets [0; 1; 2; 1]) 3 2
           half_draws diagonal_pick 3 [1; 2; 1] [0; 1; 2; 1] 2 1).
  - vm_compute. reflexivity.
  - vm_compute. reflexivity.
  - lia.
  - lia.
  - lia.
Defined.

(** ** Sums of rationals, and proportions that do not sum to 1 *)

Lemma Qsum_app l1 l2 : (Qsum (l1 ++ l2) == Qsum l1 + Qsum l2)%Q.
Proof.
  induction l1 as [|a l1 IH]; simpl; [ring | rewrite IH; ring].
Qed.

Lemma Qsum_reverse l : (Qsum (reverse l) == Qsum l)%Q.
Proof.
  induction l as [|a l IH]; [reflexivity|].
  rewrite reverse_cons, Qsum_app, IH. simpl. ring.
Qed.

Lemma Qsum_nonneg l : (∀ x, x ∈ l → (0 <= x)%Q) → (0 <= Qsum l)%Q.
Proof.
  induction l as [|a l IH]; intros Hl; simpl; [lra|].
  assert (0 <= a)%Q by (apply Hl; left).
  assert (0 <= Qsum l)%Q by (apply IH; intros; apply Hl; by right). lra.
Qed.

(** C7 as claimed fails in the arithmetic of the code: for these two draws
    the two normalised doubles add up to [1 + 2^-52] when added as doubles,
    and their exact sum is not 1 either. *)
Lemma init_class_dict_proportions_rounded :
  ∃ p0 p1 q0 q1,
    PrimFloat.leb low_prob_default (two_draws 0 0) = true ∧
    PrimFloat.leb (two_draws 0 0) high_prob_default = true ∧
    PrimFloat.leb low_prob_default (two_draws 0 1) = true ∧
    PrimFloat.leb (two_draws 0 1) high_prob_default = true ∧
    init_class_dict 1 2 two_draws !! 0 = Some {| count := 2; prob := [p0; p1] |} ∧
    PrimFloat.eqb (r_sum [p0; p1]) 1 = false ∧
    float_Q p0 = Some q0 ∧ float_Q p1 = Some q1 ∧
    ¬ (q0 + q1 == 1)%Q.
Proof.
  eexists _, _, _, _. split_and!; try (vm_compute; reflexivity).
  vm_compute. discriminate.
Qed.

(** ** Where the proportions of a class end up *)

Section ProportionFacts.
Context {R : Type} `{Arith R}.

Lemma client_preserves_probs cd0 K q m pick i k
    (st st' : list (class_entry R) * class_partitions R) :
  client_inv K q m i st → prob_inv cd0 st →
  client m pick st k = Ok st' → prob_inv cd0 st'.
Proof.
  destruct st as [cd parts], st' as [cd2 parts'].
  intros (Hlen & Hsp & _ & Hcl & Hpr & _ & _ & _) Hinv
    (cd1 & c & ps & Hsel & Hpop & ->)%client_Ok.
  cbn [fst snd] in *.
  apply select_loop_inv in Hsel as (_ & _ & _ & _ & _ & _ & Hlen1 & Hent1); [|done].
  apply pop_probs_Ok in Hpop as (_ & Hlen2 & _ & Hent2).
  cbn [fst snd] in *. intros x e2 He2. cbn [fst snd] in *.
  assert (x < length cd) as Hx by (apply lookup_lt_Some in He2; lia).
  destruct (lookup_lt_is_Some_2 cd x Hx) as [e He].
  destruct (Hinv x e He) as (e0 & He0 & Hprob). cbn [fst snd] in *.
  destruct (Hent2 x _ (Hent1 x e He)) as (e2' & He2' & _ & Hprob2).
  simplify_eq. simpl in Hprob2. exists e0. split; [done|].
  rewrite schedule_snoc by lia.
  by rewrite assigned_app, reverse_app, app_assoc, <- Hprob2.
Qed.

Lemma clients_prob_inv K q m pick (uniform : nat → nat → R) n st :
  clients m pick (init_class_dict K q uniform) (seq 0 n) = Ok st →
  client_inv K q m n st ∧ prob_inv (init_class_dict K q uniform) st.
Proof.
  unfold clients. intros Hrun.
  apply (foldM_invariant_at
           (λ k st, client_inv K q m k st ∧ prob_inv (init_class_dict K q uniform) st))
    in Hrun; [by rewrite length_seq in Hrun | |].
  - intros k x s s' _ [Hc Hp] Hstep. split.
    + by eapply client_preserves.
    + by eapply client_preserves_probs.
  - split; [apply client_inv_init|].
    intros x e He. exists e. split; [done|]. by rewrite app_nil_r.
Qed.

Lemma elem_of_assigned x (p : R) pairs : (x, p) ∈ pairs → p ∈ assigned x pairs.
Proof.
  intros Hin. unfold assigned. apply list_elem_of_fmap. exists (x, p).
  split; [done|]. by apply list_elem_of_filter.
Qed.

Lemma elem_of_schedule (parts : class_partitions R) c p :
  (c, p) ∈ schedule parts → ∃ cs, cs ∈ class parts ∧ c ∈ cs.
Proof.
  unfold schedule. intros (l & Hl & Hin)%elem_of_concat.
  apply elem_of_zip_with in Hin as (cs & ps & -> & Hcs & _).
  exists cs. split; [done|]. by eapply elem_of_zip_l.
Qed.

(** What a plan returned by the generator looks like. *)
Lemma gen_classes_per_node_plan d N m (uniform : nat → nat → R) pick K ns labels plan :
  get_num_classes_samples d = Ok (K, ns, labels) →
  gen_classes_per_node d N m uniform pick = Ok plan →
  length (class plan) = N ∧ length (probs plan) = N ∧
  (∀ c p, (c, p) ∈ schedule plan → c < K) ∧
  ∀ x, x < K →
    ∃ rest, probs_norm (uniform x <$> seq 0 ((m * N) / K))
            = rest ++ reverse (assigned x (schedule plan)).
Proof.
  intros Hd. unfold gen_classes_per_node. intros ([cd plan'] & Hrun & ->)%fmap_Ok.
  rewrite (gen_classes_per_node_run_unfold _ _ _ _ _ _ _ _ Hd) in Hrun.
  destruct (decide (K = 0)); [done|]. case_decide; [|done].
  apply clients_prob_inv in Hrun
    as [(Hlen & _ & _ & Hcl & Hpr & Hall & _ & _) Hprob].
  cbn [fst snd] in *. split_and!; [done..| |].
  - intros c p (cs & Hcs & Hc)%elem_of_schedule.
    rewrite Forall_forall in Hall. destruct (Hall cs Hcs) as (_ & _ & Hlt). auto.
  - intros x Hx. destruct (lookup_lt_is_Some_2 cd x) as [e He]; [lia|].
    destruct (Hprob x e He) as (e0 & [_ ->]%init_class_dict_lookup & Hp).
    simpl in Hp. eauto.
Qed.
End ProportionFacts.

(** ** The index splitter serves every request that fits *)

Lemma requested_cons_same {R} `{Arith R} n x (p : R) pairs :
  requested n x ((x, p) :: pairs) = end_idx n p + requested n x pairs.
Proof. unfold requested. by rewrite assigned_cons, decide_True. Qed.

Lemma requested_cons_other {R} `{Arith R} n x c (p : R) pairs :
  c ≠ x → requested n x ((c, p) :: pairs) = requested n x pairs.
Proof. intros. unfold requested. by rewrite assigned_cons, decide_False. Qed.

Lemma requested_app {R} `{Arith R} n x (l1 l2 : list (nat * R)) :
  requested n x (l1 ++ l2) = requested n x l1 + requested n x l2.
Proof. unfold requested. by rewrite assigned_app, sum_list_with_app. Qed.

Lemma slice_pos_of_nat len k : slice_pos len (Z.of_nat k) = k.
Proof. rewrite slice_pos_nonneg by lia. apply Nat2Z.id. Qed.

(** The inner loop for one client, when [int] returns a non-negative
    [end_idx] for every pair and the pools hold what is requested. *)
Lemma assign_loop_served {R} `{Arith R} (ns : list nat) u (pairs : list (nat * R)) :
  ∀ pools users,
  u < length users → length ns = length pools →
  (∀ c p, (c, p) ∈ pairs →
     c < length ns ∧
     ∀ n, ns !! c = Some n → r_int (r_mul (r_of_count n) p) = Ok (Z.of_nat (end_idx n p))) →
  (∀ x n pool, ns !! x = Some n → pools !! x = Some pool →
     requested n x pairs ≤ length pool) →
  ∃ pools' users',
    foldM (assign ns u) (pools, users) pairs = Ok (pools', users') ∧
    length pools' = length pools ∧ length users' = length users ∧
    (∀ x n pool, ns !! x = Some n → pools !! x = Some pool →
       pools' !! x = Some (drop (requested n x pairs) pool)) ∧
    (∀ v, v ≠ u → users' !! v = users !! v) ∧
    (∀ l, users !! u = Some l →
       ∃ l', users' !! u = Some l' ∧ length l' = length l + client_total ns pairs).
Proof.
  induction pairs as [|[c p] pairs IH]; intros pools users Hu Hlen Hpairs Hfit.
  - exists pools, users. split_and!; [done..| |done|].
    + intros x n pool _ Hpool. by rewrite Hpool.
    + intros l Hl. exists l. split; [done | unfold client_total; simpl; lia].
  - destruct (Hpairs c p) as [Hc Hint]; [left|].
    destruct (lookup_lt_is_Some_2 ns c Hc) as [n Hn].
    destruct (lookup_lt_is_Some_2 pools c) as [pool Hpool]; [lia|].
    pose proof (Hfit c n pool Hn Hpool) as Hreq. rewrite requested_cons_same in Hreq.
    set (k := end_idx n p) in *.
    assert (assign ns u (pools, users) (c, p)
            = Ok (<[c := drop k pool]> pools, alter (λ l, l ++ take k pool) u users))
      as Hstep.
    { apply assign_Ok. exists n, (Z.of_nat k), pool. split_and!; try done.
      - by apply Hint.
      - unfold slice_from. by rewrite slice_pos_of_nat.
      - unfold slice_to. by rewrite slice_pos_of_nat. }
    destruct (IH (<[c := drop k pool]> pools) (alter (λ l, l ++ take k pool) u users))
      as (pools' & users' & Hrun & Hlp & Hlu & Hpools & Hother & Hmine).
    + by rewrite length_alter.
    + by rewrite length_insert.
    + intros c' p' Hin. apply Hpairs. by right.
    + intros x n' pool' Hn' Hpool'. destruct (decide (c = x)) as [<-|Hne].
      * rewrite list_lookup_insert_eq in Hpool' by by eapply lookup_lt_Some.
        simplify_eq. rewrite length_drop. lia.
      * rewrite list_lookup_insert_ne in Hpool' by done.
        specialize (Hfit x n' pool' Hn' Hpool').
        by rewrite requested_cons_other in Hfit.
    + exists pools', users'. rewrite length_insert in Hlp. rewrite length_alter in Hlu.
      split_and!; try done.
      * by rewrite foldM_cons, Hstep, bind_Ok_l.
      * intros x n' pool' Hn' Hpool'. destruct (decide (c = x)) as [<-|Hne].
        -- simplify_eq. rewrite requested_cons_same, <- drop_drop.
           apply (Hpools c n); [done|].
           apply list_lookup_insert_eq. by eapply lookup_lt_Some.
        -- rewrite requested_cons_other by done.
           apply (Hpools x n'); [done|]. by rewrite list_lookup_insert_ne.
      * intros v Hv. rewrite (Hother v Hv). by rewrite list_lookup_alter_ne.
      * intros l Hl. destruct (Hmine (l ++ take k pool)) as (l' & Hl' & Hlen').
        { by rewrite list_lookup_alter_eq, Hl. }
        exists l'. split; [done|]. rewrite Hlen', length_app, length_take_le by lia.
        unfold client_total. simpl. rewrite (list_lookup_total_correct ns c n Hn).
        fold k. lia.
Qed.

Lemma schedule_suffix {R} (plan : class_partitions R) a cs ps :
  class plan !! a = Some cs → probs plan !! a = Some ps →
  schedule (suffix plan a) = zip cs ps ++ schedule (suffix plan (S a)).
Proof.
  intros Hcs Hps. unfold schedule, suffix. simpl.
  by rewrite (drop_S _ _ _ Hcs), (drop_S _ _ _ Hps).
Qed.

Lemma schedule_suffix_end {R} (plan : class_partitions R) a :
  length (class plan) ≤ a → schedule (suffix plan a) = [].
Proof. intros Ha. unfold schedule, suffix. simpl. by rewrite drop_ge. Qed.

Lemma elem_of_schedule_lookup {R} (plan : class_partitions R) a cs ps cp :
  class plan !! a = Some cs → probs plan !! a = Some ps →
  cp ∈ zip cs ps → cp ∈ schedule plan.
Proof.
  intros Hcs Hps Hcp. unfold schedule. apply elem_of_concat.
  exists (zip cs ps). split; [done|].
  apply list_elem_of_lookup. exists a. apply lookup_zip_with_Some. eauto.
Qed.

(** The outer loop from client [a] on, when the pools hold what the
    remaining clients request. *)
Lemma assign_users_served {R} `{Arith R} (ns : list nat) (plan : class_partitions R) N :
  length (class plan) = N → length (probs plan) = N →
  (∀ c p, (c, p) ∈ schedule plan →
     c < length ns ∧
     ∀ n, ns !! c = Some n → r_int (r_mul (r_of_count n) p) = Ok (Z.of_nat (end_idx n p))) →
  ∀ n a pools users,
    a + n = N → length users = N → length ns = length pools →
    (∀ x k pool, ns !! x = Some k → pools !! x = Some pool →
       requested k x (schedule (suffix plan a)) ≤ length pool) →
    ∃ pools' users',
      foldM (assign_user ns plan) (pools, users) (seq a n) = Ok (pools', users') ∧
      length pools' = length pools ∧ length users' = N ∧
      (∀ x k pool, ns !! x = Some k → pools !! x = Some pool →
         pools' !! x = Some (drop (requested k x (schedule (suffix plan a))) pool)) ∧
      (∀ v, v < a → users' !! v = users !! v) ∧
      (∀ v cs ps l, a ≤ v → class plan !! v = Some cs → probs plan !! v = Some ps →
         users !! v = Some l →
         ∃ l', users' !! v = Some l' ∧ length l' = length l + client_total ns (zip cs ps)).
Proof.
  intros Hcl Hpr Hpairs. induction n as [|n IH]; intros a pools users Ha Hlu Hlp Hfit.
  - exists pools, users. split_and!; [done..| |done|].
    + intros x k pool _ Hpool. rewrite schedule_suffix_end by lia. by rewrite Hpool.
    + intros v cs ps l Hv Hcs%lookup_lt_Some. lia.
  - destruct (lookup_lt_is_Some_2 (class plan) a) as [cs Hcs]; [lia|].
    destruct (lookup_lt_is_Some_2 (probs plan) a) as [ps Hps]; [lia|].
    pose proof (schedule_suffix plan a cs ps Hcs Hps) as Hsched.
    destruct (assign_loop_served ns a (zip cs ps) pools users)
      as (pools1 & users1 & Hrun1 & Hlp1 & Hlu1 & Hpools1 & Hother1 & Hmine1).
    + lia.
    + done.
    + intros c p Hin. apply Hpairs. by eapply elem_of_schedule_lookup.
    + intros x k pool Hk Hpool. specialize (Hfit x k pool Hk Hpool).
      rewrite Hsched, requested_app in Hfit. lia.
    + destruct (IH (S a) pools1 users1)
        as (pools' & users' & Hrun & Hlp' & Hlu' & Hpools & Hbefore & Hafter).
      * lia.
      * lia.
      * lia.
      * intros x k pool1 Hk Hpool1.
        destruct (lookup_lt_is_Some_2 pools x) as [pool Hpool].
        { apply lookup_lt_Some in Hpool1. lia. }
        rewrite (Hpools1 x k pool Hk Hpool) in Hpool1. simplify_eq.
        specialize (Hfit x k pool Hk Hpool).
        rewrite Hsched, requested_app in Hfit. rewrite length_drop. lia.
      * exists pools', users'. split_and!.
        -- assert (assign_user ns plan (pools, users) a = Ok (pools1, users1)) as Hstep.
           { unfold assign_user. apply (getitem_Ok _ _ IndexError) in Hcs, Hps.
             by rewrite Hcs, bind_Ok_l, Hps, bind_Ok_l. }
           by rewrite <- cons_seq, foldM_cons, Hstep, bind_Ok_l.
        -- lia.
        -- done.
        -- intros x k pool Hk Hpool.
           rewrite (Hpools x k _ Hk (Hpools1 x k pool Hk Hpool)).
           by rewrite drop_drop, Hsched, requested_app.
        -- intros v Hv. rewrite Hbefore by lia. apply Hother1. lia.
        -- intros v cs' ps' l Hv Hcs' Hps' Hl.
           destruct (decide (v = a)) as [->|Hne].
           ++ simplify_eq. destruct (Hmine1 l Hl) as (l' & Hl' & Hlen').
              exists l'. split; [|done]. rewrite Hbefore by lia. done.
           ++ apply (Hafter v cs' ps' l); [lia|done..|].
              rewrite Hother1 by done. done.
Qed.

(** ** The generator and the splitter together *)

(** One run in the arithmetic of the code: two clients, two classes of seven
    samples, the proportions normalised from [two_draws].  Each client
    receives [int(7 * p)] indices of each class, three and three, and one
    index of each class is left over. *)
Example gen_data_split_run_on_doubles :
  ∃ plan data_class_idx user_data_idx,
    gen_classes_per_node fourteen 2 2 two_draws diagonal_pick = Ok plan ∧
    gen_data_split_run fourteen 2 plan rev_shuffler = Ok (data_class_idx, user_data_idx) ∧
    length <$> data_class_idx = [1; 1] ∧
    length <$> user_data_idx = [6; 6].
Proof.
  eexists _, _, _. split; [vm_compute; reflexivity|].
  split; [vm_compute; reflexivity|]. split; vm_compute; reflexivity.
Qed.

(** Rounding can leave a whole class unassigned: 49 samples of one class,
    49 clients and equal draws.  Every proportion is the double nearest to
    [1/49], the product [49 * p] rounds to a double below 1, and [int] makes
    it 0: every client receives nothing, where the floor of the exact
    product would be 1. *)
Example gen_data_split_run_leaves_a_class :
  ∃ plan data_class_idx user_data_idx,
    gen_classes_per_node (Targets (replicate 49 0)) 49 1 (λ _ _, 0.5%float) diagonal_pick
    = Ok plan ∧
    gen_data_split_run (Targets (replicate 49 0)) 49 plan id_shuffler
    = Ok (data_class_idx, user_data_idx) ∧
    length <$> data_class_idx = [49] ∧
    length <$> user_data_idx = replicate 49 0.
Proof.
  eexists _, _, _. split; [vm_compute; reflexivity|].
  split; [vm_compute; reflexivity|]. split; vm_compute; reflexivity.
Qed.

(** ** The dataset selector *)

(** C8: a name other than the three supported ones makes [get_datasets]
    raise, whatever the file system holds: [KeyError] from [norm_map] when
    the name contains ["cifar"], the [ValueError] of the last branch
    otherwise.  [cinic10] without its directory raises [ValueError]. *)
Theorem get_datasets_unknown_name_raises (data_name : string) (cinic_train_exists : bool) :
  data_name ≠ "cifar10"%string →
  data_name ≠ "cifar100"%string →
  data_name ≠ "cinic10"%string →
  get_datasets data_name cinic_train_exists
    = Raise (if contains "cifar" data_name then KeyError else ValueError) ∧
  raises (get_datasets data_name cinic_train_exists) ∧
  get_datasets "cinic10" false = Raise ValueError.
Proof.
  intros H10%String.eqb_neq H100%String.eqb_neq Hcinic%String.eqb_neq.
  assert (get_datasets data_name cinic_train_exists
          = Raise (if contains "cifar" data_name then KeyError else ValueError)) as Hr.
  { unfold get_datasets, norm_map.
    destruct (contains "cifar" data_name); [by rewrite H10, H100 | by rewrite Hcinic]. }
  split_and!; [done | rewrite Hr; by eexists | reflexivity].
Qed.

Lemma get_datasets_unknown_name_raises_witness :
  get_datasets "cifar20" true
    = Raise (if contains "cifar" "cifar20" then KeyError else ValueError) ∧
  raises (get_datasets "cifar20" true) ∧
  get_datasets "cinic10" false = Raise ValueError.
Proof.
  apply (get_datasets_unknown_name_raises "cifar20" true); discriminate.
Defined.

(** * Further properties of the code *)

(** ** The label extractor *)

Lemma sum_list_fmap_with {A} (f : A → nat) (l : list A) :
  sum_list (f <$> l) = sum_list_with f l.
Proof. induction l as [|a l IH]; [done|]. csimpl. by rewrite IH. Qed.

Lemma sum_list_with_ext_in {A} (f g : A → nat) (l : list A) :
  (∀ x, x ∈ l → f x = g x) → sum_list_with f l = sum_list_with g l.
Proof.
  induction l as [|a l IH]; intros Hfg; [done|]. simpl.
  rewrite (Hfg a) by left. rewrite IH; [done|]. intros; apply Hfg; by right.
Qed.

Lemma sum_list_with_add {A} (f g : A → nat) (l : list A) :
  sum_list_with (λ x, f x + g x) l = sum_list_with f l + sum_list_with g l.
Proof. induction l as [|a l IH]; [done|]. simpl. rewrite IH. lia. Qed.

Lemma sum_list_with_zero {A} (l : list A) : sum_list_with (λ _, 0) l = 0.
Proof. induction l as [|a l IH]; [done|]. simpl. by rewrite IH. Qed.

Lemma sum_indicator (U : list nat) x :
  NoDup U →
  sum_list_with (λ c, if decide (x = c) then 1 else 0) U = if decide (x ∈ U) then 1 else 0.
Proof.
  induction 1 as [|a U Ha Hnd IH]; [done|]. simpl. rewrite IH.
  destruct (decide (x = a)) as [->|Hne].
  - rewrite decide_False by done. rewrite decide_True by left. done.
  - destruct (decide (x ∈ U)).
    + rewrite decide_True by by right. done.
    + rewrite decide_False; [done|]. by intros [?|?]%elem_of_cons.
Qed.

Lemma occurrences_cons c x l :
  occurrences c (x :: l) = (if decide (x = c) then 1 else 0) + occurrences c l.
Proof. unfold occurrences. rewrite filter_cons. by case_decide. Qed.

(** Counting every value of [U] in [l] counts the elements of [l] that are
    in [U]. *)
Lemma sum_occurrences (U l : list nat) :
  NoDup U →
  sum_list_with (λ c, occurrences c l) U = length (filter (λ x, x ∈ U) l).
Proof.
  intros Hnd. induction l as [|x l IH].
  - apply sum_list_with_zero.
  - rewrite (sum_list_with_ext_in _ _ U (λ c _, occurrences_cons c x l)).
    rewrite sum_list_with_add, IH, sum_indicator, filter_cons by done.
    by case_decide.
Qed.

Lemma np_unique_NoDup labels : NoDup (np_unique labels).
Proof. apply NoDup_filter, NoDup_seq. Qed.

Lemma get_num_classes_samples_Ok d K ns labels :
  get_num_classes_samples d = Ok (K, ns, labels) ↔
  data_labels d = Ok labels ∧ K = length (np_unique labels) ∧
  ns = (λ c, occurrences c labels) <$> np_unique labels.
Proof.
  unfold get_num_classes_samples. split.
  - intros Hd. inv_bind Hd. by injection Hd as <- <- <-.
  - intros (-> & -> & ->). done.
Qed.

Lemma get_num_classes_samples_sum d K ns labels :
  get_num_classes_samples d = Ok (K, ns, labels) →
  length ns = K ∧ sum_list ns = length labels.
Proof.
  intros (_ & -> & ->)%get_num_classes_samples_Ok.
  split; [by rewrite length_fmap|].
  rewrite sum_list_fmap_with, sum_occurrences by apply np_unique_NoDup.
  rewrite filter_all; [done|]. intros x Hx. by apply np_unique_spec.
Qed.

(** X1: [num_samples] has one entry per class, every entry counts at least
    one sample, the entries add up to the number of samples, and there are
    at most as many classes as samples. *)
Theorem get_num_classes_samples_counts (d : dataset)
    (num_classes : nat) (num_samples data_labels_list : list nat) :
  get_num_classes_samples d = Ok (num_classes, num_samples, data_labels_list) →
  length num_samples = num_classes ∧
  sum_list num_samples = length data_labels_list ∧
  (∀ n, n ∈ num_samples → 0 < n) ∧
  num_classes ≤ length data_labels_list.
Proof.
  intros Hd. destruct (get_num_classes_samples_sum _ _ _ _ Hd) as [Hlen Hsum].
  apply get_num_classes_samples_Ok in Hd as (_ & -> & ->).
  set (labels := data_labels_list) in *.
  assert (∀ n, n ∈ (λ c, occurrences c labels) <$> np_unique labels → 0 < n) as Hpos.
  { intros n (c & -> & Hc)%list_elem_of_fmap.
    apply (proj1 (np_unique_spec labels c)) in Hc.
    apply list_elem_of_split in Hc as (l1 & l2 & Hl). rewrite Hl.
    rewrite occurrences_app, occurrences_cons, decide_True by done. lia. }
  split_and!; [done..|].
  apply submseteq_length, NoDup_submseteq; [apply np_unique_NoDup|].
  intros x Hx. by apply np_unique_spec.
Qed.

Lemma get_num_classes_samples_counts_witness :
  length [2; 1] = 2 ∧ sum_list [2; 1] = length [5; 2; 2] ∧
  (∀ n, n ∈ [2; 1] → 0 < n) ∧ 2 ≤ length [5; 2; 2].
Proof.
  apply (get_num_classes_samples_counts (Subset [0; 2; 2; 5] [3; 1; 1]) 2 [2; 1] [5; 2; 2]).
  vm_compute. reflexivity.
Defined.

Lemma take_indices_Ok a idx :
  Forall (λ i, i < length a) idx → take_indices a idx = Ok ((λ i, a !!! i) <$> idx).
Proof.
  induction 1 as [|i idx Hi Hidx IH]; [done|]. simpl.
  destruct (lookup_lt_is_Some_2 a i Hi) as [x Hx].
  rewrite (proj2 (getitem_Ok a i IndexError x) Hx), bind_Ok_l, IH, bind_Ok_l.
  by rewrite (list_lookup_total_correct a i x Hx).
Qed.

Lemma take_indices_raise a idx :
  ¬ Forall (λ i, i < length a) idx → take_indices a idx = Raise IndexError.
Proof.
  induction idx as [|i idx IH]; intros Hnot; [by destruct Hnot|]. simpl.
  destruct (decide (i < length a)) as [Hi|Hi].
  - destruct (lookup_lt_is_Some_2 a i Hi) as [x Hx].
    rewrite (proj2 (getitem_Ok a i IndexError x) Hx), bind_Ok_l, IH; [done|].
    intros Hidx. apply Hnot. by constructor.
  - unfold getitem. by rewrite lookup_ge_None_2 by lia.
Qed.

(** X3: [num_samples[c]] is the number of samples labelled [c], for every
    [c] below [num_classes], exactly when every label is below
    [num_classes]. *)
Theorem num_samples_aligned_iff (d : dataset)
    (num_classes : nat) (num_samples data_labels_list : list nat) :
  get_num_classes_samples d = Ok (num_classes, num_samples, data_labels_list) →
  (∀ c, c < num_classes → num_samples !! c = Some (occurrences c data_labels_list)) ↔
  (∀ l, l ∈ data_labels_list → l < num_classes).
Proof.
  intros Hd. split; [|intros Hwf; by apply (get_num_classes_samples_wf d)].
  intros Hal. set (labels := data_labels_list) in *.
  destruct (get_num_classes_samples_sum d num_classes num_samples labels Hd)
    as [Hlen Hsum].
  assert (num_samples = (λ c, occurrences c labels) <$> seq 0 num_classes) as Hns.
  { apply list_eq. intros c. rewrite list_lookup_fmap.
    destruct (decide (c < num_classes)) as [Hc|Hc].
    - by rewrite lookup_seq_lt, Hal.
    - rewrite lookup_seq_ge by lia. apply lookup_ge_None_2. lia. }
  rewrite Hns, sum_list_fmap_with, sum_occurrences in Hsum by apply NoDup_seq.
  intros l Hl. destruct (decide (l < num_classes)) as [|Hge]; [done|].
  pose proof (length_filter_lt (λ x, x ∈ seq 0 num_classes) labels l Hl) as Hlt.
  rewrite Hsum in Hlt. exfalso. apply (Nat.lt_irrefl (length labels)), Hlt.
  intros Hin%elem_of_seq. lia.
Qed.

Lemma num_samples_aligned_iff_witness :
  (∀ c, c < 2 → [2; 1] !! c = Some (occurrences c [5; 2; 2])) ↔
  (∀ l, l ∈ [5; 2; 2] → l < 2).
Proof.
  apply (num_samples_aligned_iff (Subset [0; 2; 2; 5] [3; 1; 1]) 2 [2; 1] [5; 2; 2]).
  vm_compute. reflexivity.
Defined.

(** ** The class-partition generator: the whole run *)

(** What a run that returns leaves behind: every budget and every list of
    proportions is used up. *)
Lemma gen_classes_per_node_run_final {R} `{Arith R} d N m (uniform : nat → nat → R) pick K ns labels
    cd plan :
  get_num_classes_samples d = Ok (K, ns, labels) →
  gen_classes_per_node_run d N m uniform pick = Ok (cd, plan) →
  K ≠ 0 ∧ (m * N) mod K = 0 ∧
  client_inv K ((m * N) / K) m N (cd, plan) ∧
  prob_inv (init_class_dict K ((m * N) / K) uniform) (cd, plan) ∧
  ∀ x e, cd !! x = Some e → count e = 0%Z ∧ prob e = [].
Proof.
  intros Hd Hrun. rewrite (gen_classes_per_node_run_unfold _ _ _ _ _ _ _ _ Hd) in Hrun.
  destruct (decide (K = 0)) as [|HK]; [done|].
  destruct (decide ((m * N) mod K = 0)) as [Hmod|]; [|done].
  apply clients_prob_inv in Hrun as [Hinv Hprob]. split_and!; [done..|].
  destruct Hinv as (Hlen & Hsp & Hsum & _ & _ & _ & _ & Hent). cbn [fst snd] in *.
  intros x e He. destruct (Hent x e He) as [Hpl _].
  assert (count e = 0%Z) as Hzero.
  { apply (spread_zero (class_counts cd)); [done| |].
    - rewrite Hsum. pose proof (exact_budget _ _ _ HK Hmod). nia.
    - apply list_elem_of_lookup. exists x. apply class_counts_lookup. eauto. }
  split; [done|]. rewrite Hzero in Hpl. destruct (prob e); [done|]. simpl in Hpl. lia.
Qed.

Lemma gen_classes_per_node_Ok {R} `{Arith R} d N m (uniform : nat → nat → R) pick plan :
  gen_classes_per_node d N m uniform pick = Ok plan ↔
  ∃ cd, gen_classes_per_node_run d N m uniform pick = Ok (cd, plan).
Proof.
  unfold gen_classes_per_node. rewrite fmap_Ok. split.
  - intros ([cd plan'] & Hrun & ->). eauto.
  - intros [cd Hrun]. by exists (cd, plan).
Qed.

Lemma occurrences_concat x (ls : list (list nat)) :
  Forall NoDup ls →
  occurrences x (concat ls) = length (filter (λ cs, x ∈ cs) ls).
Proof.
  induction 1 as [|cs ls Hcs Hls IH]; [done|]. simpl.
  rewrite occurrences_app, IH, (occurrences_indicator x cs Hcs), filter_cons.
  by case_decide.
Qed.

(** X4: the plan names only classes of the data set, and every class is
    planned for exactly [count_per_class] clients. *)
Theorem gen_classes_per_node_classes_of_plan {R} `{Arith R}
    (d : dataset) (num_users classes_per_user : nat)
    (uniform : nat → nat → R) (pick : nat → nat → nat)
    (num_classes : nat) (num_samples labels : list nat) (plan : class_partitions R) :
  get_num_classes_samples d = Ok (num_classes, num_samples, labels) →
  gen_classes_per_node d num_users classes_per_user uniform pick = Ok plan →
  (∀ cs c, cs ∈ class plan → c ∈ cs → c < num_classes) ∧
  ∀ c, c < num_classes →
    length (filter (λ cs, c ∈ cs) (class plan))
    = (classes_per_user * num_users) / num_classes.
Proof.
  intros Hd [cd Hrun]%gen_classes_per_node_Ok.
  destruct (gen_classes_per_node_run_final _ _ _ _ _ _ _ _ _ _ Hd Hrun)
    as (HK & Hmod & Hinv & _ & Hfin).
  destruct Hinv as (Hlen & _ & _ & _ & _ & Hall & _ & Hent). cbn [fst snd] in *.
  split.
  - intros cs c Hcs Hc. rewrite Forall_forall in Hall.
    destruct (Hall cs Hcs) as (_ & _ & Hlt). auto.
  - intros c Hc. destruct (lookup_lt_is_Some_2 cd c) as [e He]; [lia|].
    destruct (Hent c e He) as [_ Hocc]. destruct (Hfin c e He) as [Hzero _].
    rewrite <- occurrences_concat; [lia|].
    eapply Forall_impl; [exact Hall|]. by intros cs (_ & Hnd & _).
Qed.

Lemma gen_classes_per_node_classes_of_plan_witness :
  ∃ plan,
    gen_classes_per_node (Targets [0; 1; 2; 1]) 3 2 half_draws diagonal_pick = Ok plan ∧
    (∀ cs c, cs ∈ class plan → c ∈ cs → c < 3) ∧
    ∀ c, c < 3 → length (filter (λ cs, c ∈ cs) (class plan)) = (2 * 3) / 3.
Proof.
  eexists. split; [vm_compute; reflexivity|].
  apply (gen_classes_per_node_classes_of_plan (R:=Q) (Targets [0; 1; 2; 1]) 3 2
           half_draws diagonal_pick 3 [1; 2; 1] [0; 1; 2; 1]);
    vm_compute; reflexivity.
Defined.

(** X5: on a data set whose labels can be read, the generator fails in one
    of three ways only: [ZeroDivisionError] when there is no class,
    [AssertionError] when the divisibility test fails, and [ValueError] when
    there is a client and it is to receive more classes than there are.  It
    never fails in a [pop] or a dictionary access. *)
Theorem gen_classes_per_node_exceptions {R} `{Arith R}
    (d : dataset) (num_users classes_per_user : nat)
    (uniform : nat → nat → R) (pick : nat → nat → nat)
    (num_classes : nat) (num_samples labels : list nat) (e : exn) :
  get_num_classes_samples d = Ok (num_classes, num_samples, labels) →
  gen_classes_per_node d num_users classes_per_user uniform pick = Raise e →
  (num_classes = 0 ∧ e = ZeroDivisionError) ∨
  (num_classes ≠ 0 ∧ (classes_per_user * num_users) mod num_classes ≠ 0 ∧
     e = AssertionError) ∨
  (num_classes ≠ 0 ∧ (classes_per_user * num_users) mod num_classes = 0 ∧
     0 < num_users ∧ num_classes < classes_per_user ∧ e = ValueError).
Proof.
  intros Hd. unfold gen_classes_per_node.
  rewrite (gen_classes_per_node_run_unfold _ _ _ _ _ _ _ _ Hd).
  destruct (decide (num_classes = 0)) as [HK|HK].
  { intros [= <-]. by left. }
  destruct (decide ((classes_per_user * num_users) mod num_classes = 0)) as [Hmod|Hmod].
  2:{ intros [= <-]. right. by left. }
  intros Hraise. right. right.
  destruct (decide (classes_per_user ≤ num_classes)) as [Hle|Hgt].
  { destruct (clients_progress num_classes ((classes_per_user * num_users) / num_classes)
                classes_per_user pick uniform num_users) as (st & Hst & _); [done| |].
    - pose proof (exact_budget _ _ _ HK Hmod). lia.
    - by rewrite Hst in Hraise. }
  destruct num_users as [|n]; [done|].
  unfold clients in Hraise. rewrite <- cons_seq in Hraise.
  rewrite (foldM_raise_first _ _ _ _ ValueError) in Hraise.
  - injection Hraise as <-. split_and!; [done..|lia|lia|done].
  - apply client_too_many_classes. lia.
Qed.

Lemma gen_classes_per_node_exceptions_witness :
  (2 = 0 ∧ ValueError = ZeroDivisionError) ∨
  (2 ≠ 0 ∧ (4 * 1) mod 2 ≠ 0 ∧ ValueError = AssertionError) ∨
  (2 ≠ 0 ∧ (4 * 1) mod 2 = 0 ∧ 0 < 1 ∧ 2 < 4 ∧ ValueError = ValueError).
Proof.
  apply (gen_classes_per_node_exceptions (R:=Q) (Targets [0; 1]) 1 4
           half_draws diagonal_pick 2 [1; 1] [0; 1] ValueError);
    vm_compute; reflexivity.
Defined.

(** X6: when the generator returns, the proportions of a class are handed
    out from the last to the first: the clients that hold class [x], in
    order, receive the normalised draws of [x] in reverse, each exactly
    once. *)
Theorem gen_classes_per_node_hands_out_reversed {R} `{Arith R}
    (d : dataset) (num_users classes_per_user : nat)
    (uniform : nat → nat → R) (pick : nat → nat → nat)
    (num_classes : nat) (num_samples labels : list nat) (plan : class_partitions R) :
  get_num_classes_samples d = Ok (num_classes, num_samples, labels) →
  gen_classes_per_node d num_users classes_per_user uniform pick = Ok plan →
  ∀ x, x < num_classes →
    assigned x (schedule plan)
    = reverse (probs_norm
                 (uniform x <$> seq 0 ((classes_per_user * num_users) / num_classes))).
Proof.
  intros Hd [cd Hrun]%gen_classes_per_node_Ok x Hx.
  destruct (gen_classes_per_node_run_final _ _ _ _ _ _ _ _ _ _ Hd Hrun)
    as (HK & Hmod & Hinv & Hprob & Hfin).
  destruct Hinv as (Hlen & _). cbn [fst snd] in *.
  destruct (lookup_lt_is_Some_2 cd x) as [e He]; [lia|].
  destruct (Hprob x e He) as (e0 & [_ ->]%init_class_dict_lookup & Hp).
  destruct (Hfin x e He) as [_ Hnil]. simpl in Hp. rewrite Hnil in Hp. simpl in Hp.
  by rewrite Hp, reverse_involutive.
Qed.

Lemma gen_classes_per_node_hands_out_reversed_witness :
  ∃ plan,
    gen_classes_per_node (Targets [0; 1; 2; 1]) 3 2 half_draws diagonal_pick = Ok plan ∧
    ∀ x, x < 3 →
      assigned x (schedule plan)
      = reverse (probs_norm (half_draws x <$> seq 0 ((2 * 3) / 3))).
Proof.
  eexists. split; [vm_compute; reflexivity|].
  apply (gen_classes_per_node_hands_out_reversed (R:=Q) (Targets [0; 1; 2; 1]) 3 2
           half_draws diagonal_pick 3 [1; 2; 1] [0; 1; 2; 1]);
    vm_compute; reflexivity.
Defined.

Lemma clients_extend {R} `{Arith R} m pick (st st' : list (class_entry R) * class_partitions R) l :
  foldM (client m pick) st l = Ok st' →
  ∃ cl, class st'.2 = class st.2 ++ cl.
Proof.
  revert st. induction l as [|i l IH]; intros st Hrun.
  - injection Hrun as <-. exists []. by rewrite app_nil_r.
  - rewrite foldM_cons in Hrun. apply bind_Ok in Hrun as (st1 & Hst1 & Hrun).
    destruct st as [cd parts], st1 as [cd1 parts1].
    apply client_Ok in Hst1 as (cd' & c & ps & _ & _ & ->).
    destruct (IH _ Hrun) as [cl Hcl]. cbn [fst snd class] in *.
    exists (c :: cl). rewrite Hcl. by rewrite <- app_assoc.
Qed.

(** X7: the generator keeps the classes balanced after every client: among
    the first [i] clients of the plan no class is held more than once more
    often than another, and none more than [count_per_class] times. *)
Theorem gen_classes_per_node_balanced_prefixes {R} `{Arith R}
    (d : dataset) (num_users classes_per_user : nat)
    (uniform : nat → nat → R) (pick : nat → nat → nat)
    (num_classes : nat) (num_samples labels : list nat) (plan : class_partitions R) :
  get_num_classes_samples d = Ok (num_classes, num_samples, labels) →
  gen_classes_per_node d num_users classes_per_user uniform pick = Ok plan →
  ∀ i x y, x < num_classes → y < num_classes →
    occurrences x (concat (take i (class plan)))
      ≤ occurrences y (concat (take i (class plan))) + 1 ∧
    occurrences x (concat (take i (class plan)))
      ≤ (classes_per_user * num_users) / num_classes.
Proof.
  intros Hd [cd Hrun]%gen_classes_per_node_Ok i x y Hx Hy.
  destruct (gen_classes_per_node_run_final _ _ _ _ _ _ _ _ _ _ Hd Hrun)
    as (HK & Hmod & Hfinal & _ & _).
  rewrite (gen_classes_per_node_run_unfold _ _ _ _ _ _ _ _ Hd) in Hrun.
  rewrite decide_False, decide_True in Hrun by done.
  set (q := (classes_per_user * num_users) / num_classes) in *.
  set (a := i `min` num_users).
  assert (take i (class plan) = take a (class plan)) as ->.
  { destruct Hfinal as (_ & _ & _ & Hcl & _). cbn [snd] in Hcl. unfold a.
    destruct (decide (i ≤ num_users)); [by rewrite Nat.min_l by done|].
    rewrite Nat.min_r by lia. by rewrite !take_ge by lia. }
  unfold clients in Hrun.
  replace (seq 0 num_users) with (seq 0 a ++ seq a (num_users - a)) in Hrun.
  2:{ rewrite <- seq_app. f_equal. lia. }
  rewrite foldM_app in Hrun. apply bind_Ok in Hrun as ([cda pa] & Ha & Hrest).
  apply clients_extend in Hrest as [cl Hcl]. cbn [snd] in Hcl.
  apply clients_inv in Ha as (Hlen & Hsp & Hsum & Hla & _ & _ & _ & Hent).
  cbn [fst snd] in *.
  rewrite Hcl, take_app_length' by done.
  destruct (lookup_lt_is_Some_2 cda x) as [ex Hex]; [lia|].
  destruct (lookup_lt_is_Some_2 cda y) as [ey Hey]; [lia|].
  destruct (Hent x ex Hex) as [_ Hox]. destruct (Hent y ey Hey) as [_ Hoy].
  assert (count ex ∈ class_counts cda) as Hinx.
  { apply list_elem_of_lookup. exists x. apply class_counts_lookup. eauto. }
  assert (count ey ∈ class_counts cda) as Hiny.
  { apply list_elem_of_lookup. exists y. apply class_counts_lookup. eauto. }
  pose proof (Hsp _ _ Hiny Hinx) as Hxy.
  assert (0 ≤ count ex)%Z as Hnn.
  { apply (spread_nonneg (class_counts cda)); [done| |done].
    rewrite Hsum. pose proof (exact_budget _ _ _ HK Hmod).
    assert (a ≤ num_users) by (unfold a; lia). fold q in H0. nia. }
  lia.
Qed.

Lemma gen_classes_per_node_balanced_prefixes_witness :
  ∃ plan,
    gen_classes_per_node (Targets [0; 1; 2; 1]) 3 2 half_draws diagonal_pick = Ok plan ∧
    ∀ i x y, x < 3 → y < 3 →
      occurrences x (concat (take i (class plan)))
        ≤ occurrences y (concat (take i (class plan))) + 1 ∧
      occurrences x (concat (take i (class plan))) ≤ (2 * 3) / 3.
Proof.
  eexists. split; [vm_compute; reflexivity|].
  apply (gen_classes_per_node_balanced_prefixes (R:=Q) (Targets [0; 1; 2; 1]) 3 2
           half_draws diagonal_pick 3 [1; 2; 1] [0; 1; 2; 1]);
    vm_compute; reflexivity.
Defined.

(** ** The index splitter: when it returns, and what it keeps *)

Lemma foldM_returns_iff {A St} (I : St → Prop) (ok : A → Prop)
    (f : St → A → result St) l :
  (∀ s x, I s → (∃ s', f s x = Ok s') ↔ ok x) →
  (∀ s x s', I s → f s x = Ok s' → I s') →
  ∀ s, I s → (∃ s', foldM f s l = Ok s') ↔ Forall ok l.
Proof.
  intros Hok Hpres. induction l as [|x l IH]; intros s Hs.
  - split; [constructor | by exists s].
  - rewrite foldM_cons, Forall_cons. split.
    + intros [s' (s1 & Hs1 & Hrest)%bind_Ok]. split.
      * apply (Hok s x Hs). eauto.
      * apply (IH s1); [by eapply Hpres | eauto].
    + intros [Hx Hl]. apply (Hok s x Hs) in Hx as [s1 Hs1].
      rewrite Hs1, bind_Ok_l. apply IH; [by eapply Hpres | done].
Qed.

Lemma foldM_raise_invariant {A St} (I : St → Prop) (P : exn → Prop)
    (f : St → A → result St) l e :
  (∀ s x s', I s → f s x = Ok s' → I s') →
  (∀ s x e, I s → f s x = Raise e → P e) →
  ∀ s, I s → foldM f s l = Raise e → P e.
Proof.
  intros Hpres Hraise. induction l as [|x l IH]; intros s Hs; [done|].
  rewrite foldM_cons. destruct (f s x) as [s1|e1] eqn:Hs1.
  - rewrite bind_Ok_l. apply IH. by eapply Hpres.
  - intros [= <-]. by eapply Hraise.
Qed.

Lemma assign_pools_length {R} `{Arith R} ns u st (cp : nat * R) st' :
  assign ns u st cp = Ok st' → length st'.1 = length st.1 ∧ length st'.2 = length st.2.
Proof.
  destruct st as [pools users], st' as [pools' users'], cp as [c p].
  intros (n & e & pool & _ & _ & _ & -> & ->)%assign_Ok. cbn [fst snd].
  by rewrite length_insert, length_alter.
Qed.

Lemma assign_returns_iff {R} `{Arith R} ns u st (cp : nat * R) :
  length st.1 = length ns →
  (∃ st', assign ns u st cp = Ok st') ↔ servable ns cp.
Proof.
  destruct st as [pools users], cp as [c p]. cbn [fst]. intros Hlen. split.
  - intros [[pools' users'] (n & e & pool & Hn & He & _)%assign_Ok].
    exists n, e. eauto.
  - intros (n & e & Hn & He). cbn [fst snd] in *.
    destruct (lookup_lt_is_Some_2 pools c) as [pool Hpool].
    { apply lookup_lt_Some in Hn. lia. }
    eexists (_, _). apply assign_Ok. eauto 10.
Qed.

Lemma assign_loop_pools_length {R} `{Arith R} ns u pairs st (st' : _ * _) :
  foldM (assign (R:=R) ns u) st pairs = Ok st' →
  length st'.1 = length st.1 ∧ length st'.2 = length st.2.
Proof.
  apply (foldM_invariant
           (λ s, length s.1 = length st.1 ∧ length s.2 = length st.2)); [|done].
  intros s cp s' _ [Hl1 Hl2] Hstep.
  destruct (assign_pools_length _ _ _ _ _ Hstep) as [-> ->]. done.
Qed.

Lemma assign_user_pools_length {R} `{Arith R} ns (plan : class_partitions R) st u st' :
  assign_user ns plan st u = Ok st' →
  length st'.1 = length st.1 ∧ length st'.2 = length st.2.
Proof.
  unfold assign_user. intros Hrun. inv_bind Hrun.
  by eapply assign_loop_pools_length.
Qed.

Lemma assign_user_returns_iff {R} `{Arith R} ns (plan : class_partitions R) st u :
  length st.1 = length ns →
  (∃ st', assign_user ns plan st u = Ok st') ↔ servable_user ns plan u.
Proof.
  intros Hlen. unfold assign_user, servable_user. split.
  - intros [st' Hrun]. inv_bind Hrun. apply getitem_Ok in Hx, Hx0.
    exists x, x0. split_and!; [done..|].
    apply (foldM_returns_iff (λ s, length s.1 = length ns) (servable ns)
             (assign ns u) (zip x x0)) with (s := st); [| |done|eauto].
    + intros s cp Hs. by apply assign_returns_iff.
    + intros s cp s' Hs Hstep.
      destruct (assign_pools_length _ _ _ _ _ Hstep) as [-> _]. done.
  - intros (cs & ps & Hcs & Hps & Hall).
    apply (getitem_Ok _ _ IndexError) in Hcs, Hps.
    rewrite Hcs, bind_Ok_l, Hps, bind_Ok_l.
    apply (foldM_returns_iff (λ s, length s.1 = length ns) (servable ns)
             (assign ns u) (zip cs ps)); [| |done..].
    + intros s cp Hs. by apply assign_returns_iff.
    + intros s cp s' Hs Hstep.
      destruct (assign_pools_length _ _ _ _ _ Hstep) as [-> _]. done.
Qed.

Lemma gen_data_split_Ok {R} `{Arith R} d N (plan : class_partitions R) sh out :
  gen_data_split d N plan sh = Ok out ↔
  ∃ pools, gen_data_split_run d N plan sh = Ok (pools, out).
Proof.
  unfold gen_data_split. rewrite fmap_Ok. split.
  - intros ([pools out'] & Hrun & ->). eauto.
  - intros [pools Hrun]. by exists (pools, out).
Qed.

Lemma gen_data_split_run_returns_iff {R} `{Arith R} d N (plan : class_partitions R) sh
    K ns labels :
  get_num_classes_samples d = Ok (K, ns, labels) →
  (∃ st, gen_data_split_run d N plan sh = Ok st) ↔
  ∀ u, u < N → servable_user ns plan u.
Proof.
  intros Hd. unfold gen_data_split_run. rewrite Hd, bind_Ok_l.
  destruct (get_num_classes_samples_sum _ _ _ _ Hd) as [Hlen _].
  rewrite (foldM_returns_iff (λ s, length s.1 = length ns) (servable_user ns plan)
             (assign_user ns plan) (seq 0 N)).
  - rewrite Forall_forall. split.
    + intros Hall u Hu. apply Hall, elem_of_seq. lia.
    + intros Hall u Hu%elem_of_seq. apply Hall. lia.
  - intros s u Hs. by apply assign_user_returns_iff.
  - intros s u s' Hs Hstep.
    destruct (assign_user_pools_length _ _ _ _ _ Hstep) as [-> _]. done.
  - cbn [fst]. by rewrite init_pools_length.
Qed.

(** X8: on a split whose labels can be read, [gen_data_split] returns
    exactly when each of the [num_users] clients has a class list and a
    proportion list in the plan, every class id paired with a proportion is
    below the [num_classes] of the split, and [int] accepts every product
    [num_samples[c] * p]. *)
Theorem gen_data_split_returns_iff {R} `{Arith R}
    (d : dataset) (num_users : nat) (plan : class_partitions R) (sh : shuffler)
    (num_classes : nat) (num_samples labels : list nat) :
  get_num_classes_samples d = Ok (num_classes, num_samples, labels) →
  (∃ user_data_idx, gen_data_split d num_users plan sh = Ok user_data_idx) ↔
  ∀ usr_i, usr_i < num_users →
    ∃ cs ps, class plan !! usr_i = Some cs ∧ probs plan !! usr_i = Some ps ∧
      ∀ c p, (c, p) ∈ zip cs ps →
        c < num_classes ∧
        ∃ n e, num_samples !! c = Some n ∧ r_int (r_mul (r_of_count n) p) = Ok e.
Proof.
  intros Hd. destruct (get_num_classes_samples_sum _ _ _ _ Hd) as [Hlen _].
  transitivity (∃ st, gen_data_split_run d num_users plan sh = Ok st).
  { split.
    - intros [out [pools Hrun]%gen_data_split_Ok]. eauto.
    - intros [[pools out] Hrun]. exists out. apply gen_data_split_Ok. eauto. }
  rewrite (gen_data_split_run_returns_iff _ _ _ _ _ _ _ Hd).
  split; intros Hall u Hu; destruct (Hall u Hu) as (cs & ps & Hcs & Hps & Hpairs);
    exists cs, ps; (split_and!; [done..|]).
  - rewrite Forall_forall in Hpairs. intros c p Hin.
    destruct (Hpairs _ Hin) as (n & e & Hn & He). cbn [fst snd] in *.
    split; [|eauto]. apply lookup_lt_Some in Hn. lia.
  - apply Forall_forall. intros [c p] Hin.
    destruct (Hpairs c p Hin) as (_ & n & e & Hn & He). by exists n, e.
Qed.

Lemma gen_data_split_returns_iff_witness :
  (∃ user_data_idx, gen_data_split test_part 2 plan_by_hand id_shuffler = Ok user_data_idx) ↔
  ∀ usr_i, usr_i < 2 →
    ∃ cs ps, class plan_by_hand !! usr_i = Some cs ∧ probs plan_by_hand !! usr_i = Some ps ∧
      ∀ c p, (c, p) ∈ zip cs ps →
        c < 3 ∧
        ∃ n e, [2; 2; 2] !! c = Some n ∧ r_int (r_mul (r_of_count n) p) = Ok e.
Proof.
  apply (gen_data_split_returns_iff test_part 2 plan_by_hand id_shuffler
           3 [2; 2; 2] [1; 1; 0; 2; 2; 0]).
  vm_compute. reflexivity.
Defined.

Lemma assign_raise {R} `{Arith R} ns u st (cp : nat * R) e :
  length st.1 = length ns → assign ns u st cp = Raise e →
  e = IndexError ∨ ∃ x, r_int x = Raise e.
Proof.
  destruct st as [pools users], cp as [c p]. cbn [fst]. intros Hlen.
  unfold assign, getitem. destruct (ns !! c) as [n|] eqn:Hn.
  2:{ intros [= <-]. by left. }
  rewrite bind_Ok_l. destruct (r_int (r_mul (r_of_count n) p)) as [k|e'] eqn:Hk.
  2:{ intros [= <-]. right. eauto. }
  rewrite bind_Ok_l. destruct (lookup_lt_is_Some_2 pools c) as [pool ->]; [|done].
  apply lookup_lt_Some in Hn. lia.
Qed.

Lemma gen_data_split_raise {R} `{Arith R} d N (plan : class_partitions R) sh e :
  gen_data_split d N plan sh = Raise e →
  e = IndexError ∨ ∃ x, r_int x = Raise e.
Proof.
  unfold gen_data_split, gen_data_split_run.
  destruct (get_num_classes_samples d) as [[[K ns] labels]|e'] eqn:Hd.
  2:{ intros [= <-]. left. unfold get_num_classes_samples in Hd.
      destruct d as [t|t idx|y]; simpl in Hd; [done| |done].
      destruct (decide (Forall (λ i, i < length t) idx)) as [Hall|Hall].
      - by rewrite take_indices_Ok in Hd.
      - rewrite take_indices_raise in Hd by done. by injection Hd as <-. }
  rewrite bind_Ok_l.
  destruct (foldM _ _ _) as [st|e'] eqn:Hrun; [done|]. intros [= <-].
  destruct (get_num_classes_samples_sum _ _ _ _ Hd) as [Hlen _].
  revert Hrun.
  apply (foldM_raise_invariant (λ s, length s.1 = length ns)
           (λ e, e = IndexError ∨ ∃ x, r_int x = Raise e)).
  - intros s u s' Hs Hstep.
    destruct (assign_user_pools_length _ _ _ _ _ Hstep) as [-> _]. done.
  - intros s u e Hs. unfold assign_user, getitem.
    destruct (class plan !! u) as [cs|]; [|intros [= <-]; by left].
    rewrite bind_Ok_l.
    destruct (probs plan !! u) as [ps|]; [|intros [= <-]; by left].
    rewrite bind_Ok_l.
    apply (foldM_raise_invariant (λ s, length s.1 = length ns)
             (λ e, e = IndexError ∨ ∃ x, r_int x = Raise e)); [| |done].
    + intros s1 cp s2 Hs1 Hstep.
      destruct (assign_pools_length _ _ _ _ _ Hstep) as [-> _]. done.
    + intros s1 cp e1 Hs1. by apply assign_raise.
  - cbn [fst]. by rewrite init_pools_length.
Qed.

(** X9: in the double arithmetic of the code [gen_data_split] fails with
    [IndexError] (labels that cannot be read, a client without an entry in
    the plan, a class the split does not have), with [ValueError] ([int] of a
    [nan]) or with [OverflowError] ([int] of an infinity), and with nothing
    else: the pool of a class whose count exists is always found. *)
Theorem gen_data_split_exceptions_of_doubles
    (d : dataset) (num_users : nat) (plan : class_partitions float) (sh : shuffler)
    (e : exn) :
  gen_data_split d num_users plan sh = Raise e →
  e = IndexError ∨ e = ValueError ∨ e = OverflowError.
Proof.
  intros [->|[x Hx]]%gen_data_split_raise; [by left|]. right.
  cbn [r_int float_arith] in Hx. unfold float_int in Hx.
  destruct (Prim2SF x); try done; injection Hx as <-; auto.
Qed.

Lemma gen_data_split_exceptions_of_doubles_witness :
  ValueError = IndexError ∨ ValueError = ValueError ∨ ValueError = OverflowError.
Proof.
  apply (gen_data_split_exceptions_of_doubles fourteen 1
           {| class := [[0]]; probs := [[PrimFloat.nan]] |} id_shuffler ValueError).
  vm_compute. reflexivity.
Defined.

(** In exact arithmetic [int] never fails, so [IndexError] is all that is
    left. *)
Lemma gen_data_split_raise_exact d N (plan : class_partitions Q) sh e :
  gen_data_split d N plan sh = Raise e → e = IndexError.
Proof. intros [->|[x Hx]]%gen_data_split_raise; [done|]. discriminate Hx. Qed.

Lemma foldM_congr {A St B} (g : St → B) (f : St → A → result St) l :
  (∀ s s' x, g s = g s' → g <$> f s x = g <$> f s' x) →
  ∀ s s', g s = g s' → g <$> foldM f s l = g <$> foldM f s' l.
Proof.
  intros Hstep. induction l as [|x l IH]; intros s s' Hs.
  - simpl. by rewrite Hs.
  - rewrite !foldM_cons. pose proof (Hstep s s' x Hs) as Hx.
    destruct (f s x) as [t|e], (f s' x) as [t'|e']; try done.
    rewrite !bind_Ok_l. apply IH. by injection Hx.
Qed.

Lemma sizes_lookup (pools pools' : list (list nat)) c :
  length <$> pools = length <$> pools' →
  length <$> pools !! c = length <$> pools' !! c.
Proof. intros Heq. by rewrite <- !list_lookup_fmap, Heq. Qed.

Lemma assign_sizes {R} `{Arith R} ns u st1 st2 (cp : nat * R) :
  sizes st1 = sizes st2 →
  sizes <$> assign ns u st1 cp = sizes <$> assign ns u st2 cp.
Proof.
  destruct st1 as [p1 u1], st2 as [p2 u2], cp as [c p]. unfold sizes. cbn [fst snd].
  intros [= Hp Hu]. unfold assign.
  destruct (getitem ns c IndexError) as [n|]; [|done]. rewrite !bind_Ok_l.
  destruct (r_int (r_mul (r_of_count n) p)) as [e|]; [|done]. rewrite !bind_Ok_l.
  pose proof (sizes_lookup p1 p2 c Hp) as Hc. unfold getitem.
  destruct (p1 !! c) as [pool1|], (p2 !! c) as [pool2|]; try done.
  injection Hc as Hlen. rewrite !bind_Ok_l. cbn [fmap result_fmap fst snd]. f_equal.
  rewrite !list_fmap_insert, Hp.
  rewrite (list_fmap_alter length _ (λ k, k + length (slice_to pool1 e)) u1).
  2:{ apply Forall_forall. intros l _. by rewrite length_app. }
  rewrite (list_fmap_alter length _ (λ k, k + length (slice_to pool1 e)) u2).
  2:{ apply Forall_forall. intros l _. rewrite length_app. unfold slice_to.
      by rewrite !length_take, Hlen. }
  rewrite Hu. unfold slice_from. by rewrite !length_drop, Hlen.
Qed.

Lemma assign_user_sizes {R} `{Arith R} ns (plan : class_partitions R) st1 st2 u :
  sizes st1 = sizes st2 →
  sizes <$> assign_user ns plan st1 u = sizes <$> assign_user ns plan st2 u.
Proof.
  intros Hs. unfold assign_user.
  destruct (getitem (class plan) u IndexError) as [cs|]; [|done]. rewrite !bind_Ok_l.
  destruct (getitem (probs plan) u IndexError) as [ps|]; [|done]. rewrite !bind_Ok_l.
  apply foldM_congr; [|done]. intros s s' cp. apply assign_sizes.
Qed.

Lemma init_pools_sizes (sh sh' : shuffler) K labels :
  length <$> init_pools sh K labels = length <$> init_pools sh' K labels.
Proof.
  unfold init_pools. rewrite <- !list_fmap_compose. apply list_fmap_ext.
  intros i c _. simpl. by rewrite !shuffle_perm.
Qed.

(** X10: how many indices each client receives, how many stay in each pool,
    and whether and how the call fails, do not depend on the shuffle. *)
Theorem gen_data_split_sizes_independent_of_shuffle {R} `{Arith R}
    (d : dataset) (num_users : nat) (plan : class_partitions R) (sh sh' : shuffler) :
  sizes <$> gen_data_split_run d num_users plan sh
    = sizes <$> gen_data_split_run d num_users plan sh' ∧
  (λ user_data_idx : list (list nat), length <$> user_data_idx)
    <$> gen_data_split d num_users plan sh
  = (λ user_data_idx : list (list nat), length <$> user_data_idx)
    <$> gen_data_split d num_users plan sh'.
Proof.
  assert (sizes <$> gen_data_split_run d num_users plan sh
          = sizes <$> gen_data_split_run d num_users plan sh') as Hrun.
  { unfold gen_data_split_run.
    destruct (get_num_classes_samples d) as [[[K ns] labels]|]; [|done].
    rewrite !bind_Ok_l. apply foldM_congr.
    - intros s s' u. apply assign_user_sizes.
    - unfold sizes. cbn [fst snd]. by rewrite (init_pools_sizes sh sh'). }
  split; [done|]. unfold gen_data_split.
  destruct (gen_data_split_run d num_users plan sh) as [[p1 u1]|e1],
           (gen_data_split_run d num_users plan sh') as [[p2 u2]|e2]; try done.
  - unfold sizes in Hrun. injection Hrun as _ Hu. cbn [snd] in *.
    simpl. by rewrite Hu.
  - by injection Hrun as ->.
Qed.

Lemma assign_conserves {R} `{Arith R} ns u st (cp : nat * R) st' :
  u < length st.2 → assign ns u st cp = Ok st' →
  concat st'.2 ++ concat st'.1 ≡ₚ concat st.2 ++ concat st.1.
Proof.
  destruct st as [pools users], st' as [pools' users'], cp as [c p].
  intros Hu (n & e & pool & Hn & He & Hpool & -> & ->)%assign_Ok. cbn [fst snd] in *.
  rewrite concat_alter_app by done.
  rewrite <- (concat_insert_drop pools c pool (slice_pos (length pool) e) Hpool).
  unfold slice_to, slice_from. by rewrite <- app_assoc.
Qed.

Lemma assign_user_conserves {R} `{Arith R} ns (plan : class_partitions R) st u st' :
  u < length st.2 → assign_user ns plan st u = Ok st' →
  concat st'.2 ++ concat st'.1 ≡ₚ concat st.2 ++ concat st.1.
Proof.
  unfold assign_user. intros Hu Hrun. inv_bind Hrun.
  assert (length st'.2 = length st.2 ∧
          concat st'.2 ++ concat st'.1 ≡ₚ concat st.2 ++ concat st.1) as [_ ?]; [|done].
  eapply (foldM_invariant
            (λ s, length s.2 = length st.2 ∧
                  concat s.2 ++ concat s.1 ≡ₚ concat st.2 ++ concat st.1));
    [|done|exact Hrun].
  intros s cp s' _ [Hlen Hperm] Hstep. split.
  - destruct (assign_pools_length _ _ _ _ _ Hstep) as [_ ->]. done.
  - rewrite <- Hperm. eapply assign_conserves; [|done]. lia.
Qed.

Lemma init_pools_concat (sh : shuffler) K labels :
  concat (init_pools sh K labels) ≡ₚ concat (where_eq labels <$> seq 0 K).
Proof.
  unfold init_pools. induction (seq 0 K) as [|i l IH]; [done|].
  csimpl. by rewrite IH, shuffle_perm.
Qed.

Lemma where_eq_concat labels K :
  (∀ l, l ∈ labels → l < K) →
  concat (where_eq labels <$> seq 0 K) ≡ₚ seq 0 (length labels).
Proof.
  intros Hwf. apply NoDup_Permutation.
  - apply (init_pools_NoDup id_shuffler K labels).
  - apply NoDup_seq.
  - intros k. rewrite elem_of_concat, elem_of_seq. split.
    + intros (l & Hk & (c & -> & Hc)%list_elem_of_fmap).
      apply where_eq_spec, lookup_lt_Some in Hk. lia.
    + intros [_ Hk]. destruct (lookup_lt_is_Some_2 labels k) as [c Hc]; [lia|].
      exists (where_eq labels c). split; [by apply where_eq_spec|].
      apply list_elem_of_fmap. exists c. split; [done|]. apply elem_of_seq.
      pose proof (Hwf c (list_elem_of_lookup_2 _ _ _ Hc)). lia.
Qed.

(** X11: no index is lost or invented: the lists of the clients and the
    residual pools together are a rearrangement of the indices whose label
    is one of the first [num_classes] ids, which are all the indices of the
    split when its labels are [0 .. num_classes - 1]. *)
Theorem gen_data_split_conserves_indices {R} `{Arith R}
    (d : dataset) (num_users : nat) (plan : class_partitions R) (sh : shuffler)
    (num_classes : nat) (num_samples labels : list nat)
    (data_class_idx user_data_idx : list (list nat)) :
  get_num_classes_samples d = Ok (num_classes, num_samples, labels) →
  gen_data_split_run d num_users plan sh = Ok (data_class_idx, user_data_idx) →
  concat user_data_idx ++ concat data_class_idx
    ≡ₚ concat (where_eq labels <$> seq 0 num_classes) ∧
  ((∀ l, l ∈ labels → l < num_classes) →
   concat user_data_idx ++ concat data_class_idx ≡ₚ seq 0 (length labels)).
Proof.
  intros Hd Hrun.
  assert (concat user_data_idx ++ concat data_class_idx
            ≡ₚ concat (where_eq labels <$> seq 0 num_classes)) as Hperm.
  { unfold gen_data_split_run in Hrun. rewrite Hd, bind_Ok_l in Hrun.
    rewrite <- (init_pools_concat sh).
    set (st0 := (init_pools sh num_classes labels, replicate num_users ([] : list nat))).
    assert (length (user_data_idx) = num_users ∧
            concat user_data_idx ++ concat data_class_idx
              ≡ₚ concat st0.2 ++ concat st0.1) as [_ Hp].
    { apply (foldM_invariant
               (λ s, length s.2 = num_users ∧
                     concat s.2 ++ concat s.1 ≡ₚ concat st0.2 ++ concat st0.1)
               _ _ _ (data_class_idx, user_data_idx)) in Hrun; [done| |].
      - intros s u s' Hu%elem_of_seq [Hlen Hp] Hstep. split.
        + destruct (assign_user_pools_length _ _ _ _ _ Hstep) as [_ ->]. done.
        + rewrite <- Hp. eapply assign_user_conserves; [|done]. lia.
      - split; [apply length_replicate | done]. }
    rewrite Hp. unfold st0. cbn [fst snd]. by rewrite concat_replicate_nil. }
  split; [done|]. intros Hwf. rewrite Hperm. by apply where_eq_concat.
Qed.

Lemma gen_data_split_conserves_indices_witness :
  ∃ data_class_idx user_data_idx,
    gen_data_split_run test_part 2 plan_by_hand rev_shuffler
      = Ok (data_class_idx, user_data_idx) ∧
    concat user_data_idx ++ concat data_class_idx
      ≡ₚ concat (where_eq [1; 1; 0; 2; 2; 0] <$> seq 0 3) ∧
    ((∀ l, l ∈ [1; 1; 0; 2; 2; 0] → l < 3) →
     concat user_data_idx ++ concat data_class_idx ≡ₚ seq 0 (length [1; 1; 0; 2; 2; 0])).
Proof.
  eexists _, _. split; [vm_compute; reflexivity|].
  apply (gen_data_split_conserves_indices test_part 2 plan_by_hand rev_shuffler
           3 [2; 2; 2] [1; 1; 0; 2; 2; 0]); vm_compute; reflexivity.
Defined.

Lemma concat_all_nil {A} (ls : list (list A)) :
  (∀ v l, ls !! v = Some l → l = []) → concat ls = [].
Proof.
  induction ls as [|a ls IH]; intros Hall; [done|]. simpl.
  rewrite (Hall 0 a) by done. rewrite IH; [done|].
  intros v l Hl. by apply (Hall (S v)).
Qed.

Lemma concat_alter_last {A} (users : list (list A)) u x :
  u < length users → (∀ v l, u < v → users !! v = Some l → l = []) →
  concat (alter (λ l, l ++ x) u users) = concat users ++ x.
Proof.
  revert u. induction users as [|a users IH]; intros u Hu Hempty; [simpl in Hu; lia|].
  destruct u as [|u].
  - simpl. rewrite (concat_all_nil users).
    + by rewrite !app_nil_r.
    + intros v l Hl. apply (Hempty (S v)); [lia | done].
  - simpl in *. rewrite <- app_assoc. f_equal. apply IH; [lia|].
    intros v l Hv Hl. apply (Hempty (S v)); [lia | done].
Qed.

Lemma assign_ordered {R} `{Arith R} sh labels ns u st (cp : nat * R) st' :
  u < length st.2 → order_inv sh labels u st →
  assign ns u st cp = Ok st' → order_inv sh labels u st'.
Proof.
  destruct st as [pools users], st' as [pools' users'], cp as [c p].
  intros Hu [Hempty Hord] (n & e & pool & Hn & He & Hpool & -> & ->)%assign_Ok.
  cbn [fst snd] in *. split; cbn [fst snd].
  - intros v l Hv Hl. rewrite list_lookup_alter_ne in Hl by lia. by eapply Hempty.
  - intros c' pool' Hpool'. rewrite concat_alter_last, filter_app by done.
    assert (∀ i, i ∈ pool → labels !! i = Some c) as Hlab.
    { intros i Hi. apply where_eq_spec. rewrite <- (shuffle_perm sh c).
      rewrite <- (Hord c pool Hpool). apply elem_of_app. by right. }
    destruct (decide (c' = c)) as [->|Hne].
    + rewrite list_lookup_insert_eq in Hpool' by by eapply lookup_lt_Some.
      injection Hpool' as <-. rewrite (filter_all _ (slice_to pool e)).
      * rewrite <- app_assoc, slice_to_from. by apply Hord.
      * intros i Hi. by eapply Hlab, elem_of_take_in.
    + rewrite list_lookup_insert_ne in Hpool' by done.
      rewrite (filter_none _ (slice_to pool e)).
      * rewrite app_nil_r. by apply Hord.
      * intros i Hi%elem_of_take_in. rewrite (Hlab i Hi). by intros [= ->].
Qed.

Lemma assign_user_ordered {R} `{Arith R} sh labels ns (plan : class_partitions R)
    u st st' :
  u < length st.2 → order_inv sh labels u st →
  assign_user ns plan st u = Ok st' → order_inv sh labels u st'.
Proof.
  unfold assign_user. intros Hu Hinv Hrun. inv_bind Hrun.
  assert (length st'.2 = length st.2 ∧ order_inv sh labels u st') as [_ ?]; [|done].
  eapply (foldM_invariant (λ s, length s.2 = length st.2 ∧ order_inv sh labels u s));
    [|done|exact Hrun].
  intros s cp s' _ [Hlen Hord] Hstep. split.
  - destruct (assign_pools_length _ _ _ _ _ Hstep) as [_ ->]. done.
  - eapply assign_ordered; [|done..]. lia.
Qed.

(** X12: every class is handed out from the front of its shuffled pool, in
    the order of the clients: the indices of class [c] in the lists of the
    clients, read client after client, followed by what is left in the pool
    of [c], are the shuffled pool of [c]. *)
Theorem gen_data_split_front_to_back {R} `{Arith R}
    (d : dataset) (num_users : nat) (plan : class_partitions R) (sh : shuffler)
    (num_classes : nat) (num_samples labels : list nat)
    (data_class_idx user_data_idx : list (list nat)) :
  get_num_classes_samples d = Ok (num_classes, num_samples, labels) →
  gen_data_split_run d num_users plan sh = Ok (data_class_idx, user_data_idx) →
  ∀ c, c < num_classes →
    ∃ pool, data_class_idx !! c = Some pool ∧
      filter (λ i, labels !! i = Some c) (concat user_data_idx) ++ pool
      = sh c (where_eq labels c).
Proof.
  intros Hd Hrun. unfold gen_data_split_run in Hrun. rewrite Hd, bind_Ok_l in Hrun.
  set (st0 := (init_pools sh num_classes labels, replicate num_users ([] : list nat))).
  assert (length (data_class_idx, user_data_idx).1 = num_classes ∧
          length (data_class_idx, user_data_idx).2 = num_users ∧
          order_inv sh labels (length (seq 0 num_users)) (data_class_idx, user_data_idx))
    as (Hlp & _ & _ & Hord).
  { apply (foldM_invariant_at
             (λ k s, length s.1 = num_classes ∧ length s.2 = num_users ∧
                     order_inv sh labels k s)
             (assign_user num_samples plan) (seq 0 num_users) st0); [| |done].
    - intros k u s s' [-> Hk]%lookup_seq (Hl1 & Hl2 & Hord) Hstep. simpl.
      destruct (assign_user_pools_length _ _ _ _ _ Hstep) as [Hl1' Hl2'].
      split_and!; [lia..|].
      simpl in Hstep.
      destruct (assign_user_ordered sh labels num_samples plan k s s')
        as [Hempty Hord']; [lia|done..|].
      split; [|done]. intros v l Hv. apply Hempty. lia.
    - unfold st0. cbn [fst snd].
      split_and!; [apply init_pools_length | apply length_replicate |].
      split; cbn [fst snd].
      + intros v l _ [-> _]%lookup_replicate. done.
      + intros c pool Hpool. rewrite concat_replicate_nil. simpl.
        unfold init_pools in Hpool. rewrite list_lookup_fmap in Hpool.
        destruct (seq 0 num_classes !! c) as [i|] eqn:Hi; [|done].
        apply lookup_seq in Hi as [-> _]. by injection Hpool as <-. }
  intros c Hc. cbn [fst snd] in *.
  destruct (lookup_lt_is_Some_2 data_class_idx c) as [pool Hpool]; [lia|].
  exists pool. split; [done|]. by apply Hord.
Qed.

Lemma gen_data_split_front_to_back_witness :
  ∃ data_class_idx user_data_idx,
    gen_data_split_run test_part 2 plan_by_hand rev_shuffler
      = Ok (data_class_idx, user_data_idx) ∧
    ∀ c, c < 3 →
      ∃ pool, data_class_idx !! c = Some pool ∧
        filter (λ i, [1; 1; 0; 2; 2; 0] !! i = Some c) (concat user_data_idx) ++ pool
        = rev_shuffler c (where_eq [1; 1; 0; 2; 2; 0] c).
Proof.
  eexists _, _. split; [vm_compute; reflexivity|].
  apply (gen_data_split_front_to_back test_part 2 plan_by_hand rev_shuffler
           3 [2; 2; 2] [1; 1; 0; 2; 2; 0]); vm_compute; reflexivity.
Defined.

(** ** The proportions of a class in a generated plan *)

Lemma generated_assigned {R} `{Arith R} d N m (uniform : nat → nat → R) pick
    K ns labels plan :
  get_num_classes_samples d = Ok (K, ns, labels) →
  gen_classes_per_node d N m uniform pick = Ok plan →
  ∀ x, x < K →
    assigned x (schedule plan) = reverse (probs_norm (uniform x <$> seq 0 ((m * N) / K))).
Proof.
  intros Hd [cd Hrun]%gen_classes_per_node_Ok x Hx.
  destruct (gen_classes_per_node_run_final _ _ _ _ _ _ _ _ _ _ Hd Hrun)
    as (HK & Hmod & Hinv & Hprob & Hfin).
  destruct Hinv as (Hlen & _). cbn [fst snd] in *.
  destruct (lookup_lt_is_Some_2 cd x) as [e He]; [lia|].
  destruct (Hprob x e He) as (e0 & [_ ->]%init_class_dict_lookup & Hp).
  destruct (Hfin x e He) as [_ Hnil]. simpl in Hp. rewrite Hnil in Hp. simpl in Hp.
  by rewrite Hp, reverse_involutive.
Qed.

(** ** The three splits together *)

Lemma gen_random_loaders_Ok {R} `{Arith R} train_set val_set test_set N m
    (uniform : nat → nat → R) pick sh0 sh1 sh2 subsets :
  gen_random_loaders (train_set, val_set, test_set) N m uniform pick sh0 sh1 sh2
    = Ok subsets ↔
  ∃ plan train_idx val_idx test_idx,
    gen_classes_per_node train_set N m uniform pick = Ok plan ∧
    gen_data_split train_set N plan sh0 = Ok train_idx ∧
    gen_data_split val_set N plan sh1 = Ok val_idx ∧
    gen_data_split test_set N plan sh2 = Ok test_idx ∧
    subsets = [train_idx; val_idx; test_idx].
Proof.
  unfold gen_random_loaders. split.
  - intros Hrun. inv_bind Hrun. injection Hrun as <-. eauto 10.
  - intros (plan & a & b & c & Hplan & Ha & Hb & Hc & ->).
    by rewrite Hplan, bind_Ok_l, Ha, bind_Ok_l, Hb, bind_Ok_l, Hc, bind_Ok_l.
Qed.

(** X14: when [gen_random_loaders] returns, it returns one list per split,
    each the result of [gen_data_split] on that split with the plan made on
    the training split; each list has [num_users] index lists, and within a
    split no index occurs twice, neither inside a list nor across lists. *)
Theorem gen_random_loaders_partitions_each_split {R} `{Arith R}
    (train_set val_set test_set : dataset) (num_users classes_per_user : nat)
    (uniform : nat → nat → R) (pick : nat → nat → nat) (sh0 sh1 sh2 : shuffler)
    (subsets : list (list (list nat))) :
  gen_random_loaders (train_set, val_set, test_set) num_users classes_per_user
    uniform pick sh0 sh1 sh2 = Ok subsets →
  ∃ cls_partitions,
    gen_classes_per_node train_set num_users classes_per_user uniform pick
      = Ok cls_partitions ∧
    (Ok <$> subsets) = [gen_data_split train_set num_users cls_partitions sh0;
                        gen_data_split val_set num_users cls_partitions sh1;
                        gen_data_split test_set num_users cls_partitions sh2] ∧
    ∀ usr_subset_idx, usr_subset_idx ∈ subsets →
      length usr_subset_idx = num_users ∧ NoDup (concat usr_subset_idx).
Proof.
  intros (plan & a & b & c & Hplan & Ha & Hb & Hc & ->)%gen_random_loaders_Ok.
  exists plan. split; [done|]. split; [by rewrite Ha, Hb, Hc|].
  assert (∀ d sh out, gen_data_split d num_users plan sh = Ok out →
            length out = num_users ∧ NoDup (concat out)) as Hsplit.
  { intros d sh out [pools Hrun]%gen_data_split_Ok.
    destruct (gen_data_split_run_split_inv _ _ _ _ _ Hrun) as [Hlen Hnd].
    split; [done|]. by apply NoDup_app in Hnd as [? _]. }
  intros out Hout. repeat (apply elem_of_cons in Hout as [->|Hout]; [by eauto|]).
  by apply elem_of_nil in Hout.
Qed.

Lemma gen_random_loaders_partitions_each_split_witness :
  ∃ subsets,
    gen_random_loaders (train_part, val_part, test_part) 3 2
      half_draws diagonal_pick id_shuffler rev_shuffler id_shuffler = Ok subsets ∧
  ∃ cls_partitions,
    gen_classes_per_node train_part 3 2 half_draws diagonal_pick = Ok cls_partitions ∧
    (Ok <$> subsets) = [gen_data_split train_part 3 cls_partitions id_shuffler;
                        gen_data_split val_part 3 cls_partitions rev_shuffler;
                        gen_data_split test_part 3 cls_partitions id_shuffler] ∧
    ∀ usr_subset_idx, usr_subset_idx ∈ subsets →
      length usr_subset_idx = 3 ∧ NoDup (concat usr_subset_idx).
Proof.
  eexists. split; [vm_compute; reflexivity|].
  apply (gen_random_loaders_partitions_each_split (R:=Q) train_part val_part test_part
           3 2 half_draws diagonal_pick id_shuffler rev_shuffler id_shuffler).
  vm_compute. reflexivity.
Defined.

(** Every class has a pair in a plan made for at least one client and one
    class per client. *)
Lemma generated_plan_uses_class {R} `{Arith R} d N m (uniform : nat → nat → R) pick
    K ns labels plan :
  get_num_classes_samples d = Ok (K, ns, labels) →
  gen_classes_per_node d N m uniform pick = Ok plan →
  0 < N → 0 < m →
  ∀ c, c < K →
    ∃ u cs ps p, u < N ∧ class plan !! u = Some cs ∧ probs plan !! u = Some ps ∧
                 (c, p) ∈ zip cs ps.
Proof.
  intros Hd [cd Hrun]%gen_classes_per_node_Ok HN Hm c Hc.
  destruct (gen_classes_per_node_run_final _ _ _ _ _ _ _ _ _ _ Hd Hrun)
    as (HK & Hmod & Hinv & _ & Hfin).
  destruct Hinv as (Hlen & _ & _ & Hcl & _ & _ & Hall2 & Hent). cbn [fst snd] in *.
  destruct (lookup_lt_is_Some_2 cd c) as [e He]; [lia|].
  destruct (Hent c e He) as [_ Hocc]. destruct (Hfin c e He) as [Hzero _].
  assert (0 < (m * N) / K) as Hq.
  { pose proof (exact_budget _ _ _ HK Hmod). nia. }
  assert (c ∈ concat (class plan)) as Hin.
  { destruct (decide (c ∈ concat (class plan))) as [|Hnot]; [done|].
    rewrite (occurrences_not_elem _ _ Hnot) in Hocc. lia. }
  apply elem_of_concat in Hin as (cs & Hccs & Hcs).
  apply list_elem_of_lookup in Hcs as [u Hu].
  destruct (Forall2_lookup_l _ _ _ _ _ Hall2 Hu) as (ps & Hps & Hlps).
  apply list_elem_of_lookup in Hccs as [j Hj].
  destruct (lookup_lt_is_Some_2 ps j) as [p Hp].
  { apply lookup_lt_Some in Hj. lia. }
  exists u, cs, ps, p. split_and!; [|done..|].
  - apply lookup_lt_Some in Hu. lia.
  - apply list_elem_of_lookup. exists j. apply lookup_zip_with_Some. eauto.
Qed.

(** X15: the plan is made for the classes of the training split, so a
    validation or test split with fewer distinct labels makes
    [gen_random_loaders] fail (there is no guard: the failure comes from
    [num_samples[c]] in [gen_data_split], or earlier). *)
Theorem gen_random_loaders_needs_every_class {R} `{Arith R}
    (train_set val_set test_set : dataset) (num_users classes_per_user : nat)
    (uniform : nat → nat → R) (pick : nat → nat → nat) (sh0 sh1 sh2 : shuffler)
    (num_classes : nat) (num_samples labels : list nat)
    (d : dataset) (num_classes' : nat) (num_samples' labels' : list nat) :
  get_num_classes_samples train_set = Ok (num_classes, num_samples, labels) →
  0 < num_users → 0 < classes_per_user →
  d = val_set ∨ d = test_set →
  get_num_classes_samples d = Ok (num_classes', num_samples', labels') →
  num_classes' < num_classes →
  raises (gen_random_loaders (train_set, val_set, test_set) num_users classes_per_user
            uniform pick sh0 sh1 sh2).
Proof.
  intros Htrain HN Hm Hwhich Hd Hless. unfold gen_random_loaders.
  destruct (gen_classes_per_node train_set num_users classes_per_user uniform pick)
    as [plan|e] eqn:Hplan; [|by exists e].
  rewrite bind_Ok_l.
  assert (∀ sh, raises (gen_data_split d num_users plan sh)) as Hraise.
  { intros sh. destruct (gen_data_split d num_users plan sh) as [out|e] eqn:Hrun;
      [|by exists e]. exfalso.
    apply gen_data_split_Ok in Hrun as [pools Hrun].
    destruct (generated_plan_uses_class _ _ _ _ _ _ _ _ _ Htrain Hplan HN Hm
                (num_classes - 1)) as (u & cs & ps & p & Hu & Hcs & Hps & Hin); [lia|].
    assert (∃ st, gen_data_split_run d num_users plan sh = Ok st) as Hret by eauto.
    rewrite (gen_data_split_run_returns_iff _ _ _ _ _ _ _ Hd) in Hret.
    destruct (Hret u Hu) as (cs' & ps' & Hcs' & Hps' & Hall). simplify_eq.
    rewrite Forall_forall in Hall. destruct (Hall _ Hin) as (n & k & Hn & _).
    destruct (get_num_classes_samples_sum _ _ _ _ Hd) as [Hlen _].
    apply lookup_lt_Some in Hn. cbn [fst] in Hn. lia. }
  destruct (gen_data_split train_set num_users plan sh0) as [a|e]; [|by exists e].
  rewrite bind_Ok_l. destruct Hwhich as [->| ->].
  - destruct (Hraise sh1) as [e ->]. by exists e.
  - destruct (gen_data_split val_set num_users plan sh1) as [b|e]; [|by exists e].
    rewrite bind_Ok_l. destruct (Hraise sh2) as [e ->]. by exists e.
Qed.

Lemma gen_random_loaders_needs_every_class_witness :
  raises (gen_random_loaders (train_part, Targets [0; 1; 1], test_part) 3 2
            half_draws diagonal_pick id_shuffler rev_shuffler id_shuffler).
Proof.
  apply (gen_random_loaders_needs_every_class (R:=Q) train_part (Targets [0; 1; 1])
           test_part 3 2 half_draws diagonal_pick id_shuffler rev_shuffler id_shuffler
           3 [2; 2; 2] [1; 0; 1; 2; 2; 0] (Targets [0; 1; 1]) 2 [1; 2] [0; 1; 1]).
  - vm_compute. reflexivity.
  - lia.
  - lia.
  - by left.
  - vm_compute. reflexivity.
  - lia.
Defined.

(** ** The CINIC pickles *)

Lemma string_length_append (s t : string) :
  String.length (String.append s t) = String.length s + String.length t.
Proof. induction s as [|a s IH]; [done|]. simpl. by rewrite IH. Qed.

Lemma string_append_inj_r (s s' t : string) :
  String.append s t = String.append s' t → s = s'.
Proof.
  intros Heq.
  assert (String.length s = String.length s') as Hlen.
  { apply (f_equal String.length) in Heq. rewrite !string_length_append in Heq. lia. }
  revert s' Hlen Heq. induction s as [|a s IH]; intros [|a' s'] Hlen Heq; try done.
  simpl in *. injection Heq as -> Heq. f_equal. apply IH; [lia | done].
Qed.

(** X21: the file name determines the array and the split: two calls of
    [get_dataset_split] open a file of the same name only for the same
    split, and never the [x] file of one as the [y] file of the other. *)
Lemma pkl_name_inj (i i' split split' : string) :
  i ∈ ["x"; "y"]%string → i' ∈ ["x"; "y"]%string →
  pkl_name i split = pkl_name i' split' → i = i' ∧ split = split'.
Proof.
  intros Hi Hi' Heq.
  repeat (apply elem_of_cons in Hi as [->|Hi]); [| |by apply elem_of_nil in Hi];
    (repeat (apply elem_of_cons in Hi' as [->|Hi']); [| |by apply elem_of_nil in Hi']);
    unfold pkl_name in Heq; cbn [join String.append] in Heq;
    try discriminate Heq; injection Heq as Heq;
    (split; [done|]); by eapply string_append_inj_r.
Qed.

Lemma pkl_name_inj_witness :
  "x"%string = "x"%string ∧ "train"%string = "train"%string.
Proof.
  apply (pkl_name_inj "x" "x" "train" "train"); [by left | by left | reflexivity].
Defined.

Lemma get_dataset_split_unfold {A D} (load : string → option A)
    (tensor_dataset : A → A → option D) split :
  get_dataset_split load tensor_dataset split =
    match load (pkl_name "x" split) with
    | None => ([pkl_name "x" split], None)
    | Some x =>
        match load (pkl_name "y" split) with
        | None => ([pkl_name "x" split; pkl_name "y" split], None)
        | Some y => ([pkl_name "x" split; pkl_name "y" split], tensor_dataset x y)
        end
    end.
Proof.
  unfold get_dataset_split. cbn [traced_for traced_bind traced_ret fst snd].
  destruct (load (pkl_name "x" split)) as [x|]; [|done].
  cbn [traced_for traced_bind traced_ret fst snd].
  destruct (load (pkl_name "y" split)) as [y|]; [|done].
  cbn [traced_for traced_bind traced_ret fst snd app]. done.
Qed.

(** The case of a step that fails: the log is a prefix, and no value is
    returned. *)
Ltac loaded_before :=
  intros k name Hk Hlt;
  repeat (destruct k as [|k]; [injection Hk as <-; congruence|]);
  simpl in Hlt; lia.

Ltac stopped :=
  cbn [traced_bind traced_ret fst snd app];
  split_and!;
  [by eexists | done | done | loaded_before |
   intros ?; split;
   [done | intros (? & ? & ? & ? & ? & ? & ? & ? & ? & ?); intuition congruence]].

(** X19: [get_cinic_dataset] opens files only from the six
    [x_/y_<split>_dataset.pkl] of the splits train, valid and test, in this
    order and each at most once; every file but the last one opened was
    loaded, so it stops at the first step that fails; it returns exactly when
    the six files load and the three pairs convert, and then the three
    datasets in the order train, valid, test. *)
Theorem get_cinic_dataset_files {A D} (load : string → option A)
    (tensor_dataset : A → A → option D) :
  (get_cinic_dataset load tensor_dataset).1 `prefix_of` cinic_files ∧
  NoDup cinic_files ∧
  ((get_cinic_dataset load tensor_dataset).2 ≠ None →
   (get_cinic_dataset load tensor_dataset).1 = cinic_files) ∧
  (∀ k name, (get_cinic_dataset load tensor_dataset).1 !! k = Some name →
     S k < length (get_cinic_dataset load tensor_dataset).1 → load name ≠ None) ∧
  ∀ datasets,
    (get_cinic_dataset load tensor_dataset).2 = Some datasets ↔
    ∃ x0 y0 x1 y1 x2 y2 d0 d1 d2,
      load "x_train_dataset.pkl"%string = Some x0 ∧
      load "y_train_dataset.pkl"%string = Some y0 ∧
      load "x_valid_dataset.pkl"%string = Some x1 ∧
      load "y_valid_dataset.pkl"%string = Some y1 ∧
      load "x_test_dataset.pkl"%string = Some x2 ∧
      load "y_test_dataset.pkl"%string = Some y2 ∧
      tensor_dataset x0 y0 = Some d0 ∧ tensor_dataset x1 y1 = Some d1 ∧
      tensor_dataset x2 y2 = Some d2 ∧ datasets = [d0; d1; d2].
Proof.
  unfold get_cinic_dataset. cbn [traced_for].
  rewrite !get_dataset_split_unfold.
  change (pkl_name "x" "train") with "x_train_dataset.pkl"%string.
  change (pkl_name "y" "train") with "y_train_dataset.pkl"%string.
  change (pkl_name "x" "valid") with "x_valid_dataset.pkl"%string.
  change (pkl_name "y" "valid") with "y_valid_dataset.pkl"%string.
  change (pkl_name "x" "test") with "x_test_dataset.pkl"%string.
  change (pkl_name "y" "test") with "y_test_dataset.pkl"%string.
  assert (NoDup cinic_files) as Hnd.
  { unfold cinic_files. repeat (apply NoDup_cons; split;
      [rewrite ?elem_of_cons, elem_of_nil; intros Hin;
       repeat (destruct Hin as [Hin|Hin]; [discriminate Hin|]); done|]).
    apply NoDup_nil_2. }
  destruct (load "x_train_dataset.pkl"%string) as [x0|] eqn:Hx0; [|stopped].
  destruct (load "y_train_dataset.pkl"%string) as [y0|] eqn:Hy0; [|stopped].
  destruct (tensor_dataset x0 y0) as [d0|] eqn:Hd0; [|stopped].
  destruct (load "x_valid_dataset.pkl"%string) as [x1|] eqn:Hx1; [|stopped].
  destruct (load "y_valid_dataset.pkl"%string) as [y1|] eqn:Hy1; [|stopped].
  destruct (tensor_dataset x1 y1) as [d1|] eqn:Hd1; [|stopped].
  destruct (load "x_test_dataset.pkl"%string) as [x2|] eqn:Hx2; [|stopped].
  destruct (load "y_test_dataset.pkl"%string) as [y2|] eqn:Hy2; [|stopped].
  destruct (tensor_dataset x2 y2) as [d2|] eqn:Hd2; [|stopped].
  cbn [traced_bind traced_ret fst snd app].
  split_and!; [done..|loaded_before|]. intros datasets. split.
  - intros [= <-]. eauto 20.
  - intros (? & ? & ? & ? & ? & ? & ? & ? & ? & ?). intuition congruence.
Qed.

(** ** The classes of a plan do not depend on the draws *)

Lemma foldM_sim {A S1 S2 B} (g1 : S1 → B) (g2 : S2 → B)
    (f1 : S1 → A → result S1) (f2 : S2 → A → result S2) l :
  (∀ s1 s2 x, g1 s1 = g2 s2 → g1 <$> f1 s1 x = g2 <$> f2 s2 x) →
  ∀ s1 s2, g1 s1 = g2 s2 → g1 <$> foldM f1 s1 l = g2 <$> foldM f2 s2 l.
Proof.
  intros Hstep. induction l as [|x l IH]; intros s1 s2 Hs.
  - simpl. by rewrite Hs.
  - rewrite !foldM_cons. pose proof (Hstep s1 s2 x Hs) as Hx.
    destruct (f1 s1 x) as [t1|e1], (f2 s2 x) as [t2|e2]; try done.
    rewrite !bind_Ok_l. apply IH. by injection Hx.
Qed.

Lemma skeleton_counts {R1 R2} (cd1 : list (class_entry R1)) (cd2 : list (class_entry R2)) :
  skeleton cd1 = skeleton cd2 →
  class_counts cd1 = class_counts cd2 ∧ length cd1 = length cd2.
Proof.
  intros Hsk. split.
  - unfold class_counts.
    change (count <$> cd1) with ((fst ∘ (λ e : class_entry R1, (count e, length (prob e)))) <$> cd1).
    change (count <$> cd2) with ((fst ∘ (λ e : class_entry R2, (count e, length (prob e)))) <$> cd2).
    rewrite !list_fmap_compose. unfold skeleton in Hsk. by rewrite Hsk.
  - apply (f_equal length) in Hsk. unfold skeleton in Hsk.
    by rewrite !length_fmap in Hsk.
Qed.

Lemma skeleton_lookup {R1 R2} (cd1 : list (class_entry R1)) (cd2 : list (class_entry R2)) i :
  skeleton cd1 = skeleton cd2 →
  match cd1 !! i, cd2 !! i with
  | Some e1, Some e2 => count e1 = count e2 ∧ length (prob e1) = length (prob e2)
  | None, None => True
  | _, _ => False
  end.
Proof.
  intros Hsk. apply (f_equal (λ l, l !! i)) in Hsk. unfold skeleton in Hsk.
  rewrite !list_lookup_fmap in Hsk.
  destruct (cd1 !! i), (cd2 !! i); simplify_eq/=; done.
Qed.

Lemma select_sim {R1 R2} (cd1 : list (class_entry R1)) (cd2 : list (class_entry R2)) c r :
  skeleton cd1 = skeleton cd2 →
  (λ st, (skeleton st.1, st.2)) <$> select (cd1, c) r
  = (λ st, (skeleton st.1, st.2)) <$> select (cd2, c) r.
Proof.
  intros Hsk. destruct (skeleton_counts _ _ Hsk) as [Hcc Hlen].
  unfold select, max_class_counts. rewrite Hcc, Hlen.
  destruct (py_max (class_counts cd2)) as [mx|]; [|done]. rewrite !bind_Ok_l.
  destruct (choice r _) as [x|]; [|done]. rewrite !bind_Ok_l.
  cbn [fmap result_fmap fst snd]. do 2 f_equal. unfold skeleton.
  rewrite (list_fmap_alter _ decr (λ kn, ((kn.1 - 1)%Z, kn.2)) cd1);
    [|by apply Forall_forall].
  rewrite (list_fmap_alter _ decr (λ kn, ((kn.1 - 1)%Z, kn.2)) cd2);
    [|by apply Forall_forall].
  unfold skeleton in Hsk. by rewrite Hsk.
Qed.

Lemma pop_prob_sim {R1 R2} (cd1 : list (class_entry R1)) (cd2 : list (class_entry R2)) i :
  skeleton cd1 = skeleton cd2 →
  (λ st, skeleton st.1) <$> pop_prob cd1 i = (λ st, skeleton st.1) <$> pop_prob cd2 i.
Proof.
  intros Hsk. pose proof (skeleton_lookup cd1 cd2 i Hsk) as Hi.
  unfold pop_prob, getitem.
  destruct (cd1 !! i) as [e1|], (cd2 !! i) as [e2|]; try done.
  destruct Hi as [Hcount Hlen]. rewrite !bind_Ok_l.
  rewrite <- (length_reverse (prob e1)), <- (length_reverse (prob e2)) in Hlen.
  destruct (reverse (prob e1)) as [|p1 rest1], (reverse (prob e2)) as [|p2 rest2];
    try done.
  cbn [fmap result_fmap fst]. f_equal. unfold skeleton.
  rewrite !list_fmap_insert. cbn [count prob]. rewrite !length_reverse.
  simpl in Hlen. unfold skeleton in Hsk. rewrite Hsk, Hcount. do 3 f_equal. lia.
Qed.

Lemma pop_probs_sim {R1 R2} c :
  ∀ (cd1 : list (class_entry R1)) (cd2 : list (class_entry R2)),
  skeleton cd1 = skeleton cd2 →
  (λ st, skeleton st.1) <$> pop_probs cd1 c = (λ st, skeleton st.1) <$> pop_probs cd2 c.
Proof.
  induction c as [|i c IH]; intros cd1 cd2 Hsk.
  - simpl. by rewrite Hsk.
  - cbn [pop_probs]. pose proof (pop_prob_sim cd1 cd2 i Hsk) as Hi.
    destruct (pop_prob cd1 i) as [[cd1' p1]|], (pop_prob cd2 i) as [[cd2' p2]|];
      try done.
    injection Hi as Hsk'. rewrite !bind_Ok_l. specialize (IH cd1' cd2' Hsk').
    destruct (pop_probs cd1' c) as [[cd1'' ps1]|], (pop_probs cd2' c) as [[cd2'' ps2]|];
      try done.
Qed.

Lemma client_sim {R1 R2} m pick
    (st1 : list (class_entry R1) * class_partitions R1)
    (st2 : list (class_entry R2) * class_partitions R2) i :
  (skeleton st1.1, class st1.2) = (skeleton st2.1, class st2.2) →
  (λ st, (skeleton st.1, class st.2)) <$> client m pick st1 i
  = (λ st, (skeleton st.1, class st.2)) <$> client m pick st2 i.
Proof.
  destruct st1 as [cd1 parts1], st2 as [cd2 parts2]. cbn [fst snd].
  intros [= Hsk Hcl]. unfold client.
  pose proof (foldM_sim (λ st : list (class_entry R1) * list nat, (skeleton st.1, st.2))
                (λ st : list (class_entry R2) * list nat, (skeleton st.1, st.2))
                select select (pick i <$> seq 0 m)) as Hsel.
  specialize (Hsel (λ s1 s2 r, ltac:(destruct s1, s2; intros [= ? ->]; by apply select_sim))
                (cd1, []) (cd2, [])).
  cbn [fst snd] in Hsel. rewrite Hsk in Hsel. specialize (Hsel eq_refl).
  destruct (foldM select (cd1, []) _) as [[cd1' c1]|],
           (foldM select (cd2, []) _) as [[cd2' c2]|]; try done;
    try (by injection Hsel as ->).
  injection Hsel as Hsk' ->. rewrite !bind_Ok_l.
  pose proof (pop_probs_sim c2 cd1' cd2' Hsk') as Hpop.
  destruct (pop_probs cd1' c2) as [[cd1'' ps1]|], (pop_probs cd2' c2) as [[cd2'' ps2]|];
    try done; try (by injection Hpop as ->).
  injection Hpop as Hsk''. rewrite !bind_Ok_l. cbn [fmap result_fmap fst snd class].
  by rewrite Hsk'', Hcl.
Qed.

Lemma init_class_dict_skeleton {R} `{Arith R} K q (uniform : nat → nat → R) :
  skeleton (init_class_dict K q uniform) = replicate K (Z.of_nat q, q).
Proof.
  unfold skeleton, init_class_dict. rewrite <- list_fmap_compose.
  apply list_eq. intros i. rewrite list_lookup_fmap.
  destruct (decide (i < K)) as [Hi|Hi].
  - rewrite lookup_seq_lt by done. rewrite lookup_replicate_2 by done. simpl.
    by rewrite probs_norm_length, length_fmap, length_seq.
  - rewrite lookup_seq_ge by lia. symmetry. apply lookup_replicate_None. lia.
Qed.

(** X20: which classes each client receives, and whether and how the
    generator fails, depend on the data set only through its number of
    classes and not at all on the draws of the proportions or on the
    arithmetic they are computed in: two runs with the same outcomes of
    [np.random.choice] yield the same class lists. *)
Theorem gen_classes_per_node_classes_independent_of_draws
    {R1} `{Arith R1} {R2} `{Arith R2}
    (d d' : dataset) (num_users classes_per_user : nat)
    (uniform : nat → nat → R1) (uniform' : nat → nat → R2) (pick : nat → nat → nat)
    (num_classes : nat) (num_samples labels num_samples' labels' : list nat) :
  get_num_classes_samples d = Ok (num_classes, num_samples, labels) →
  get_num_classes_samples d' = Ok (num_classes, num_samples', labels') →
  class <$> gen_classes_per_node d num_users classes_per_user uniform pick
  = class <$> gen_classes_per_node d' num_users classes_per_user uniform' pick.
Proof.
  intros Hd Hd'. unfold gen_classes_per_node.
  rewrite (gen_classes_per_node_run_unfold _ _ _ _ _ _ _ _ Hd).
  rewrite (gen_classes_per_node_run_unfold _ _ _ _ _ _ _ _ Hd').
  destruct (decide (num_classes = 0)); [done|]. case_decide; [|done].
  set (q := (classes_per_user * num_users) / num_classes). unfold clients.
  pose proof (foldM_sim
                (λ st : list (class_entry R1) * class_partitions R1,
                   (skeleton st.1, class st.2))
                (λ st : list (class_entry R2) * class_partitions R2,
                   (skeleton st.1, class st.2))
                (client classes_per_user pick) (client classes_per_user pick)
                (seq 0 num_users) (client_sim classes_per_user pick)
                (init_class_dict num_classes q uniform, {| class := []; probs := [] |})
                (init_class_dict num_classes q uniform', {| class := []; probs := [] |}))
    as Hsim.
  cbn [fst snd class] in Hsim. rewrite !init_class_dict_skeleton in Hsim.
  specialize (Hsim eq_refl).
  destruct (foldM _ _ _) as [[cd1 plan1]|], (foldM _ _ _) as [[cd2 plan2]|]; try done.
  - injection Hsim as _ Hcl. simpl. by rewrite Hcl.
  - by injection Hsim as ->.
Qed.

Lemma gen_classes_per_node_classes_independent_of_draws_witness :
  class <$> gen_classes_per_node fourteen 2 2 half_draws diagonal_pick
  = class <$> gen_classes_per_node (Targets [1; 0; 1]) 2 2 two_draws diagonal_pick.
Proof.
  apply (gen_classes_per_node_classes_independent_of_draws fourteen (Targets [1; 0; 1])
           2 2 half_draws two_draws diagonal_pick 2 [7; 7]
           [0; 1; 0; 1; 0; 1; 0; 1; 0; 1; 0; 1; 0; 1] [1; 2] [1; 0; 1]);
    vm_compute; reflexivity.
Defined.

(** * The arithmetic of the code: rounding *)

(** The operations on doubles are those of the primitive floats, specified
    by [SpecFloat]: the exact result is aligned or shifted, and rounded to
    the nearest double, to the even one on a tie.  For positive normal
    doubles and an exact result between [2^-1000] and [2^1000], the result is
    a positive normal double within a relative error of [2^-53]; this is
    proved here for [*], [+], [/] and the conversion of a count, and carried
    through the normalisation of the draws and the products
    [num_samples[c] * p]. *)

(** ** Powers of two *)

Lemma pow2_pos z : (0 < pow2 z)%Q.
Proof. apply Qpower_0_lt. reflexivity. Qed.

Lemma pow2_add a b : (pow2 (a + b) == pow2 a * pow2 b)%Q.
Proof. apply Qpower_plus. discriminate. Qed.

Lemma pow2_le a b : (a ≤ b)%Z → (pow2 a <= pow2 b)%Q.
Proof. intros. apply Qpower_le_compat_l; [done|]. discriminate. Qed.

Lemma pow2_lt a b : (a < b)%Z → (pow2 a < pow2 b)%Q.
Proof. intros. apply Qpower_lt_compat_l; [done|]. reflexivity. Qed.

Lemma pow2_le_inv a b : (pow2 a <= pow2 b)%Q → (a ≤ b)%Z.
Proof. intros. eapply Qpower_le_compat_l_inv; [done|]. reflexivity. Qed.

Lemma pow2_lt_inv a b : (pow2 a < pow2 b)%Q → (a < b)%Z.
Proof. intros. eapply Qpower_lt_compat_l_inv; [done|]. reflexivity. Qed.

Lemma pow2_Z n : (0 ≤ n)%Z → (inject_Z (2 ^ n) == pow2 n)%Q.
Proof. intros. by apply Zpower_Qpower. Qed.

Lemma pow2_opp a : (pow2 (- a) * pow2 a == 1)%Q.
Proof. rewrite <- pow2_add. replace (- a + a)%Z with 0%Z by lia. reflexivity. Qed.

(** ** Right shifts and the digits they drop *)

Lemma loc_sem_ext t t' m l : (t == t')%Q → loc_sem t m l → loc_sem t' m l.
Proof. intros Ht. destruct l as [|[]]; simpl; rewrite Ht; done. Qed.

Lemma loc_sem_bounds t m l :
  loc_sem t m l → (inject_Z m <= t)%Q ∧ (t < inject_Z m + 1)%Q.
Proof. destruct l as [|[]]; simpl; intros; lra. Qed.

Lemma inject_Z_xO p : (inject_Z (Z.pos p~0) == 2 * inject_Z (Z.pos p))%Q.
Proof. rewrite Pos2Z.inj_xO, inject_Z_mult. reflexivity. Qed.

Lemma inject_Z_xI p : (inject_Z (Z.pos p~1) == 2 * inject_Z (Z.pos p) + 1)%Q.
Proof. rewrite Pos2Z.inj_xI, inject_Z_plus, inject_Z_mult. reflexivity. Qed.

Lemma shr_1_sem t mrs :
  (0 ≤ shr_m mrs)%Z → rec_sem t mrs →
  rec_sem (t * (1#2)) (shr_1 mrs) ∧ (0 ≤ shr_m (shr_1 mrs))%Z.
Proof.
  destruct mrs as [m r s]. unfold rec_sem. simpl shr_m at 1 2.
  intros Hm Hsem.
  destruct m as [|[p|p|]|p]; [| | | |lia];
    destruct r, s; simpl in *;
    rewrite ?inject_Z_xO, ?inject_Z_xI in Hsem;
    (split; [|lia]);
    change (inject_Z 1) with 1%Q in *; change (inject_Z 0) with 0%Q in *; lra.
Qed.

Lemma iter_pos_shr_1_sem p : ∀ t t' mrs,
  (0 ≤ shr_m mrs)%Z → rec_sem t mrs → (t' == t * pow2 (Z.neg p))%Q →
  rec_sem t' (SpecFloat.iter_pos shr_1 p mrs) ∧ (0 ≤ shr_m (SpecFloat.iter_pos shr_1 p mrs))%Z.
Proof.
  induction p as [p IH|p IH|]; intros t t' mrs Hm Hsem Ht; simpl.
  - destruct (shr_1_sem t mrs Hm Hsem) as [H1 Hm1].
    destruct (IH _ (t * (1#2) * pow2 (Z.neg p))%Q _ Hm1 H1) as [H2 Hm2]; [reflexivity|].
    apply (IH _ _ _ Hm2 H2). rewrite Ht.
    replace (Z.neg p~1) with (-1 + (Z.neg p + Z.neg p))%Z by lia.
    rewrite !pow2_add. change (pow2 (-1)) with (1#2)%Q. ring.
  - destruct (IH _ (t * pow2 (Z.neg p))%Q _ Hm Hsem) as [H2 Hm2]; [reflexivity|].
    apply (IH _ _ _ Hm2 H2). rewrite Ht.
    replace (Z.neg p~0) with (Z.neg p + Z.neg p)%Z by lia.
    rewrite !pow2_add. ring.
  - destruct (shr_1_sem t mrs Hm Hsem) as [H1 Hm1]. split; [|done].
    eapply loc_sem_ext; [|exact H1]. rewrite Ht. change (pow2 (-1)) with (1#2)%Q. ring.
Qed.

Lemma shr_sem t mrs e n :
  (0 ≤ n)%Z → (0 ≤ shr_m mrs)%Z → rec_sem t mrs →
  (shr mrs e n).2 = (e + n)%Z ∧
  rec_sem (t * pow2 (- n)) (shr mrs e n).1 ∧ (0 ≤ shr_m (shr mrs e n).1)%Z.
Proof.
  intros Hn Hm Hsem. destruct n as [|p|p]; [| |lia]; simpl.
  - split; [lia|]. split; [|done]. eapply loc_sem_ext; [|exact Hsem].
    change (pow2 0) with 1%Q. ring.
  - split; [done|]. by eapply iter_pos_shr_1_sem.
Qed.

Lemma loc_of_shr_record_of_loc m l :
  loc_of_shr_record (shr_record_of_loc m l) = l ∧ shr_m (shr_record_of_loc m l) = m.
Proof. by destruct l as [|[]]. Qed.

(** ** Rounding to the nearest double *)

(** Rounding a mantissa with dropped digits moves it by at most one half. *)
Lemma round_nearest_even_sem t m l :
  loc_sem t m l →
  (inject_Z (round_nearest_even m l) - (1#2) <= t)%Q ∧
  (t <= inject_Z (round_nearest_even m l) + (1#2))%Q ∧
  (m ≤ round_nearest_even m l ≤ m + 1)%Z.
Proof.
  destruct l as [|[]]; simpl; intros Hsem.
  - split_and!; try lra; lia.
  - destruct (Z.even m); [split_and!; try lra; lia|].
    rewrite inject_Z_plus. change (inject_Z 1) with 1%Q. split_and!; try lra; lia.
  - split_and!; try lra; lia.
  - rewrite inject_Z_plus. change (inject_Z 1) with 1%Q. split_and!; try lra; lia.
Qed.

Lemma digits2_pos_bounds m :
  (2 ^ (Z.pos (digits2_pos m) - 1) ≤ Z.pos m < 2 ^ Z.pos (digits2_pos m))%Z.
Proof.
  induction m as [m IH|m IH|]; simpl digits2_pos.
  - rewrite Pos2Z.inj_succ. replace (Z.succ (Z.pos (digits2_pos m)) - 1)%Z
      with (Z.succ (Z.pos (digits2_pos m) - 1)) by lia.
    rewrite !Z.pow_succ_r by lia. lia.
  - rewrite Pos2Z.inj_succ. replace (Z.succ (Z.pos (digits2_pos m)) - 1)%Z
      with (Z.succ (Z.pos (digits2_pos m) - 1)) by lia.
    rewrite !Z.pow_succ_r by lia. lia.
  - simpl. lia.
Qed.

Lemma digits2_pos_unique m k :
  (2 ^ (k - 1) ≤ Z.pos m < 2 ^ k)%Z → (0 < k)%Z → Z.pos (digits2_pos m) = k.
Proof.
  intros [Hlo Hhi] Hk. pose proof (digits2_pos_bounds m) as [Hlo' Hhi'].
  assert (Z.pos (digits2_pos m) - 1 < k)%Z.
  { apply (Z.pow_lt_mono_r_iff 2); lia. }
  assert (k - 1 < Z.pos (digits2_pos m))%Z.
  { apply (Z.pow_lt_mono_r_iff 2); lia. }
  lia.
Qed.

Lemma inject_Z_lt_succ (a b : Z) : (inject_Z a < inject_Z b + 1)%Q → (a ≤ b)%Z.
Proof.
  change 1%Q with (inject_Z 1). rewrite <- inject_Z_plus, <- Zlt_Qlt. lia.
Qed.

(** The second normalisation of [binary_round_aux]: a mantissa of 53 bits
    is kept, the mantissa [2^53] becomes [2^52] with the next exponent. *)
Lemma shr_fexp_exact m e :
  (2 ^ 52 ≤ m ≤ 2 ^ 53)%Z → (-1074 ≤ e)%Z →
  ∃ m' e', shr_fexp prec emax m e loc_Exact = (Build_shr_record (Z.pos m') false false, e') ∧
    (2 ^ 52 ≤ Z.pos m' < 2 ^ 53)%Z ∧ (e ≤ e' ≤ e + 1)%Z ∧
    (inject_Z (Z.pos m') * pow2 e' == inject_Z m * pow2 e)%Q.
Proof.
  intros [Hlo Hhi] He. destruct (decide (m = 2 ^ 53)%Z) as [->|Hne].
  - exists (2 ^ 52)%positive, (e + 1)%Z. unfold shr_fexp.
    change (Zdigits2 (2 ^ 53)) with 54%Z. unfold fexp, emin, prec, emax.
    replace (Z.max (54 + e - 53) (3 - 1024 - 53) - e)%Z with 1%Z by lia.
    split; [reflexivity|]. split; [lia|]. split; [lia|].
    rewrite pow2_add. change (pow2 1) with 2%Q.
    change (inject_Z (Z.pos (2 ^ 52))) with (inject_Z (2 ^ 52)).
    change (inject_Z (2 ^ 53)) with (2 * inject_Z (2 ^ 52))%Q. ring.
  - destruct m as [|mp|mp]; [lia| |lia]. exists mp, e. unfold shr_fexp.
    simpl Zdigits2. rewrite (digits2_pos_unique mp 53) by lia.
    unfold fexp, emin, prec, emax.
    replace (Z.max (53 + e - 53) (3 - 1024 - 53) - e)%Z with 0%Z by lia.
    split; [reflexivity|]. split; [lia|]. split; [lia|]. reflexivity.
Qed.

(** [binary_round_aux] on a value [v = t0 * 2^e] whose integer part [m] has
    at least 53 bits: a normal double within [2^-53 * v] of [v]. *)
Lemma round_aux_bound sx m e l v t0 :
  loc_sem t0 m l → (v == t0 * pow2 e)%Q → (pow2 52 <= t0)%Q →
  (pow2 (-1000) <= v)%Q → (v <= pow2 1000)%Q →
  ∃ m' e', binary_round_aux prec emax sx m e l = S754_finite sx m' e' ∧
    (2 ^ 52 ≤ Z.pos m' < 2 ^ 53)%Z ∧
    ((1 - u53) * v <= inject_Z (Z.pos m') * pow2 e')%Q ∧
    (inject_Z (Z.pos m') * pow2 e' <= (1 + u53) * v)%Q.
Proof.
  intros Hsem Hv Ht0 Hvlo Hvhi.
  destruct (loc_sem_bounds _ _ _ Hsem) as [Hmt Htm].
  assert (2 ^ 52 ≤ m)%Z as Hm52.
  { apply inject_Z_lt_succ. rewrite (pow2_Z 52) by lia. lra. }
  destruct m as [|mp|mp]; [lia| |lia].
  set (d := Z.pos (digits2_pos mp)).
  pose proof (digits2_pos_bounds mp) as [Hdlo Hdhi]. fold d in Hdlo, Hdhi.
  assert (53 ≤ d)%Z as Hd53.
  { assert (52 < d)%Z; [|lia]. apply (Z.pow_lt_mono_r_iff 2); lia. }
  assert (pow2 (d - 1) <= t0)%Q as Ht0lo.
  { rewrite <- pow2_Z by lia. rewrite Zle_Qle in Hdlo. lra. }
  assert (t0 < pow2 d)%Q as Ht0hi.
  { rewrite <- pow2_Z by lia.
    assert (Z.pos mp + 1 ≤ 2 ^ d)%Z as Hle by lia. rewrite Zle_Qle in Hle.
    rewrite inject_Z_plus in Hle. change (inject_Z 1) with 1%Q in Hle. lra. }
  pose proof (pow2_pos e) as Hpe.
  assert (pow2 (d - 1 + e) <= v)%Q as Hvd.
  { rewrite Hv, pow2_add. apply Qmult_le_compat_r; [done | lra]. }
  assert (v < pow2 (d + e))%Q as Hvd'.
  { rewrite Hv, pow2_add. apply Qmult_lt_compat_r; done. }
  assert (d - 1 + e ≤ 1000)%Z as Hde1 by (apply pow2_le_inv; lra).
  assert (-1000 < d + e)%Z as Hde2 by (apply pow2_lt_inv; lra).
  unfold binary_round_aux.
  destruct (shr_fexp prec emax (Z.pos mp) e l) as [mrs1 e1] eqn:Hshr1.
  unfold shr_fexp in Hshr1. simpl Zdigits2 in Hshr1. fold d in Hshr1.
  unfold fexp, emin, prec, emax in Hshr1.
  replace (Z.max (d + e - 53) (3 - 1024 - 53) - e)%Z with (d - 53)%Z in Hshr1 by lia.
  destruct (loc_of_shr_record_of_loc (Z.pos mp) l) as [Hloc Hshm].
  destruct (shr_sem t0 (shr_record_of_loc (Z.pos mp) l) e (d - 53))
    as (He1 & Hsem1 & Hm1); [lia | rewrite Hshm; lia | |].
  { unfold rec_sem. by rewrite Hloc, Hshm. }
  rewrite Hshr1 in He1, Hsem1, Hm1. cbn [fst snd] in He1, Hsem1, Hm1.
  set (t1 := (t0 * pow2 (- (d - 53)))%Q) in *.
  set (m1 := shr_m mrs1) in *. unfold rec_sem in Hsem1. fold m1 in Hsem1.
  set (l1 := loc_of_shr_record mrs1) in *.
  pose proof (pow2_pos (- (d - 53))) as Hpn.
  assert (pow2 52 <= t1)%Q as Ht1lo.
  { unfold t1. replace 52%Z with ((d - 1) + - (d - 53))%Z by lia.
    rewrite pow2_add. apply Qmult_le_compat_r; [done | lra]. }
  assert (t1 < pow2 53)%Q as Ht1hi.
  { unfold t1. replace 53%Z with (d + - (d - 53))%Z at 2 by lia.
    rewrite pow2_add. apply Qmult_lt_compat_r; done. }
  destruct (loc_sem_bounds _ _ _ Hsem1) as [Hm1t Htm1].
  destruct (round_nearest_even_sem _ _ _ Hsem1) as (Hr1 & Hr2 & Hr3).
  set (m2 := round_nearest_even m1 l1) in *.
  assert (2 ^ 52 ≤ m1 < 2 ^ 53)%Z as Hm1b.
  { split.
    - apply inject_Z_lt_succ. rewrite (pow2_Z 52) by lia. lra.
    - rewrite Zlt_Qlt, (pow2_Z 53) by lia. lra. }
  destruct (shr_fexp_exact m2 e1) as (m' & e' & -> & Hm' & He' & Hval); [lia | lia |].
  cbn [shr_m]. exists m', e'.
  assert ((e' <=? emax - prec)%Z = true) as -> by (apply Z.leb_le; unfold emax, prec; lia).
  split; [done|]. split; [done|].
  rewrite Hval.
  assert (v == t1 * pow2 e1)%Q as Hv1.
  { rewrite Hv. unfold t1. rewrite He1. rewrite (pow2_add e (d - 53)).
    rewrite <- (Qmult_1_r (t0 * pow2 e)) at 1.
    rewrite <- (pow2_opp (d - 53)). ring. }
  pose proof (pow2_pos e1) as Hpe1.
  assert (u53 * pow2 52 == 1 # 2)%Q as Hu.
  { unfold u53. rewrite <- pow2_add. reflexivity. }
  assert ((1#2) <= u53 * t1)%Q as Hut.
  { rewrite <- Hu. apply Qmult_le_l; [apply pow2_pos | done]. }
  rewrite Hv1. split.
  - assert (0 <= (inject_Z m2 - (1 - u53) * t1) * pow2 e1)%Q; [|lra].
    apply Qmult_le_0_compat; lra.
  - assert (0 <= ((1 + u53) * t1 - inject_Z m2) * pow2 e1)%Q; [|lra].
    apply Qmult_le_0_compat; lra.
Qed.

(** ** Alignment and [binary_round] *)

Lemma pos_iter_xO m d : Z.pos (Pos.iter xO m d) = (Z.pos m * 2 ^ Z.pos d)%Z.
Proof.
  induction d as [|d IH] using Pos.peano_ind.
  - simpl. lia.
  - rewrite Pos.iter_succ, Pos2Z.inj_xO, IH, Pos2Z.inj_succ, Z.pow_succ_r by lia. lia.
Qed.

Lemma shl_align_le mx ex ez :
  (ez ≤ ex)%Z →
  Z.pos (shl_align mx ex ez).1 = (Z.pos mx * 2 ^ (ex - ez))%Z ∧ (shl_align mx ex ez).2 = ez.
Proof.
  intros Hle. unfold shl_align. destruct (ez - ex)%Z as [|k|k] eqn:Hk; [|lia|].
  - assert (ex = ez) as -> by lia. rewrite Z.sub_diag. simpl. split; [lia | done].
  - simpl. rewrite pos_iter_xO. replace (ex - ez)%Z with (Z.pos k) by lia. done.
Qed.

Lemma shl_align_ge mx ex ez : (ex ≤ ez)%Z → shl_align mx ex ez = (mx, ex).
Proof. intros Hle. unfold shl_align. destruct (ez - ex)%Z eqn:Hk; [done | done | lia]. Qed.

Lemma inject_pow2_mul m k e :
  (0 ≤ k)%Z → (inject_Z (m * 2 ^ k) * pow2 (e - k) == inject_Z m * pow2 e)%Q.
Proof.
  intros Hk. rewrite inject_Z_mult, (pow2_Z k) by done.
  replace e with ((e - k) + k)%Z at 2 by lia. rewrite (pow2_add (e - k) k). ring.
Qed.

(** [binary_round] on the exact value [mx * 2^ex]. *)
Lemma binary_round_bound sx mx ex v :
  (v == inject_Z (Z.pos mx) * pow2 ex)%Q →
  (pow2 (-1000) <= v)%Q → (v <= pow2 1000)%Q →
  ∃ m' e', binary_round prec emax sx mx ex = S754_finite sx m' e' ∧
    (2 ^ 52 ≤ Z.pos m' < 2 ^ 53)%Z ∧
    ((1 - u53) * v <= inject_Z (Z.pos m') * pow2 e')%Q ∧
    (inject_Z (Z.pos m') * pow2 e' <= (1 + u53) * v)%Q.
Proof.
  intros Hv Hvlo Hvhi. unfold binary_round.
  set (d := Z.pos (digits2_pos mx)).
  pose proof (digits2_pos_bounds mx) as [Hdlo Hdhi]. fold d in Hdlo, Hdhi.
  assert (0 < d)%Z as Hdpos by (unfold d; lia).
  pose proof (pow2_pos ex) as Hpe.
  assert (pow2 (d - 1 + ex) <= v)%Q as Hvd.
  { rewrite Hv, pow2_add. apply Qmult_le_compat_r; [|lra].
    rewrite <- pow2_Z by lia. by rewrite <- Zle_Qle. }
  assert (v < pow2 (d + ex))%Q as Hvd'.
  { rewrite Hv, pow2_add. apply Qmult_lt_compat_r; [done|].
    rewrite <- pow2_Z by lia. by rewrite <- Zlt_Qlt. }
  assert (d - 1 + ex ≤ 1000)%Z as Hde1 by (apply pow2_le_inv; lra).
  assert (-1000 < d + ex)%Z as Hde2 by (apply pow2_lt_inv; lra).
  unfold fexp, emin, prec, emax.
  replace (Z.max (d + ex - 53) (3 - 1024 - 53))%Z with (d + ex - 53)%Z by lia.
  destruct (shl_align mx ex (d + ex - 53)) as [mz ez] eqn:Halign.
  destruct (decide (d < 53)%Z) as [Hlt|Hge].
  - destruct (shl_align_le mx ex (d + ex - 53)) as [Hmz Hez]; [lia|].
    rewrite Halign in Hmz, Hez. cbn [fst snd] in Hmz, Hez. subst ez.
    replace (ex - (d + ex - 53))%Z with (53 - d)%Z in Hmz by lia.
    apply (round_aux_bound sx (Z.pos mz) (d + ex - 53) loc_Exact v (inject_Z (Z.pos mz)));
      [reflexivity | | | done..].
    + rewrite Hv, Hmz. replace (d + ex - 53)%Z with (ex - (53 - d))%Z by lia.
      by rewrite inject_pow2_mul by lia.
    + rewrite <- pow2_Z by lia. rewrite <- Zle_Qle, Hmz.
      replace 52%Z with ((d - 1) + (53 - d))%Z at 1 by lia.
      rewrite Z.pow_add_r by lia. apply Z.mul_le_mono_nonneg_r; lia.
  - rewrite shl_align_ge in Halign by lia. injection Halign as <- <-.
    apply (round_aux_bound sx (Z.pos mx) ex loc_Exact v (inject_Z (Z.pos mx)));
      [reflexivity | done | | done..].
    rewrite <- pow2_Z by lia. rewrite <- Zle_Qle.
    assert (2 ^ 52 ≤ 2 ^ (d - 1))%Z; [|lia]. apply Z.pow_le_mono_r; lia.
Qed.

(** ** Positive normal doubles *)

Lemma normal_pos_pos x a : normal_pos x a → (0 < a)%Q.
Proof.
  intros (m & e & _ & _ & ->). apply Qmult_lt_0_compat; [|apply pow2_pos].
  change 0%Q with (inject_Z 0). rewrite <- Zlt_Qlt. lia.
Qed.

(** The product and the sum of two positive normal doubles. *)
Lemma mul_normal_pos x y a b :
  normal_pos x a → normal_pos y b →
  (pow2 (-1000) <= a * b)%Q → (a * b <= pow2 1000)%Q →
  ∃ r, normal_pos (x * y)%float r ∧
       ((1 - u53) * (a * b) <= r)%Q ∧ (r <= (1 + u53) * (a * b))%Q.
Proof.
  intros (mx & ex & Hx & Hmx & Ha) (my & ey & Hy & Hmy & Hb) Hlo Hhi.
  destruct (round_aux_bound false (Z.pos (mx * my)) (ex + ey) loc_Exact (a * b)
              (inject_Z (Z.pos (mx * my)))) as (m' & e' & Hr & Hm' & H1 & H2);
    [reflexivity | | | done | done |].
  - rewrite Ha, Hb, Pos2Z.inj_mul, inject_Z_mult, pow2_add. ring.
  - rewrite <- pow2_Z by lia. rewrite <- Zle_Qle, Pos2Z.inj_mul. nia.
  - exists (inject_Z (Z.pos m') * pow2 e')%Q. split; [|done].
    exists m', e'. split; [|done].
    rewrite FloatAxioms.mul_spec, Hx, Hy. exact Hr.
Qed.

Lemma add_normal_pos x y a b :
  normal_pos x a → normal_pos y b →
  (pow2 (-1000) <= a + b)%Q → (a + b <= pow2 1000)%Q →
  ∃ r, normal_pos (x + y)%float r ∧
       ((1 - u53) * (a + b) <= r)%Q ∧ (r <= (1 + u53) * (a + b))%Q.
Proof.
  intros (mx & ex & Hx & Hmx & Ha) (my & ey & Hy & Hmy & Hb) Hlo Hhi.
  set (ez := Z.min ex ey).
  destruct (shl_align_le mx ex ez) as [Hax _]; [unfold ez; lia|].
  destruct (shl_align_le my ey ez) as [Hay _]; [unfold ez; lia|].
  assert (Prim2SF (x + y)%float
          = binary_normalize prec emax
              (Z.pos (shl_align mx ex ez).1 + Z.pos (shl_align my ey ez).1) ez false) as Hsum.
  { rewrite FloatAxioms.add_spec, Hx, Hy. reflexivity. }
  destruct (Z.pos (shl_align mx ex ez).1 + Z.pos (shl_align my ey ez).1)%Z
    as [|M|M] eqn:HM; [lia| |lia].
  destruct (binary_round_bound false M ez (a + b)) as (m' & e' & Hr & Hm' & H1 & H2);
    [|done|done|].
  - rewrite <- HM, Hax, Hay, inject_Z_plus, Ha, Hb.
    rewrite <- (inject_pow2_mul (Z.pos mx) (ex - ez) ex) by (unfold ez; lia).
    rewrite <- (inject_pow2_mul (Z.pos my) (ey - ez) ey) by (unfold ez; lia).
    replace (ex - (ex - ez))%Z with ez by lia.
    replace (ey - (ey - ez))%Z with ez by lia. ring.
  - exists (inject_Z (Z.pos m') * pow2 e')%Q. split; [|done].
    exists m', e'. split; [|done]. rewrite Hsum. exact Hr.
Qed.

(** ** Division *)

Lemma new_location_sem n q r m' :
  (0 < n)%Z → m' = (n * q + r)%Z → (0 ≤ r < n)%Z →
  loc_sem (inject_Z m' / inject_Z n) q (new_location n r).
Proof.
  intros Hn -> Hr.
  assert (0 < inject_Z n)%Q as HN.
  { change 0%Q with (inject_Z 0). by rewrite <- Zlt_Qlt. }
  assert (inject_Z (n * q + r) / inject_Z n == inject_Z q + inject_Z r / inject_Z n)%Q as Ht.
  { rewrite inject_Z_plus, inject_Z_mult. field. lra. }
  assert (∀ c : Q, (2 * r < n)%Z → (inject_Z r / inject_Z n < 1 # 2)%Q) as Hlt.
  { intros _ H. apply Qlt_shift_div_r; [done|]. rewrite Zlt_Qlt in H.
    rewrite inject_Z_mult in H. change (inject_Z 2) with 2%Q in H. lra. }
  assert (∀ c : Q, (n < 2 * r)%Z → ((1 # 2) < inject_Z r / inject_Z n)%Q) as Hgt.
  { intros _ H. apply Qlt_shift_div_l; [done|]. rewrite Zlt_Qlt in H.
    rewrite inject_Z_mult in H. change (inject_Z 2) with 2%Q in H. lra. }
  assert ((0 < r)%Z → (0 < inject_Z r / inject_Z n)%Q) as Hpos.
  { intros H. apply Qlt_shift_div_l; [done|]. rewrite Zlt_Qlt in H.
    change (inject_Z 0) with 0%Q in H. lra. }
  assert (inject_Z r / inject_Z n < 1)%Q as Hone.
  { apply Qlt_shift_div_r; [done|]. destruct Hr as [_ H]. rewrite Zlt_Qlt in H. lra. }
  eapply loc_sem_ext; [symmetry; exact Ht|].
  unfold new_location, new_location_even, new_location_odd.
  destruct (decide (r = 0%Z)) as [->|Hr0].
  { destruct (Z.even n); simpl; unfold Qdiv; change (inject_Z 0) with 0%Q; ring. }
  assert ((r =? 0)%Z = false) as Hrb by by apply Z.eqb_neq.
  destruct (Z.even n) eqn:Heven; unfold new_location_even, new_location_odd; rewrite Hrb.
  - destruct (Z.compare_spec (2 * r) n) as [Heq|Hc|Hc]; simpl.
    + assert (inject_Z r / inject_Z n == 1 # 2)%Q as Hhalf; [|lra].
      rewrite <- Heq, inject_Z_mult. change (inject_Z 2) with 2%Q. field.
      assert (0 < inject_Z r)%Q; [|lra].
      change 0%Q with (inject_Z 0). rewrite <- Zlt_Qlt. lia.
    + specialize (Hlt 0%Q Hc). assert (0 < r)%Z as H0 by lia. specialize (Hpos H0). lra.
    + specialize (Hgt 0%Q Hc). lra.
  - assert (Z.odd n = true) as Hodd by (rewrite <- Z.negb_even, Heven; done).
    apply Z.odd_spec in Hodd as [k Hk].
    destruct (Z.compare_spec (2 * r + 1) n) as [Heq|Hc|Hc]; simpl.
    + assert (2 * r < n)%Z as H by lia. specialize (Hlt 0%Q H).
      assert (0 < r)%Z as H0 by lia. specialize (Hpos H0). lra.
    + assert (2 * r < n)%Z as H by lia. specialize (Hlt 0%Q H).
      assert (0 < r)%Z as H0 by lia. specialize (Hpos H0). lra.
    + assert (n < 2 * r)%Z as H by lia. specialize (Hgt 0%Q H). lra.
Qed.

(** The quotient of two positive normal doubles. *)
Lemma div_normal_pos x y a b :
  normal_pos x a → normal_pos y b →
  (pow2 (-1000) <= a / b)%Q → (a / b <= pow2 1000)%Q →
  ∃ r, normal_pos (x / y)%float r ∧
       ((1 - u53) * (a / b) <= r)%Q ∧ (r <= (1 + u53) * (a / b))%Q.
Proof.
  intros (mx & ex & Hx & Hmx & Ha) (my & ey & Hy & Hmy & Hb) Hlo Hhi.
  pose proof (pow2_pos ex) as Hpex. pose proof (pow2_pos ey) as Hpey.
  assert (0 < inject_Z (Z.pos my))%Q as HMy.
  { change 0%Q with (inject_Z 0). by rewrite <- Zlt_Qlt. }
  assert (0 < inject_Z (Z.pos mx))%Q as HMx.
  { change 0%Q with (inject_Z 0). by rewrite <- Zlt_Qlt. }
  assert (0 < b)%Q as Hbpos by (rewrite Hb; by apply Qmult_lt_0_compat).
  (* the quotient as a scaled value *)
  set (t0 := (inject_Z (Z.pos mx * 2 ^ 53) / inject_Z (Z.pos my))%Q).
  assert (a / b == t0 * pow2 (ex - ey - 53))%Q as Hv.
  { unfold t0. rewrite Ha, Hb, inject_Z_mult, (pow2_Z 53) by lia.
    replace ex with ((ex - ey - 53) + 53 + ey)%Z at 1 by lia.
    rewrite !pow2_add. field. split; lra. }
  assert (pow2 52 <= t0)%Q as Ht0.
  { unfold t0. apply Qle_shift_div_l; [done|].
    rewrite <- pow2_Z by lia. rewrite <- inject_Z_mult, <- Zle_Qle. nia. }
  assert (t0 < pow2 54)%Q as Ht0hi.
  { unfold t0. apply Qlt_shift_div_r; [done|].
    rewrite <- pow2_Z by lia. rewrite <- inject_Z_mult, <- Zlt_Qlt. nia. }
  assert (-1000 < 54 + (ex - ey - 53))%Z as Hexp.
  { apply pow2_lt_inv. rewrite pow2_add.
    assert (t0 * pow2 (ex - ey - 53) < pow2 54 * pow2 (ex - ey - 53))%Q; [|lra].
    apply Qmult_lt_compat_r; [apply pow2_pos | done]. }
  assert (Prim2SF (x / y)%float
          = binary_round_aux prec emax false (Z.pos mx * 2 ^ 53 / Z.pos my)
              (ex - ey - 53)
              (new_location (Z.pos my) ((Z.pos mx * 2 ^ 53) mod Z.pos my))) as Hq.
  { rewrite FloatAxioms.div_spec, Hx, Hy. unfold SF64div, SFdiv, SFdiv_core_binary.
    simpl Zdigits2. rewrite (digits2_pos_unique mx 53), (digits2_pos_unique my 53) by lia.
    unfold fexp, emin, prec, emax.
    replace (Z.min (Z.max (53 + ex - (53 + ey) - 53) (3 - 1024 - 53)) (ex - ey))%Z
      with (ex - ey - 53)%Z by lia.
    replace (ex - ey - (ex - ey - 53))%Z with 53%Z by lia.
    rewrite Z.shiftl_mul_pow2 by lia.
    unfold Z.div, Z.modulo.
    destruct (Z.div_eucl (Z.pos mx * 2 ^ 53) (Z.pos my)) as [q r]. reflexivity. }
  destruct (round_aux_bound false (Z.pos mx * 2 ^ 53 / Z.pos my) (ex - ey - 53)
              (new_location (Z.pos my) ((Z.pos mx * 2 ^ 53) mod Z.pos my))
              (a / b) t0) as (m' & e' & Hr & Hm' & H1 & H2); [|done..|].
  - apply new_location_sem; [lia | | apply Z.mod_pos_bound; lia].
    apply Z.div_mod. lia.
  - exists (inject_Z (Z.pos m') * pow2 e')%Q. split; [|done].
    exists m', e'. split; [|done]. rewrite Hq. exact Hr.
Qed.

(** ** Counts, [int] and values *)

(** A count converted to a double. *)
Lemma count_normal_pos (n : nat) :
  0 < n → (Z.of_nat n < 2 ^ 62)%Z →
  ∃ r, normal_pos (of_uint63 (Uint63.of_Z (Z.of_nat n))) r ∧
       ((1 - u53) * inject_Z (Z.of_nat n) <= r)%Q ∧
       (r <= (1 + u53) * inject_Z (Z.of_nat n))%Q.
Proof.
  intros Hn Hlt.
  assert (Uint63.to_Z (Uint63.of_Z (Z.of_nat n)) = Z.of_nat n) as Hto.
  { rewrite Uint63.of_Z_spec. apply Z.mod_small. split; [lia|].
    change Uint63.wB with (2 ^ 63)%Z. lia. }
  destruct (Z.of_nat n) as [|p|p] eqn:Hp; [lia| |lia].
  destruct (binary_round_bound false p 0 (inject_Z (Z.pos p)))
    as (m' & e' & Hr & Hm' & H1 & H2).
  - change (pow2 0) with 1%Q. ring.
  - apply Qle_trans with (inject_Z 1).
    + by apply (pow2_le (-1000) 0).
    + rewrite <- Zle_Qle. lia.
  - rewrite <- (pow2_Z 1000) by lia. rewrite <- Zle_Qle.
    assert (2 ^ 62 ≤ 2 ^ 1000)%Z; [|lia]. apply Z.pow_le_mono_r; lia.
  - exists (inject_Z (Z.pos m') * pow2 e')%Q. split; [|done].
    exists m', e'. split; [|done].
    rewrite FloatAxioms.of_uint63_spec, Hto. exact Hr.
Qed.

Lemma count_zero : Prim2SF (of_uint63 (Uint63.of_Z (Z.of_nat 0))) = S754_zero false.
Proof. rewrite FloatAxioms.of_uint63_spec. reflexivity. Qed.

Lemma mul_zero_normal_pos x y a :
  Prim2SF x = S754_zero false → normal_pos y a →
  Prim2SF (x * y)%float = S754_zero false.
Proof.
  intros Hx (m & e & Hy & _). rewrite FloatAxioms.mul_spec, Hx, Hy. reflexivity.
Qed.

(** [int] of a positive double is the floor of its value. *)
Lemma float_int_normal_pos y r :
  normal_pos y r →
  ∃ k, float_int y = Ok k ∧ (0 ≤ k)%Z ∧ (inject_Z k <= r)%Q ∧ (r < inject_Z k + 1)%Q.
Proof.
  intros (m & e & Hy & Hm & Hr). unfold float_int. rewrite Hy.
  destruct e as [|k|k].
  - exists (Z.pos m). split; [done|]. split; [lia|].
    rewrite Hr. change (pow2 0) with 1%Q. split; lra.
  - exists (Z.shiftl (Z.pos m) (Z.pos k)). split; [done|].
    rewrite Z.shiftl_mul_pow2 by lia. split; [lia|].
    rewrite Hr, inject_Z_mult, pow2_Z by lia. split; lra.
  - exists (Z.shiftr (Z.pos m) (Z.pos k)). split; [done|].
    rewrite Z.shiftr_div_pow2 by lia.
    assert (0 < 2 ^ Z.pos k)%Z as HD by (apply Z.pow_pos_nonneg; lia).
    split; [apply Z.div_pos; lia|].
    pose proof (Z.div_mod (Z.pos m) (2 ^ Z.pos k) ltac:(lia)) as Hdm.
    pose proof (Z.mod_pos_bound (Z.pos m) (2 ^ Z.pos k) HD) as Hmod.
    set (q := (Z.pos m / 2 ^ Z.pos k)%Z) in *.
    set (rm := (Z.pos m mod 2 ^ Z.pos k)%Z) in *.
    assert (r * pow2 (Z.pos k) == inject_Z (Z.pos m))%Q as Hrk.
    { rewrite Hr. change (Z.neg k) with (- Z.pos k)%Z.
      rewrite <- Qmult_assoc, pow2_opp. ring. }
    pose proof (pow2_pos (Z.pos k)) as HP.
    rewrite Hdm, inject_Z_plus, inject_Z_mult, (pow2_Z (Z.pos k)) in Hrk by lia.
    assert (0 <= inject_Z rm)%Q as Hrm0.
    { change 0%Q with (inject_Z 0). rewrite <- Zle_Qle. lia. }
    assert (inject_Z rm < pow2 (Z.pos k))%Q as Hrm1.
    { rewrite <- pow2_Z by lia. rewrite <- Zlt_Qlt. lia. }
    split.
    + apply (Qmult_le_r _ _ (pow2 (Z.pos k))); [done|]. lra.
    + apply (Qmult_lt_r _ _ (pow2 (Z.pos k))); [done|]. lra.
Qed.

Lemma float_Q_normal_pos x a :
  normal_pos x a → ∃ v, float_Q x = Some v ∧ (v == a)%Q.
Proof.
  intros (m & e & Hx & Hm & Ha). unfold float_Q. rewrite Hx.
  destruct e as [|k|k]; eexists; (split; [reflexivity|]); rewrite Ha.
  - change (pow2 0) with 1%Q. ring.
  - rewrite Z.shiftl_mul_pow2, inject_Z_mult, pow2_Z by lia. reflexivity.
  - rewrite Qmake_Qdiv. change (Pos.shiftl 1 (N.pos k)) with (Pos.iter xO 1%positive k).
    rewrite pos_iter_xO, Z.mul_1_l.
    rewrite pow2_Z by lia. change (Z.neg k) with (- Z.pos k)%Z.
    pose proof (pow2_pos (Z.pos k)) as HP. pose proof (pow2_opp (Z.pos k)) as Hopp.
    apply (Qmult_inj_r _ _ (pow2 (Z.pos k))); [lra|].
    rewrite <- Qmult_assoc, Hopp. field. lra.
Qed.

(** ** Sums of doubles *)

Lemma normal_pos_val x a : normal_pos x a → (a == double_val x)%Q.
Proof. intros (m & e & Hx & _ & ->). unfold double_val. by rewrite Hx. Qed.

Lemma normal_pos_ext x a b : (a == b)%Q → normal_pos x a → normal_pos x b.
Proof. intros Hab (m & e & Hx & Hm & Ha). exists m, e. by rewrite <- Hab. Qed.

Lemma Qsum_vals_perm l l' : l ≡ₚ l' → (Qsum (vals l) == Qsum (vals l'))%Q.
Proof.
  induction 1 as [|x l l' _ IH|x y l|l1 l2 l3 _ IH1 _ IH2]; simpl.
  - reflexivity.
  - by rewrite IH.
  - ring.
  - by rewrite IH1.
Qed.

Lemma Qn_S n : (Qn (S n) == Qn n + 1)%Q.
Proof. unfold Qn. rewrite Nat2Z.inj_succ. unfold Z.succ. by rewrite inject_Z_plus. Qed.

Lemma Qn_add a b : (Qn (a + b) == Qn a + Qn b)%Q.
Proof. unfold Qn. by rewrite Nat2Z.inj_add, inject_Z_plus. Qed.

Lemma Qn_nonneg n : (0 <= Qn n)%Q.
Proof. unfold Qn. change 0%Q with (inject_Z 0). rewrite <- Zle_Qle. lia. Qed.

Lemma Qn_le a b : a ≤ b → (Qn a <= Qn b)%Q.
Proof. intros. unfold Qn. rewrite <- Zle_Qle. lia. Qed.

Lemma Qsum_vals_bounds l :
  Forall draw_ok l →
  (pow2 (-64) * Qn (length l) <= Qsum (vals l))%Q ∧
  (Qsum (vals l) <= pow2 64 * Qn (length l))%Q.
Proof.
  induction 1 as [|x l (_ & Hlo & Hhi) _ IH].
  - simpl. change (Qn 0) with 0%Q. split; lra.
  - cbn [length vals fmap list_fmap Qsum foldr]. fold (vals l). fold (Qsum (vals l)).
    rewrite Qn_S. destruct IH. split; lra.
Qed.

Lemma add_zero_l x y sz a :
  Prim2SF x = S754_zero sz → normal_pos y a → normal_pos (x + y)%float a.
Proof.
  intros Hx (m & e & Hy & Hm & Ha). exists m, e. split; [|done].
  rewrite FloatAxioms.add_spec, Hx, Hy. reflexivity.
Qed.

Lemma add_zero_r x y sz a :
  normal_pos x a → Prim2SF y = S754_zero sz → normal_pos (x + y)%float a.
Proof.
  intros (m & e & Hx & Hm & Ha) Hy. exists m, e. split; [|done].
  rewrite FloatAxioms.add_spec, Hx, Hy. reflexivity.
Qed.

Lemma add_zero_zero x y sx sy :
  Prim2SF x = S754_zero sx → Prim2SF y = S754_zero sy →
  ∃ sz, Prim2SF (x + y)%float = S754_zero sz.
Proof.
  intros Hx Hy. rewrite FloatAxioms.add_spec, Hx, Hy.
  destruct sx, sy; simpl; eauto.
Qed.

Lemma u53_eq : u53 = (1 # 9007199254740992)%Q.
Proof. reflexivity. Qed.

Lemma sum_spec_nonempty l s :
  l ≠ [] → sum_spec l s →
  normal_pos s (double_val s) ∧
  ((1 - Qn (length l - 1) * u53) * Qsum (vals l) <= double_val s)%Q ∧
  (double_val s <= (1 + 2 * Qn (length l - 1) * u53) * Qsum (vals l))%Q.
Proof. by destruct l. Qed.

(** A sum of [k] draws added in any order is within [2 (k - 1) 2^-53] of
    their exact sum, relatively. *)
Lemma float_sum_bound l s :
  float_sum l s → Forall draw_ok l → (Z.of_nat (length l) ≤ 65536)%Z → sum_spec l s.
Proof.
  induction 1 as [z sz Hz|x|l1 l2 a b _ IH1 _ IH2|l l' a Hperm _ IH]; intros Hall Hlen.
  - simpl. eauto.
  - simpl. apply Forall_inv in Hall as (Hx & Hlo & Hhi).
    split; [done|]. change (Qn 0) with 0%Q. split; lra.
  - apply Forall_app in Hall as [Hall1 Hall2]. rewrite length_app in Hlen.
    specialize (IH1 Hall1 ltac:(lia)). specialize (IH2 Hall2 ltac:(lia)).
    destruct l1 as [|x1 l1].
    { destruct IH1 as [sa Ha]. simpl app. destruct l2 as [|x2 l2].
      - destruct IH2 as [sb Hb]. by eapply add_zero_zero.
      - destruct IH2 as (Hb & Hlo & Hhi).
        pose proof (add_zero_l a b sa _ Ha Hb) as Hab.
        pose proof (normal_pos_val _ _ Hab) as Hv.
        split; [by eapply normal_pos_ext|]. rewrite <- Hv. done. }
    destruct l2 as [|x2 l2].
    { destruct IH2 as [sb Hb]. rewrite app_nil_r. destruct IH1 as (Ha & Hlo & Hhi).
      pose proof (add_zero_r a b sb _ Ha Hb) as Hab.
      pose proof (normal_pos_val _ _ Hab) as Hv.
      split; [by eapply normal_pos_ext|]. rewrite <- Hv. done. }
    set (L1 := x1 :: l1) in *. set (L2 := x2 :: l2) in *.
    assert (0 < length L1 ∧ 0 < length L2) as [Hn1 Hn2] by (simpl; lia).
    destruct (sum_spec_nonempty L1 a ltac:(done) IH1) as (Ha & Hlo1 & Hhi1).
    destruct (sum_spec_nonempty L2 b ltac:(done) IH2) as (Hb & Hlo2 & Hhi2).
    destruct (Qsum_vals_bounds L1 Hall1) as [HS1lo HS1hi].
    destruct (Qsum_vals_bounds L2 Hall2) as [HS2lo HS2hi].
    set (S1 := Qsum (vals L1)) in *. set (S2 := Qsum (vals L2)) in *.
    set (σ1 := double_val a) in *. set (σ2 := double_val b) in *.
    set (k1 := Qn (length L1 - 1)) in *. set (k2 := Qn (length L2 - 1)) in *.
    assert (0 <= k1 ∧ k1 <= 65536 ∧ 0 <= k2 ∧ k2 <= 65536)%Q as (Hk1 & Hk1' & Hk2 & Hk2').
    { unfold k1, k2. split_and!; try apply Qn_nonneg.
      - unfold Qn. change 65536%Q with (inject_Z 65536). rewrite <- Zle_Qle. lia.
      - unfold Qn. change 65536%Q with (inject_Z 65536). rewrite <- Zle_Qle. lia. }
    assert (1 <= Qn (length L1) ∧ Qn (length L1) <= 65536)%Q as [HN1 HN1'].
    { split; [apply (Qn_le 1); lia|].
      unfold Qn. change 65536%Q with (inject_Z 65536). rewrite <- Zle_Qle. lia. }
    assert (1 <= Qn (length L2) ∧ Qn (length L2) <= 65536)%Q as [HN2 HN2'].
    { split; [apply (Qn_le 1); lia|].
      unfold Qn. change 65536%Q with (inject_Z 65536). rewrite <- Zle_Qle. lia. }
    change (pow2 (-64)) with (1 # 18446744073709551616)%Q in *.
    change (pow2 64) with (18446744073709551616 # 1)%Q in *.
    rewrite u53_eq in *.
    assert (0 <= k1 * S1 ∧ 0 <= k2 * S2 ∧ 0 <= k1 * S2 ∧ 0 <= k2 * S1)%Q
      as (H11 & H22 & H12 & H21).
    { split_and!; apply Qmult_le_0_compat; lra. }
    assert (k1 * S1 <= 65536 * S1 ∧ k2 * S2 <= 65536 * S2)%Q as [H11' H22'].
    { split; apply Qmult_le_compat_r; lra. }
    destruct (add_normal_pos a b σ1 σ2 Ha Hb) as (r & Hr & Hrlo & Hrhi).
    { change (pow2 (-1000)) with (Qpower 2 (-1000)).
      apply Qle_trans with (pow2 (-66)); [by apply pow2_le|].
      change (pow2 (-66)) with (1 # 73786976294838206464)%Q. lra. }
    { apply Qle_trans with (pow2 100); [|by apply pow2_le].
      change (pow2 100) with (1267650600228229401496703205376 # 1)%Q. lra. }
    pose proof (normal_pos_val _ _ Hr) as Hv.
    assert (sum_spec (L1 ++ L2) (a + b)%float) as Hgoal; [|exact Hgoal].
    unfold L1 at 1. simpl app. fold L1. cbn [sum_spec].
    change (x1 :: l1 ++ L2) with (L1 ++ L2).
    split; [by eapply normal_pos_ext|]. rewrite <- Hv.
    unfold vals. rewrite fmap_app. fold (vals L1) (vals L2). rewrite Qsum_app.
    fold S1 S2.
    assert (Qn (length (L1 ++ L2) - 1) == k1 + k2 + 1)%Q as ->.
    { unfold k1, k2. rewrite length_app, <- !Qn_add.
      rewrite <- (Qn_add _ 1). f_equiv. lia. }
    rewrite u53_eq in *. split; lra.
  - assert (Forall draw_ok l) as Hall' by by rewrite Hperm.
    rewrite <- Hperm in Hlen. specialize (IH Hall' Hlen).
    destruct l as [|x l].
    { apply Permutation_nil_l in Hperm as <-. done. }
    destruct l' as [|x' l']; [by apply Permutation_nil_r in Hperm|].
    destruct IH as (Ha & Hlo & Hhi). split; [done|].
    rewrite <- (Qsum_vals_perm _ _ Hperm), <- Hperm. done.
Qed.

(** ** Normalised draws *)

Lemma Qdiv_mult_cancel a b : (0 < b)%Q → (a / b * b == a)%Q.
Proof. intros. field. lra. Qed.

Lemma div_draw_ok x s :
  draw_ok x → normal_pos s (double_val s) →
  (pow2 (-66) <= double_val s)%Q → (double_val s <= pow2 82)%Q →
  share_ok (x / s)%float ∧
  ((1 - u53) * double_val x <= double_val (x / s)%float * double_val s)%Q ∧
  (double_val (x / s)%float * double_val s <= (1 + u53) * double_val x)%Q.
Proof.
  intros (Hx & Hxlo & Hxhi) Hs Hslo Hshi.
  set (a := double_val x) in *. set (σ := double_val s) in *.
  assert (0 < σ)%Q as Hσ by by eapply normal_pos_pos.
  assert (pow2 (-146) <= a / σ)%Q as Hqlo.
  { apply Qle_shift_div_l; [done|].
    apply Qle_trans with (pow2 (-146) * pow2 82)%Q.
    - apply Qmult_le_l; [apply pow2_pos | done].
    - rewrite <- pow2_add. simpl Z.add. done. }
  assert (a / σ <= pow2 130)%Q as Hqhi.
  { apply Qle_shift_div_r; [done|].
    apply Qle_trans with (pow2 130 * pow2 (-66))%Q.
    - rewrite <- pow2_add. simpl Z.add. done.
    - apply Qmult_le_l; [apply pow2_pos | done]. }
  destruct (div_normal_pos x s a σ Hx Hs) as (r & Hr & Hrlo & Hrhi).
  { apply Qle_trans with (pow2 (-146)); [by apply pow2_le | done]. }
  { apply Qle_trans with (pow2 130); [done | by apply pow2_le]. }
  pose proof (normal_pos_val _ _ Hr) as Hv. rewrite <- Hv.
  assert (0 < a / σ)%Q as Hqpos.
  { apply Qlt_le_trans with (pow2 (-146)); [apply pow2_pos | done]. }
  rewrite u53_eq in *.
  split_and!.
  - split; [by eapply normal_pos_ext|]. rewrite <- Hv. split.
    + apply Qle_trans with ((1 - (1 # 9007199254740992)) * pow2 (-146))%Q.
      * change (pow2 (-150)) with (pow2 (-4) * pow2 (-146))%Q.
        apply Qmult_le_compat_r; [done | apply Qlt_le_weak, pow2_pos].
      * apply Qle_trans with ((1 - (1 # 9007199254740992)) * (a / σ))%Q; [|done].
        apply Qmult_le_l; [done | done].
    + apply Qle_trans with ((1 + (1 # 9007199254740992)) * (a / σ))%Q; [done|].
      apply Qle_trans with (2 * pow2 130)%Q; [|by rewrite <- (pow2_add 1 130)].
      apply Qmult_le_compat_nonneg; split; lra.
  - rewrite <- (Qdiv_mult_cancel a σ Hσ) at 1.
    rewrite Qmult_assoc. apply Qmult_le_compat_r; [done | lra].
  - rewrite <- (Qdiv_mult_cancel a σ Hσ) at 1.
    rewrite Qmult_assoc. apply Qmult_le_compat_r; [done | lra].
Qed.

Lemma shares_bound (s : float) (l : list float) :
  Forall draw_ok l → normal_pos s (double_val s) →
  (pow2 (-66) <= double_val s)%Q → (double_val s <= pow2 82)%Q →
  Forall share_ok ((λ x, x / s)%float <$> l) ∧
  ((1 - u53) * Qsum (vals l)
   <= Qsum (vals ((λ x, x / s)%float <$> l)) * double_val s)%Q ∧
  (Qsum (vals ((λ x, x / s)%float <$> l)) * double_val s
   <= (1 + u53) * Qsum (vals l))%Q.
Proof.
  intros Hall Hs Hslo Hshi. induction Hall as [|x l Hx _ IH].
  - simpl. split; [constructor|]. split; lra.
  - destruct IH as (IH1 & IH2 & IH3).
    destruct (div_draw_ok x s Hx Hs Hslo Hshi) as (Hok & Hlo & Hhi).
    rewrite fmap_cons. split; [by constructor|].
    unfold vals in *. rewrite !fmap_cons. cbn [Qsum foldr].
    fold (Qsum (double_val <$> l)).
    fold (Qsum (double_val <$> ((λ x, (x / s)%float) <$> l))).
    split; lra.
Qed.

(** The normalised draws: [probs / probs.sum()], for a sum [s] of the draws
    added in any order. *)
Lemma normalised_bound (draws : list float) (s : float) :
  float_sum draws s → Forall draw_ok draws →
  0 < length draws → (Z.of_nat (length draws) ≤ 65536)%Z →
  Forall share_ok ((λ x, x / s)%float <$> draws) ∧
  (1 - 2 * Qn (length draws) * u53
   <= Qsum (vals ((λ x, x / s)%float <$> draws)))%Q ∧
  (Qsum (vals ((λ x, x / s)%float <$> draws))
   <= 1 + 2 * Qn (length draws) * u53)%Q.
Proof.
  intros Hsum Hall Hlen0 Hlen.
  pose proof (float_sum_bound _ _ Hsum Hall Hlen) as Hspec.
  apply sum_spec_nonempty in Hspec as (Hs & Hlo & Hhi);
    [|intros ->; simpl in Hlen0; lia].
  destruct (Qsum_vals_bounds draws Hall) as [HSlo HShi].
  set (S := Qsum (vals draws)) in *. set (σ := double_val s) in *.
  set (k := Qn (length draws - 1)) in *.
  assert (Qn (length draws) == k + 1)%Q as Hq.
  { unfold k. rewrite <- (Qn_add _ 1). f_equiv. lia. }
  assert (0 <= k ∧ k <= 65536)%Q as [Hk Hk'].
  { unfold k. split; [apply Qn_nonneg|].
    unfold Qn. change 65536%Q with (inject_Z 65536). rewrite <- Zle_Qle. lia. }
  rewrite Hq in HSlo, HShi.
  change (pow2 (-64)) with (1 # 18446744073709551616)%Q in *.
  change (pow2 64) with (18446744073709551616 # 1)%Q in *.
  assert (0 <= k * S ∧ k * S <= 65536 * S)%Q as [HkS HkS'].
  { split; [apply Qmult_le_0_compat; lra | apply Qmult_le_compat_r; lra]. }
  assert (0 <= k * (k * S) ∧ k * (k * S) <= 65536 * (k * S))%Q as [HkkS HkkS'].
  { split; [apply Qmult_le_0_compat; lra | apply Qmult_le_compat_r; lra]. }
  assert (0 < σ)%Q as Hσ by by eapply normal_pos_pos.
  destruct (shares_bound s draws Hall Hs) as (Hok & Hplo & Hphi).
  { fold σ. change (pow2 (-66)) with (1 # 73786976294838206464)%Q.
    rewrite u53_eq in *. lra. }
  { fold σ. change (pow2 82) with (4835703278458516698824704 # 1)%Q.
    rewrite u53_eq in *. lra. }
  fold σ in Hplo, Hphi. fold S in Hplo, Hphi. split; [done|].
  set (P := Qsum (vals ((λ x, x / s)%float <$> draws))) in *.
  rewrite Hq. rewrite u53_eq in *.
  split.
  - apply (Qmult_le_r _ _ σ); [done|].
    assert (0 <= (1 - 2 * (k + 1) * (1 # 9007199254740992))
                 * ((1 + 2 * k * (1 # 9007199254740992)) * S - σ))%Q as Hprod.
    { apply Qmult_le_0_compat; lra. }
    lra.
  - apply (Qmult_le_r _ _ σ); [done|].
    assert (0 <= (1 + 2 * (k + 1) * (1 # 9007199254740992))
                 * (σ - (1 - k * (1 # 9007199254740992)) * S))%Q as Hprod.
    { apply Qmult_le_0_compat; lra. }
    lra.
Qed.

(** ** [int(num_samples[c] * p)] in doubles *)

(** [int(n * p)] returns a non-negative integer, within the two roundings
    of the count and of the product of the floor of [n * p]. *)
Lemma end_idx_bound (sum : list float → float) (n : nat) (p : float) :
  share_ok p → (Z.of_nat n ≤ 2 ^ 32)%Z →
  ∃ k, @r_int _ (doubles sum) (@r_mul _ (doubles sum) (@r_of_count _ (doubles sum) n) p)
       = Ok (Z.of_nat k) ∧
       end_idx (H := doubles sum) n p = k ∧
       (Qn k <= (1 + u53) * ((1 + u53) * Qn n) * double_val p)%Q ∧
       ((1 - u53) * ((1 - u53) * Qn n) * double_val p - 1 <= Qn k)%Q.
Proof.
  intros (Hp & Hplo & Hphi) Hn. set (π := double_val p) in *.
  unfold end_idx, int_share. cbn [doubles r_int r_mul r_of_count].
  set (of_count := λ n : nat, of_uint63 (Uint63.of_Z (Z.of_nat n))).
  change (of_uint63 (Uint63.of_Z (Z.of_nat n))) with (of_count n).
  assert (0 < π)%Q as Hπ by by eapply normal_pos_pos.
  destruct n as [|n'].
  { exists 0. unfold float_int, of_count.
    rewrite (mul_zero_normal_pos _ _ _ count_zero Hp).
    split; [done|]. split; [done|]. change (Qn 0) with 0%Q.
    split; [ring_simplify; lra|]. ring_simplify. lra. }
  set (n := S n') in *.
  destruct (count_normal_pos n) as (ν & Hν & Hνlo & Hνhi); [lia | lia |].
  fold (of_count n) in Hν. fold (Qn n) in Hνlo, Hνhi.
  assert (1 <= Qn n ∧ Qn n <= 4294967296)%Q as [Hn1 Hn2].
  { split; [apply (Qn_le 1); lia|].
    unfold Qn. change 4294967296%Q with (inject_Z (2 ^ 32)). rewrite <- Zle_Qle. lia. }
  rewrite u53_eq in *.
  assert ((1 # 2) <= ν ∧ ν <= 8589934592)%Q as [Hν1 Hν2] by (split; lra).
  destruct (mul_normal_pos (of_count n) p ν π Hν Hp) as (ψ & Hψ & Hψlo & Hψhi).
  { apply Qle_trans with (pow2 (-151)); [by apply pow2_le|].
    change (pow2 (-151)) with ((1 # 2) * pow2 (-150))%Q.
    apply Qmult_le_compat_nonneg; split; try lra. apply Qlt_le_weak, pow2_pos. }
  { apply Qle_trans with (pow2 164); [|by apply pow2_le].
    change (pow2 164) with (pow2 33 * pow2 131)%Q.
    apply Qmult_le_compat_nonneg; split; try lra.
    change (pow2 33) with 8589934592%Q. done. }
  destruct (float_int_normal_pos _ _ Hψ) as (k & Hk & Hk0 & Hk1 & Hk2).
  exists (Z.to_nat k). rewrite Z2Nat.id by done. rewrite Hk.
  split; [done|]. split; [done|]. unfold Qn at 1 4. rewrite Z2Nat.id by done.
  rewrite u53_eq in *.
  assert (0 <= ((1 + (1 # 9007199254740992)) * Qn n - ν) * π)%Q as H1.
  { apply Qmult_le_0_compat; lra. }
  assert (0 <= (ν - (1 - (1 # 9007199254740992)) * Qn n) * π)%Q as H2.
  { apply Qmult_le_0_compat; lra. }
  split; lra.
Qed.

Lemma requests_bound (sum : list float → float) (n : nat) (ps : list float) :
  Forall share_ok ps → (Z.of_nat n ≤ 2 ^ 32)%Z →
  (Qn (sum_list_with (end_idx (H := doubles sum) n) ps)
   <= (1 + u53) * ((1 + u53) * Qn n) * Qsum (vals ps))%Q ∧
  ((1 - u53) * ((1 - u53) * Qn n) * Qsum (vals ps) - Qn (length ps)
   <= Qn (sum_list_with (end_idx (H := doubles sum) n) ps))%Q.
Proof.
  intros Hall Hn. induction Hall as [|p ps Hp _ IH].
  - simpl. change (Qn 0) with 0%Q. split; ring_simplify; lra.
  - destruct (end_idx_bound sum n p Hp Hn) as (k & _ & Hk & Hk1 & Hk2).
    cbn [sum_list_with length vals fmap list_fmap Qsum foldr].
    fold (vals ps). fold (Qsum (vals ps)).
    rewrite Hk, Qn_add, Qn_S. destruct IH. split; lra.
Qed.

(** The floors of the shares of a class of [n] samples neither exceed [n]
    nor miss it by more than one sample per share. *)
Lemma requests_fit (sum : list float → float) (n : nat) (ps : list float) :
  Forall share_ok ps → (Z.of_nat n ≤ 2 ^ 32)%Z → (Z.of_nat (length ps) ≤ 65536)%Z →
  (1 - 2 * Qn (length ps) * u53 <= Qsum (vals ps))%Q →
  (Qsum (vals ps) <= 1 + 2 * Qn (length ps) * u53)%Q →
  sum_list_with (end_idx (H := doubles sum) n) ps ≤ n ∧ n ≤ sum_list_with (end_idx (H := doubles sum) n) ps + length ps.
Proof.
  intros Hall Hn Hlen Hlo Hhi.
  destruct (requests_bound sum n ps Hall Hn) as [Hup Hdown].
  set (P := Qsum (vals ps)) in *. set (q := Qn (length ps)) in *.
  set (r := sum_list_with (end_idx (H := doubles sum) n) ps) in *.
  assert (0 <= Qn n ∧ Qn n <= 4294967296)%Q as [Hn1 Hn2].
  { split; [apply Qn_nonneg|].
    unfold Qn. change 4294967296%Q with (inject_Z (2 ^ 32)). rewrite <- Zle_Qle. lia. }
  assert (0 <= q ∧ q <= 65536)%Q as [Hq1 Hq2].
  { split; [apply Qn_nonneg|].
    unfold q, Qn. change 65536%Q with (inject_Z 65536). rewrite <- Zle_Qle. lia. }
  rewrite u53_eq in *.
  assert (0 <= Qn n * (1 + 2 * q * (1 # 9007199254740992) - P))%Q as H1.
  { apply Qmult_le_0_compat; lra. }
  assert (0 <= Qn n * (P - (1 - 2 * q * (1 # 9007199254740992))))%Q as H2.
  { apply Qmult_le_0_compat; lra. }
  assert (0 <= Qn n * q ∧ Qn n * q <= 4294967296 * q)%Q as [H3 H4].
  { split; [apply Qmult_le_0_compat; lra | apply Qmult_le_compat_r; lra]. }
  split.
  - assert (Z.of_nat r ≤ Z.of_nat n)%Z; [|lia].
    apply inject_Z_lt_succ. fold (Qn r) (Qn n). lra.
  - assert (Z.of_nat n ≤ Z.of_nat (r + length ps))%Z; [|lia].
    apply inject_Z_lt_succ. fold (Qn (r + length ps)) (Qn n).
    rewrite Qn_add. fold q. lra.
Qed.

(** ** Draws *)

Lemma mantissa_val m e :
  (match e with
   | Z0 => inject_Z (Z.pos m)
   | Z.pos k => inject_Z (Z.shiftl (Z.pos m) (Z.pos k))
   | Z.neg k => Qmake (Z.pos m) (Pos.shiftl 1 (Npos k))
   end == inject_Z (Z.pos m) * pow2 e)%Q.
Proof.
  destruct e as [|k|k].
  - change (pow2 0) with 1%Q. ring.
  - rewrite Z.shiftl_mul_pow2, inject_Z_mult, pow2_Z by lia. reflexivity.
  - rewrite Qmake_Qdiv. change (Pos.shiftl 1 (N.pos k)) with (Pos.iter xO 1%positive k).
    rewrite pos_iter_xO, Z.mul_1_l.
    rewrite pow2_Z by lia. change (Z.neg k) with (- Z.pos k)%Z.
    pose proof (pow2_pos (Z.pos k)) as HP. pose proof (pow2_opp (Z.pos k)) as Hopp.
    apply (Qmult_inj_r _ _ (pow2 (Z.pos k))); [lra|].
    rewrite <- Qmult_assoc, Hopp. field. lra.
Qed.

Lemma float_Q_finite x s m e :
  Prim2SF x = S754_finite s m e →
  ∃ v, float_Q x = Some v ∧ (v == double_val x)%Q.
Proof.
  intros Hx. unfold float_Q, double_val. rewrite Hx. eexists. split; [reflexivity|].
  destruct s; by rewrite mantissa_val.
Qed.

(** A draw in range is a positive normal double. *)
Lemma in_range_draw_ok x : in_range x → draw_ok x.
Proof.
  intros (v & Hv & Hlo & Hhi). pose proof (FloatAxioms.Prim2SF_valid x) as Hvalid.
  pose proof (pow2_pos (-64)) as H64.
  destruct (Prim2SF x) as [sz|si| |s m e] eqn:Hx.
  - unfold float_Q in Hv. rewrite Hx in Hv. injection Hv as <-. lra.
  - unfold float_Q in Hv. by rewrite Hx in Hv.
  - unfold float_Q in Hv. by rewrite Hx in Hv.
  - destruct (float_Q_finite x s m e Hx) as (v' & Hv' & Hval).
    rewrite Hv in Hv'. injection Hv' as <-.
    assert (0 < inject_Z (Z.pos m) * pow2 e)%Q as Hpos.
    { apply Qmult_lt_0_compat; [|apply pow2_pos].
      change 0%Q with (inject_Z 0). rewrite <- Zlt_Qlt. lia. }
    pose proof Hval as Hval'. unfold double_val in Hval'. rewrite Hx in Hval'.
    destruct s; [lra|].
    assert (2 ^ 52 ≤ Z.pos m < 2 ^ 53)%Z as Hm.
    { cbn [valid_binary] in Hvalid. unfold bounded, canonical_mantissa, fexp, emin in Hvalid.
      apply andb_true_iff in Hvalid as [Hcan _]. apply Z.eqb_eq in Hcan.
      pose proof (digits2_pos_bounds m) as Hd.
      change prec with 53%Z in Hcan. change emax with 1024%Z in Hcan.
      destruct (decide (Z.pos (digits2_pos m) = 53%Z)) as [Heq|Hne].
      { rewrite Heq in Hd. done. }
      assert (e = -1074 ∧ Z.pos (digits2_pos m) < 53)%Z as [-> Hlt] by lia.
      assert (Z.pos m < 2 ^ 52)%Z as Hm52.
      { eapply Z.lt_le_trans; [apply Hd|]. apply Z.pow_le_mono_r; lia. }
      assert (inject_Z (Z.pos m) < pow2 52)%Q as Hq.
      { rewrite <- pow2_Z by lia. by rewrite <- Zlt_Qlt. }
      pose proof (pow2_pos (-1074)) as HP.
      assert (inject_Z (Z.pos m) * pow2 (-1074) < pow2 52 * pow2 (-1074))%Q as Hlt'.
      { by apply Qmult_lt_r. }
      rewrite <- pow2_add in Hlt'.
      assert (pow2 (-64) < pow2 (52 + -1074))%Q as Habs by lra.
      apply pow2_lt_inv in Habs. lia. }
    split.
    + exists m, e. split_and!; try done; try lia. unfold double_val. by rewrite Hx.
    + split; lra.
Qed.

Lemma draws_ok (uniform : nat → nat → float) x q :
  (∀ i j, in_range (uniform i j)) → Forall draw_ok (uniform x <$> seq 0 q).
Proof.
  intros Hr. apply Forall_fmap, Forall_forall. intros j _. apply in_range_draw_ok, Hr.
Qed.

(** The values of normalised draws, as [float_Q] reads them. *)
Lemma shares_values (ps : list float) :
  Forall share_ok ps →
  ∃ vs, Forall2 (λ p v, float_Q p = Some v ∧ (0 < v)%Q) ps vs ∧
        (Qsum vs == Qsum (vals ps))%Q.
Proof.
  induction 1 as [|p ps (Hp & _) _ (vs & Hvs & Hsum)].
  - exists []. split; [constructor | reflexivity].
  - destruct (float_Q_normal_pos _ _ Hp) as (v & Hv & Hval).
    exists (v :: vs). split.
    + constructor; [|done]. split; [done|]. rewrite Hval. by eapply normal_pos_pos.
    + cbn [vals fmap list_fmap Qsum foldr]. fold (vals ps). fold (Qsum (vals ps)).
      fold (Qsum vs). by rewrite Hsum, Hval.
Qed.

(** ** Draws between two bounds *)

Lemma valid_finite x s m e :
  Prim2SF x = S754_finite s m e →
  (-1074 ≤ e)%Z ∧ (Z.pos (digits2_pos m) ≤ 53)%Z ∧
  (Z.pos (digits2_pos m) = 53 ∨ e = -1074)%Z.
Proof.
  intros Hx. pose proof (FloatAxioms.Prim2SF_valid x) as Hvalid. rewrite Hx in Hvalid.
  cbn [valid_binary] in Hvalid. unfold bounded, canonical_mantissa, fexp, emin in Hvalid.
  apply andb_true_iff in Hvalid as [Hcan _]. apply Z.eqb_eq in Hcan.
  change prec with 53%Z in Hcan. change emax with 1024%Z in Hcan. lia.
Qed.

(** Doubles compare as their values do: what is not below a positive normal
    double is a positive normal double of at least its value, or [+inf]. *)
Lemma leb_normal_pos x y a :
  normal_pos x a → PrimFloat.leb x y = true →
  (∃ b, normal_pos y b ∧ (a <= b)%Q) ∨ Prim2SF y = S754_infinity false.
Proof.
  intros (m & e & Hx & Hm & Ha) Hle. rewrite FloatAxioms.leb_spec, Hx in Hle.
  destruct (valid_finite x _ _ _ Hx) as (He & _ & _).
  destruct (Prim2SF y) as [sz|[]| |[] m' e'] eqn:Hy; try done; [by right|]. left.
  destruct (valid_finite y _ _ _ Hy) as (He' & Hd' & Hn').
  pose proof (digits2_pos_bounds m') as Hb'.
  unfold SFleb, SFcompare in Hle.
  change (Pos.compare_cont Eq m m') with (m ?= m')%positive in Hle.
  pose proof (pow2_pos e) as HPe.
  destruct (Z.compare_spec e e') as [<-|Hlt|Hgt]; [| |done].
  - assert (Z.pos m ≤ Z.pos m')%Z as Hmm.
    { destruct (Pos.compare_spec m m'); try done; lia. }
    assert (Z.pos m' < 2 ^ 53)%Z.
    { eapply Z.lt_le_trans; [apply Hb'|]. apply Z.pow_le_mono_r; lia. }
    exists (inject_Z (Z.pos m') * pow2 e)%Q. split.
    + exists m', e. split_and!; try done; lia.
    + rewrite Ha. apply Qmult_le_compat_r; [|lra]. by rewrite <- Zle_Qle.
  - destruct Hn' as [Hn'|]; [|lia]. rewrite Hn' in Hb'.
    exists (inject_Z (Z.pos m') * pow2 e')%Q. split.
    + exists m', e'. split_and!; try done; lia.
    + rewrite Ha. pose proof (pow2_pos e') as HPe'.
      apply Qle_trans with (pow2 53 * pow2 e)%Q.
      { apply Qmult_le_compat_r; [|lra]. rewrite <- pow2_Z by lia.
        rewrite <- Zle_Qle. lia. }
      apply Qle_trans with (pow2 52 * pow2 e')%Q.
      { rewrite <- !pow2_add. apply pow2_le. lia. }
      apply Qmult_le_compat_r; [|lra]. rewrite <- pow2_Z by lia.
      rewrite <- Zle_Qle. lia.
Qed.

(** A double between two draws in range is in range: so are the draws of
    [np.random.uniform(low_prob, high_prob)], for bounds in range. *)
Lemma in_range_between low high x :
  in_range low → in_range high →
  PrimFloat.leb low x = true → PrimFloat.leb x high = true → in_range x.
Proof.
  intros (Hlow & Hlo & _)%in_range_draw_ok (Hhigh & _ & Hhi)%in_range_draw_ok Hlx Hxh.
  destruct (leb_normal_pos _ _ _ Hlow Hlx) as [(b & Hx & Hb)|Hinf].
  - destruct (leb_normal_pos _ _ _ Hx Hxh) as [(c & Hhigh' & Hc)|Hinf].
    + apply normal_pos_val in Hhigh'.
      destruct (float_Q_normal_pos _ _ Hx) as (v & Hv & Hvb).
      exists v. split; [done|]. split; lra.
    + destruct Hhigh as (m & e & Hh & _). by rewrite Hh in Hinf.
  - destruct Hhigh as (m & e & Hh & _).
    by rewrite FloatAxioms.leb_spec, Hinf, Hh in Hxh.
Qed.

Lemma default_draws_in_range x :
  PrimFloat.leb low_prob_default x = true → PrimFloat.leb x high_prob_default = true →
  in_range x.
Proof.
  apply in_range_between; eexists; (split; [vm_compute; reflexivity|]);
    split; vm_compute; discriminate.
Qed.

(** ** [probs.sum()] as numpy adds *)

Lemma add_rest_float_sum a : ∀ l res,
  float_sum l res → float_sum (l ++ a) (add_rest res a).
Proof.
  induction a as [|x a IH]; intros l res Hl.
  - by rewrite app_nil_r.
  - rewrite cons_middle, app_assoc. apply (IH (l ++ [x]) (res + x)%float).
    apply float_sum_add; [done | apply float_sum_one].
Qed.

Lemma snoc_float_sum (cols : list (list float)) (r : list float) :
  Forall2 float_sum cols r → ∀ xs,
  Forall2 float_sum (zip_with (λ c x, c ++ [x]) cols xs) (zip_with PrimFloat.add r xs).
Proof.
  induction 1 as [|c a cols r Hc _ IH]; intros [|x xs]; simpl; try constructor.
  - apply float_sum_add; [done | apply float_sum_one].
  - apply IH.
Qed.

Lemma concat_snoc (cols : list (list float)) : ∀ xs,
  length cols = length xs →
  concat (zip_with (λ c x, c ++ [x]) cols xs) ≡ₚ concat cols ++ xs.
Proof.
  induction cols as [|c cols IH]; intros [|x xs] Hlen; simplify_eq/=; [done|].
  rewrite IH by done. rewrite <- !app_assoc. apply Permutation_app_head.
  simpl. apply Permutation_middle.
Qed.

Lemma add_blocks_float_sum blocks : ∀ r a cols,
  Forall2 float_sum cols r → length r = 8 → 8 * blocks ≤ length a →
  ∃ cols', Forall2 float_sum cols' (add_blocks blocks r a).1 ∧
           length (add_blocks blocks r a).1 = 8 ∧
           concat cols' ++ (add_blocks blocks r a).2 ≡ₚ concat cols ++ a.
Proof.
  induction blocks as [|b IH]; intros r a cols Hcols Hr Ha.
  - exists cols. simpl. done.
  - simpl add_blocks.
    destruct (IH (zip_with PrimFloat.add r (take 8 a)) (drop 8 a)
                 (zip_with (λ c x, c ++ [x]) cols (take 8 a)))
      as (cols' & Hcols' & Hlen & Hperm).
    + by apply snoc_float_sum.
    + rewrite length_zip_with, length_take. lia.
    + rewrite length_drop. lia.
    + exists cols'. split; [done|]. split; [done|].
      rewrite Hperm, concat_snoc.
      * by rewrite <- app_assoc, take_drop.
      * rewrite (Forall2_length _ _ _ Hcols), length_take. lia.
Qed.

Lemma block_sum_float_sum a : 8 ≤ length a → float_sum a (block_sum a).
Proof.
  intros Ha. unfold block_sum.
  destruct (add_blocks_float_sum (length a / 8 - 1) (take 8 a) (drop 8 a)
              ((λ x, [x]) <$> take 8 a)) as (cols & Hcols & Hlen & Hperm).
  { apply Forall2_fmap_l, Forall_Forall2_diag, Forall_forall. intros x _.
    apply float_sum_one. }
  { rewrite length_take. lia. }
  { rewrite length_drop. pose proof (Nat.div_mod_eq (length a) 8). lia. }
  assert (∀ l : list float, concat ((λ x : float, [x]) <$> l) = l) as Hone.
  { induction l as [|x l IH]; [done|]. csimpl. by f_equal. }
  rewrite Hone, take_drop in Hperm.
  destruct (add_blocks (length a / 8 - 1) (take 8 a) (drop 8 a)) as [r rest].
  cbn [fst snd] in *.
  destruct r as [|r0 [|r1 [|r2 [|r3 [|r4 [|r5 [|r6 [|r7 [|r8 r]]]]]]]]]; try done.
  repeat match goal with
         | H : Forall2 _ _ (_ :: _) |- _ =>
             apply Forall2_cons_inv_r in H as (? & ? & ? & H & ->)
         | H : Forall2 _ _ [] |- _ => apply Forall2_nil_inv_r in H as ->
         end.
  eapply float_sum_perm; [exact Hperm|].
  apply add_rest_float_sum.
  cbn [concat]. rewrite app_nil_r.
  repeat match goal with
         | |- float_sum _ (_ + _)%float =>
             rewrite ?app_assoc; rewrite <- ?app_assoc
         end.
  match goal with
  | |- float_sum (?c0 ++ ?c1 ++ ?c2 ++ ?c3 ++ ?c4 ++ ?c5 ++ ?c6 ++ ?c7) _ =>
      change (float_sum (c0 ++ c1 ++ c2 ++ c3 ++ c4 ++ c5 ++ c6 ++ c7)
                (((r0 + r1) + (r2 + r3)) + ((r4 + r5) + (r6 + r7)))%float);
      replace (c0 ++ c1 ++ c2 ++ c3 ++ c4 ++ c5 ++ c6 ++ c7)
        with (((c0 ++ c1) ++ (c2 ++ c3)) ++ ((c4 ++ c5) ++ (c6 ++ c7)))
        by (by rewrite <- !app_assoc)
  end.
  repeat apply float_sum_add; done.
Qed.

Lemma pairwise_sum_unfold fuel a :
  pairwise_sum fuel a =
  if length a <? 8 then add_rest PrimFloat.zero a
  else if length a <=? 128 then block_sum a
  else match fuel with
       | 0 => PrimFloat.zero
       | S fuel =>
           let n2 := length a / 2 - (length a / 2) mod 8 in
           (pairwise_sum fuel (take n2 a) + pairwise_sum fuel (drop n2 a))%float
       end.
Proof. by destruct fuel. Qed.

Lemma pairwise_sum_float_sum fuel : ∀ a,
  length a ≤ fuel + 128 → float_sum a (pairwise_sum fuel a).
Proof.
  induction fuel as [|fuel IH]; intros a Ha; rewrite pairwise_sum_unfold;
    destruct (Nat.ltb_spec (length a) 8) as [H8|H8];
    try (apply (add_rest_float_sum a [] PrimFloat.zero), (float_sum_nil _ false);
         reflexivity);
    destruct (Nat.leb_spec (length a) 128) as [H128|H128];
    try (by apply block_sum_float_sum); [lia|].
  cbv zeta. set (n2 := length a / 2 - (length a / 2) mod 8).
  assert (0 < n2 < length a) as Hn2.
  { pose proof (Nat.div_mod_eq (length a) 2).
    pose proof (Nat.mod_upper_bound (length a) 2).
    pose proof (Nat.mod_upper_bound (length a / 2) 8). lia. }
  rewrite <- (take_drop n2 a) at 1.
  apply float_sum_add; apply IH; rewrite ?length_take, ?length_drop; lia.
Qed.

(** numpy's sum is a sum of the doubles in some order, so what is proved
    for [doubles sum] and every such [sum] holds for [float_arith]. *)
Lemma np_sum_float_sum a : float_sum a (np_sum a).
Proof. apply pairwise_sum_float_sum. lia. Qed.

Lemma float_arith_doubles : float_arith = doubles np_sum.
Proof. reflexivity. Qed.

(** ** Normalised proportions in doubles *)

Lemma tolerance_eq q : (2 * Qn q * u53 == Qn q * pow2 (-52))%Q.
Proof.
  rewrite u53_eq. change (pow2 (-52)) with (1 # 4503599627370496)%Q. field.
Qed.

(** [probs / probs.sum()] for the draws of one class. *)
Lemma probs_norm_bound (sum : list float → float) (uniform : nat → nat → float) x q :
  (∀ l, float_sum l (sum l)) →
  (∀ i j, in_range (uniform i j)) →
  (Z.of_nat q ≤ 65536)%Z →
  let ps := probs_norm (H := doubles sum) (uniform x <$> seq 0 q) in
  length ps = q ∧ Forall share_ok ps ∧
  (0 < q →
   (1 - Qn q * pow2 (-52) <= Qsum (vals ps))%Q ∧
   (Qsum (vals ps) <= 1 + Qn q * pow2 (-52))%Q).
Proof.
  intros Hsum Hr Hq ps.
  assert (length (uniform x <$> seq 0 q) = q) as Hlen by by rewrite length_fmap, length_seq.
  split; [unfold ps; by rewrite probs_norm_length|].
  destruct (decide (q = 0)) as [->|Hq0].
  { split; [constructor | lia]. }
  destruct (normalised_bound (uniform x <$> seq 0 q) (sum (uniform x <$> seq 0 q)))
    as (Hok & Hlo & Hhi); [done | by apply draws_ok | lia | lia |].
  rewrite Hlen, tolerance_eq in Hlo, Hhi. done.
Qed.

(** The proportions of a class in a plan generated in doubles. *)
Lemma generated_shares_doubles (sum : list float → float) d N m
    (uniform : nat → nat → float) pick K ns labels plan :
  (∀ l, float_sum l (sum l)) →
  (∀ i j, in_range (uniform i j)) →
  get_num_classes_samples d = Ok (K, ns, labels) →
  gen_classes_per_node (H := doubles sum) d N m uniform pick = Ok plan →
  (Z.of_nat ((m * N) / K) ≤ 65536)%Z →
  ∀ x, x < K →
    length (assigned x (schedule plan)) = (m * N) / K ∧
    Forall share_ok (assigned x (schedule plan)) ∧
    (0 < (m * N) / K →
     (1 - Qn ((m * N) / K) * pow2 (-52) <= Qsum (vals (assigned x (schedule plan))))%Q ∧
     (Qsum (vals (assigned x (schedule plan))) <= 1 + Qn ((m * N) / K) * pow2 (-52))%Q).
Proof.
  intros Hsum Hr Hd Hplan Hq x Hx.
  rewrite (generated_assigned _ _ _ _ _ _ _ _ _ Hd Hplan x Hx).
  destruct (probs_norm_bound sum uniform x _ Hsum Hr Hq) as (Hlen & Hok & Hb).
  split; [by rewrite length_reverse|]. split; [by apply Forall_reverse|].
  intros Hpos. rewrite (Qsum_vals_perm _ _ (reverse_Permutation _)). by apply Hb.
Qed.

(** What all the clients request of a class of [n] samples. *)
Lemma generated_requests_fit (sum : list float → float) d N m
    (uniform : nat → nat → float) pick K ns labels plan :
  (∀ l, float_sum l (sum l)) →
  (∀ i j, in_range (uniform i j)) →
  get_num_classes_samples d = Ok (K, ns, labels) →
  gen_classes_per_node (H := doubles sum) d N m uniform pick = Ok plan →
  (Z.of_nat ((m * N) / K) ≤ 65536)%Z →
  ∀ n x, x < K → (Z.of_nat n ≤ 2 ^ 32)%Z →
    requested (H := doubles sum) n x (schedule plan) ≤ n ∧
    (0 < (m * N) / K → n ≤ requested (H := doubles sum) n x (schedule plan) + (m * N) / K).
Proof.
  intros Hsum Hr Hd Hplan Hq n x Hx Hn.
  destruct (generated_shares_doubles sum _ _ _ _ _ _ _ _ _ Hsum Hr Hd Hplan Hq x Hx)
    as (Hlen & Hok & Hb).
  unfold requested. destruct (decide ((m * N) / K = 0)) as [H0|H0].
  { rewrite H0 in Hlen. apply nil_length_inv in Hlen. rewrite Hlen. simpl. lia. }
  destruct Hb as [Hlo Hhi]; [lia|].
  rewrite <- Hlen, <- tolerance_eq in Hlo, Hhi.
  destruct (requests_fit sum n (assigned x (schedule plan))) as [H1 H2];
    [done | done | lia | done | done |].
  rewrite Hlen in H2. done.
Qed.

Lemma occurrences_le_length c (l : list nat) : occurrences c l ≤ length l.
Proof. apply length_filter. Qed.

(** The run of the splitter in doubles on a split with the labels
    [0 .. K - 1], for a plan generated for [K] classes. *)
Lemma gen_data_split_run_doubles (sum : list float → float) train_set d N m
    (uniform : nat → nat → float) pick sh K train_samples train_labels ns labels plan :
  (∀ l, float_sum l (sum l)) →
  (∀ i j, in_range (uniform i j)) →
  get_num_classes_samples train_set = Ok (K, train_samples, train_labels) →
  gen_classes_per_node (H := doubles sum) train_set N m uniform pick = Ok plan →
  get_num_classes_samples d = Ok (K, ns, labels) →
  (∀ l, l ∈ labels → l < K) →
  (Z.of_nat (length labels) ≤ 2 ^ 32)%Z →
  (Z.of_nat ((m * N) / K) ≤ 65536)%Z →
  ∃ pools users,
    gen_data_split_run (H := doubles sum) d N plan sh = Ok (pools, users) ∧
    (∀ c, c < K →
       requested (H := doubles sum) (occurrences c labels) c (schedule plan)
       ≤ occurrences c labels ∧
       ∃ pool, pools !! c = Some pool ∧
               length pool = occurrences c labels
                 - requested (H := doubles sum) (occurrences c labels) c (schedule plan)) ∧
    (∀ usr_i cs ps, class plan !! usr_i = Some cs → probs plan !! usr_i = Some ps →
       ∃ idxs, users !! usr_i = Some idxs ∧
               length idxs = client_total (H := doubles sum) ns (zip cs ps)) ∧
    (∀ c p n, (c, p) ∈ schedule plan → ns !! c = Some n →
       int_share (H := doubles sum) n p = Ok (Z.of_nat (end_idx (H := doubles sum) n p))).
Proof.
  intros Hsum Hr Htrain Hplan Hd Hwf Hsize Hq.
  destruct (gen_classes_per_node_plan _ _ _ _ _ _ _ _ _ Htrain Hplan)
    as (Hcl & Hpr & Hclasses & _).
  pose proof (generated_shares_doubles sum _ _ _ _ _ _ _ _ _ Hsum Hr Htrain Hplan Hq)
    as Hshares.
  pose proof (generated_requests_fit sum _ _ _ _ _ _ _ _ _ Hsum Hr Htrain Hplan Hq) as Hfit.
  destruct (get_num_classes_samples_wf _ _ _ _ Hd Hwf) as [Hns Hnsx].
  assert (∀ c, (Z.of_nat (occurrences c labels) ≤ 2 ^ 32)%Z) as Hocc.
  { intros c. pose proof (occurrences_le_length c labels). lia. }
  assert (∀ x pool, init_pools sh K labels !! x = Some pool →
            x < K ∧ length pool = occurrences x labels) as Hpool0.
  { intros x pool [Hx Hperm]%init_pools_lookup. split; [done|].
    by rewrite Hperm, where_eq_length. }
  assert (∀ c p n, (c, p) ∈ schedule plan → ns !! c = Some n →
            int_share (H := doubles sum) n p
            = Ok (Z.of_nat (end_idx (H := doubles sum) n p))) as Hint.
  { intros c p n Hin Hn. pose proof (Hclasses c p Hin) as Hc.
    rewrite (Hnsx c Hc) in Hn. injection Hn as <-.
    destruct (Hshares c Hc) as (_ & Hok & _). rewrite Forall_forall in Hok.
    destruct (end_idx_bound sum (occurrences c labels) p) as (k & Hk & <- & _);
      [by apply Hok, elem_of_assigned | done | done]. }
  unfold gen_data_split_run. rewrite Hd, bind_Ok_l.
  destruct (assign_users_served (H := doubles sum) ns plan N Hcl Hpr) with
    (n := N) (a := 0) (pools := init_pools sh K labels)
    (users := replicate N ([] : list nat))
    as (pools & users & Hrun & Hlp & Hlu & Hpools & _ & Husers).
  - intros c p Hin. pose proof (Hclasses c p Hin) as Hc. split; [lia|].
    intros n Hn. by apply (Hint c).
  - done.
  - by rewrite length_replicate.
  - by rewrite init_pools_length.
  - intros x k pool Hk Hpool. destruct (Hpool0 x pool Hpool) as [Hx ->].
    rewrite (Hnsx x Hx) in Hk. simplify_eq. by apply Hfit.
  - change (schedule (suffix plan 0)) with (schedule plan) in Hpools.
    exists pools, users. split; [exact Hrun|]. split_and!; [| |done].
    + intros c Hc. split; [by apply Hfit|].
      destruct (lookup_lt_is_Some_2 (init_pools sh K labels) c)
        as [pool0 Hpool0c]; [by rewrite init_pools_length|].
      destruct (Hpool0 c pool0 Hpool0c) as [_ Hlen0].
      eexists. split; [by apply (Hpools c _ pool0 (Hnsx c Hc))|].
      rewrite length_drop. lia.
    + intros u cs ps Hcs Hps.
      destruct (Husers u cs ps []) as (l & Hl & Hlen); [lia|done..| |eauto].
      apply lookup_replicate_2. apply lookup_lt_Some in Hcs. lia.
Qed.

(** ** Rounding: what the claims say *)

(** C7, in the arithmetic of the code: for every class, when [class_dict] is
    built and before any proportion is popped, the [count_per_class]
    normalised proportions are positive doubles, and their values sum to 1
    within [count_per_class * 2^-52].  The draws are finite doubles between
    [2^-64] and [2^64], [count_per_class] is between 1 and 65536, and
    [probs.sum()] may add the draws in any order. *)
Theorem init_class_dict_proportions_sum_within_rounding
    (sum : list float → float) (num_classes count_per_class : nat)
    (uniform : nat → nat → float) (i : nat) (e : class_entry float) :
  (∀ l, float_sum l (sum l)) →
  (∀ i j, in_range (uniform i j)) →
  0 < count_per_class → (Z.of_nat count_per_class ≤ 65536)%Z →
  init_class_dict (H := doubles sum) num_classes count_per_class uniform !! i = Some e →
  length (prob e) = count_per_class ∧
  ∃ vs, Forall2 (λ p v, float_Q p = Some v ∧ (0 < v)%Q) (prob e) vs ∧
        (1 - Qn count_per_class * pow2 (-52) <= Qsum vs)%Q ∧
        (Qsum vs <= 1 + Qn count_per_class * pow2 (-52))%Q.
Proof.
  intros Hsum Hr Hq Hq' [_ ->]%init_class_dict_lookup. cbn [prob].
  destruct (probs_norm_bound sum uniform i count_per_class Hsum Hr Hq') as (Hlen & Hok & Hb).
  split; [done|]. destruct (Hb Hq) as [Hlo Hhi].
  destruct (shares_values _ Hok) as (vs & Hvs & Hs).
  exists vs. split; [done|]. rewrite Hs. done.
Qed.

Lemma init_class_dict_proportions_sum_within_rounding_witness :
  ∃ e, init_class_dict (H := doubles np_sum) 1 2 two_draws !! 0 = Some e ∧
       length (prob e) = 2 ∧
       ∃ vs, Forall2 (λ p v, float_Q p = Some v ∧ (0 < v)%Q) (prob e) vs ∧
             (1 - Qn 2 * pow2 (-52) <= Qsum vs)%Q ∧
             (Qsum vs <= 1 + Qn 2 * pow2 (-52))%Q.
Proof.
  eexists. split; [vm_compute; reflexivity|].
  apply (init_class_dict_proportions_sum_within_rounding np_sum 1 2 two_draws 0).
  - apply np_sum_float_sum.
  - intros i [|j]; by apply default_draws_in_range.
  - lia.
  - lia.
  - vm_compute. reflexivity.
Defined.




(** X13, in the arithmetic of the code: a plan generated for at least one
    client and one class per client, applied to a split with the labels
    [0 .. num_classes - 1], leaves at most [count_per_class] samples of every
    class unassigned.  The draws are finite doubles between [2^-64] and
    [2^64], [probs.sum()] may add them in any order, the split has at most
    [2^32] samples and [count_per_class] is at most 65536. *)
Theorem gen_data_split_leaves_at_most_count_per_class
    (sum : list float → float)
    (train_set d : dataset) (num_users classes_per_user : nat)
    (uniform : nat → nat → float) (pick : nat → nat → nat) (sh : shuffler)
    (num_classes : nat) (train_samples train_labels num_samples labels : list nat)
    (plan : class_partitions float) :
  (∀ l, float_sum l (sum l)) →
  (∀ i j, in_range (uniform i j)) →
  get_num_classes_samples train_set = Ok (num_classes, train_samples, train_labels) →
  gen_classes_per_node (H := doubles sum) train_set num_users classes_per_user uniform pick
  = Ok plan →
  get_num_classes_samples d = Ok (num_classes, num_samples, labels) →
  (∀ l, l ∈ labels → l < num_classes) →
  (Z.of_nat (length labels) ≤ 2 ^ 32)%Z →
  (Z.of_nat ((classes_per_user * num_users) / num_classes) ≤ 65536)%Z →
  0 < num_users → 0 < classes_per_user →
  ∃ data_class_idx user_data_idx,
    gen_data_split_run (H := doubles sum) d num_users plan sh
    = Ok (data_class_idx, user_data_idx) ∧
    ∀ c, c < num_classes →
      ∃ pool, data_class_idx !! c = Some pool ∧
              length pool ≤ (classes_per_user * num_users) / num_classes.
Proof.
  intros Hsum Hr Htrain Hplan Hd Hwf Hsize Hq HN Hm.
  destruct (gen_data_split_run_doubles sum _ _ _ _ _ _ sh _ _ _ _ _ _
              Hsum Hr Htrain Hplan Hd Hwf Hsize Hq) as (pools & users & Hrun & Hpools & _ & _).
  exists pools, users. split; [done|]. intros c Hc.
  destruct (Hpools c Hc) as (Hle & pool & Hpool & Hlen). exists pool. split; [done|].
  assert (0 < (classes_per_user * num_users) / num_classes) as Hqpos.
  { pose proof Hplan as [cd Hcd]%gen_classes_per_node_Ok.
    destruct (gen_classes_per_node_run_final _ _ _ _ _ _ _ _ _ _ Htrain Hcd)
      as (HK & Hmod & _).
    pose proof (exact_budget _ _ _ HK Hmod). nia. }
  destruct (generated_requests_fit sum _ _ _ _ _ _ _ _ _ Hsum Hr Htrain Hplan Hq
              (occurrences c labels) c Hc) as [_ Hnear].
  { pose proof (occurrences_le_length c labels). lia. }
  specialize (Hnear Hqpos). lia.
Qed.

Lemma gen_data_split_leaves_at_most_count_per_class_witness :
  ∃ plan,
    gen_classes_per_node (H := doubles np_sum) fourteen 2 2 two_draws diagonal_pick
    = Ok plan ∧
  ∃ data_class_idx user_data_idx,
    gen_data_split_run (H := doubles np_sum) (Targets [1; 0; 0; 1; 1; 0]) 2 plan rev_shuffler
    = Ok (data_class_idx, user_data_idx) ∧
    ∀ c, c < 2 → ∃ pool, data_class_idx !! c = Some pool ∧ length pool ≤ (2 * 2) / 2.
Proof.
  eexists. split; [vm_compute; reflexivity|].
  apply (gen_data_split_leaves_at_most_count_per_class np_sum fourteen
           (Targets [1; 0; 0; 1; 1; 0]) 2 2 two_draws diagonal_pick rev_shuffler 2
           [7; 7] [0; 1; 0; 1; 0; 1; 0; 1; 0; 1; 0; 1; 0; 1] [3; 3] [1; 0; 0; 1; 1; 0]).
  - apply np_sum_float_sum.
  - intros i [|j]; by apply default_draws_in_range.
  - vm_compute. reflexivity.
  - vm_compute. reflexivity.
  - vm_compute. reflexivity.
  - intros l Hl. repeat (apply elem_of_cons in Hl as [->|Hl]; [lia|]).
    by apply elem_of_nil in Hl.
  - vm_compute. discriminate.
  - vm_compute. discriminate.
  - lia.
  - lia.
Defined.

(** X17, in the arithmetic of the code: in a generated plan with
    [count_per_class > 0], the proportions that every class is given over
    all clients are [count_per_class] positive doubles whose values sum to 1
    within [count_per_class * 2^-52]: the plan promises the whole class, up
    to rounding.  The draws are finite doubles between [2^-64] and [2^64],
    [probs.sum()] may add them in any order and [count_per_class] is at most
    65536. *)
Theorem gen_classes_per_node_shares_sum_within_rounding
    (sum : list float → float)
    (d : dataset) (num_users classes_per_user : nat)
    (uniform : nat → nat → float) (pick : nat → nat → nat)
    (num_classes : nat) (num_samples labels : list nat) (plan : class_partitions float) :
  (∀ l, float_sum l (sum l)) →
  (∀ i j, in_range (uniform i j)) →
  get_num_classes_samples d = Ok (num_classes, num_samples, labels) →
  gen_classes_per_node (H := doubles sum) d num_users classes_per_user uniform pick
  = Ok plan →
  0 < (classes_per_user * num_users) / num_classes →
  (Z.of_nat ((classes_per_user * num_users) / num_classes) ≤ 65536)%Z →
  ∀ c, c < num_classes →
    length (assigned c (schedule plan)) = (classes_per_user * num_users) / num_classes ∧
    ∃ vs, Forall2 (λ p v, float_Q p = Some v ∧ (0 < v)%Q) (assigned c (schedule plan)) vs ∧
          (1 - Qn ((classes_per_user * num_users) / num_classes) * pow2 (-52) <= Qsum vs)%Q ∧
          (Qsum vs <= 1 + Qn ((classes_per_user * num_users) / num_classes) * pow2 (-52))%Q.
Proof.
  intros Hsum Hr Hd Hplan Hq Hq' c Hc.
  destruct (generated_shares_doubles sum _ _ _ _ _ _ _ _ _ Hsum Hr Hd Hplan Hq' c Hc)
    as (Hlen & Hok & Hb).
  split; [done|]. destruct (Hb Hq) as [Hlo Hhi].
  destruct (shares_values _ Hok) as (vs & Hvs & Hs).
  exists vs. split; [done|]. rewrite Hs. done.
Qed.

Lemma gen_classes_per_node_shares_sum_within_rounding_witness :
  ∃ plan,
    gen_classes_per_node (H := doubles np_sum) fourteen 2 2 two_draws diagonal_pick
    = Ok plan ∧
    ∀ c, c < 2 →
      length (assigned c (schedule plan)) = (2 * 2) / 2 ∧
      ∃ vs, Forall2 (λ p v, float_Q p = Some v ∧ (0 < v)%Q) (assigned c (schedule plan)) vs ∧
            (1 - Qn ((2 * 2) / 2) * pow2 (-52) <= Qsum vs)%Q ∧
            (Qsum vs <= 1 + Qn ((2 * 2) / 2) * pow2 (-52))%Q.
Proof.
  eexists. split; [vm_compute; reflexivity|].
  apply (gen_classes_per_node_shares_sum_within_rounding np_sum fourteen 2 2
           two_draws diagonal_pick 2 [7; 7] [0; 1; 0; 1; 0; 1; 0; 1; 0; 1; 0; 1; 0; 1]).
  - apply np_sum_float_sum.
  - intros i [|j]; by apply default_draws_in_range.
  - vm_compute. reflexivity.
  - vm_compute. reflexivity.
  - vm_compute. lia.
  - vm_compute. discriminate.
Defined.
